(** * Pintos synchronisation primitives (threads/synch.c)

    A shallow embedding of the semaphore, the priority-donating lock and the
    Mesa-style condition variable of [threads/synch.c], followed by the
    properties that the specification states about them.

    The kernel runs on one processor, and the bodies of the semaphore and
    lock operations run with interrupts disabled, so that such an operation
    is a function from machine state to machine state up to the point where
    it gives up the processor.  A blocking operation is cut at its
    suspension point ([thread_block]): [sema_down_pass] is one trip around
    the [while] loop of [sema_down], and a thread that was woken re-runs it.
    [sema_up] calls [thread_yield] as its last action and returns whether it
    did; [lock_release], which has work left after its [sema_up], is cut at
    that yield.  The operations on condition variables run with interrupts
    on and call several of the others: [cond_wait] and [cond_broadcast]
    take what the other threads do in between as a parameter. *)

From Stdlib Require Import ZArith List Bool Lia Arith Sorted Permutation.
Import ListNotations.
Open Scope Z_scope.

(** ** Data model *)

Definition tid := nat.   (* struct thread *   *)
Definition sid := nat.   (* struct semaphore *, free-standing *)
Definition lid := nat.   (* struct lock *     *)
Definition eid := nat.   (* struct semaphore_elem * *)
Definition cid := nat.   (* struct condition * *)

Inductive thread_status : Type :=
| THREAD_RUNNING
| THREAD_READY
| THREAD_BLOCKED
| THREAD_DYING.

Definition thread_status_eqb (a b : thread_status) : bool :=
  match a, b with
  | THREAD_RUNNING, THREAD_RUNNING => true
  | THREAD_READY, THREAD_READY => true
  | THREAD_BLOCKED, THREAD_BLOCKED => true
  | THREAD_DYING, THREAD_DYING => true
  | _, _ => false
  end.

(** The fields of [struct thread] that synch.c reads or writes. *)
Record thread : Type := mkThread {
  status : thread_status;
  priority : Z;
  priority_original : Z;
  is_donated : bool;
  waiting_for_lock : option lid;
  locks : list lid
}.

(** [struct semaphore]: [value] is a C [unsigned]. *)
Record semaphore : Type := mkSema {
  value : Z;
  waiters : list tid
}.

Record lock : Type := mkLock {
  holder : option tid;
  l_semaphore : semaphore;
  priority_lock : Z
}.

Record semaphore_elem : Type := mkElem {
  e_semaphore : semaphore;
  highest_priority : Z
}.

Record condition : Type := mkCond {
  c_waiters : list eid
}.

(** The memory the primitives work on: every pointer of the source is an
    index into one of these stores.  [list_fault] is no part of the machine:
    it is set once [list_remove] has been run on a lock element whose links
    are not those of the list it is taken from (see [unlink_lock]); from
    then on the lists of locks of the model need not be what the lists of
    the machine hold. *)
Record state : Type := mkState {
  threads : tid -> thread;
  semas : sid -> semaphore;
  lockmap : lid -> lock;
  elems : eid -> semaphore_elem;
  conds : cid -> condition;
  list_fault : bool
}.

Definition update {A : Type} (m : nat -> A) (k : nat) (v : A) : nat -> A :=
  fun x => if Nat.eqb x k then v else m x.

Definition UINT_MAX : Z := 4294967295.

(** Arithmetic on a C [unsigned] wraps modulo 2^32. *)
Definition wrap32 (z : Z) : Z := z mod 4294967296.

(** ** Field updates *)

Definition set_status (s : thread_status) (t : thread) : thread :=
  mkThread s (priority t) (priority_original t) (is_donated t)
           (waiting_for_lock t) (locks t).

Definition set_priority (p : Z) (t : thread) : thread :=
  mkThread (status t) p (priority_original t) (is_donated t)
           (waiting_for_lock t) (locks t).

Definition set_is_donated (b : bool) (t : thread) : thread :=
  mkThread (status t) (priority t) (priority_original t) b
           (waiting_for_lock t) (locks t).

Definition set_waiting_for_lock (w : option lid) (t : thread) : thread :=
  mkThread (status t) (priority t) (priority_original t) (is_donated t)
           w (locks t).

Definition set_locks (ls : list lid) (t : thread) : thread :=
  mkThread (status t) (priority t) (priority_original t) (is_donated t)
           (waiting_for_lock t) ls.

Definition with_threads (st : state) (ths : tid -> thread) : state :=
  mkState ths (semas st) (lockmap st) (elems st) (conds st) (list_fault st).

Definition with_sema (st : state) (s : sid) (sema : semaphore) : state :=
  mkState (threads st) (update (semas st) s sema) (lockmap st) (elems st)
          (conds st) (list_fault st).

Definition with_lock (st : state) (l : lid) (lk : lock) : state :=
  mkState (threads st) (semas st) (update (lockmap st) l lk) (elems st)
          (conds st) (list_fault st).

Definition with_elem (st : state) (e : eid) (se : semaphore_elem) : state :=
  mkState (threads st) (semas st) (lockmap st) (update (elems st) e se)
          (conds st) (list_fault st).

Definition with_cond (st : state) (c : cid) (cv : condition) : state :=
  mkState (threads st) (semas st) (lockmap st) (elems st)
          (update (conds st) c cv) (list_fault st).

Definition with_list_fault (st : state) (b : bool) : state :=
  mkState (threads st) (semas st) (lockmap st) (elems st) (conds st) b.

(** ** The collaborators of synch.c *)

(** Modelled from the spec: threads/thread.c is absent.  [thread_block]
    suspends the calling thread until it is explicitly resumed. *)
Definition thread_block (cur : tid) (ths : tid -> thread) : tid -> thread :=
  update ths cur (set_status THREAD_BLOCKED (ths cur)).

(** Modelled from the spec: threads/thread.c is absent.  [thread_unblock]
    marks a thread ready. *)
Definition thread_unblock (t : tid) (ths : tid -> thread) : tid -> thread :=
  update ths t (set_status THREAD_READY (ths t)).

(** Modelled from the spec: threads/thread.c is absent.  The donation-aware
    variant of set-priority sets the thread's priority and, when asked to,
    also marks the thread boosted. *)
Definition thread_given_set_priority (ths : tid -> thread) (t : tid)
    (new_priority : Z) (donated : bool) : tid -> thread :=
  let th := set_priority new_priority (ths t) in
  update ths t (if donated then set_is_donated true th else th).

(** Modelled from the spec: threads/thread.c is absent.  [thread_set_priority]
    sets the priority of the running thread. *)
Definition thread_set_priority (ths : tid -> thread) (cur : tid)
    (new_priority : Z) : tid -> thread :=
  thread_given_set_priority ths cur new_priority false.

Section ListUtility.
Context {A : Type}.

(** Modelled from the spec: lib/kernel/list.c is absent.  Insertion that
    maintains the order of a comparator: the new element goes before the
    first element it is [less] than, at the back when there is none. *)
Fixpoint list_insert_ordered (less : A -> A -> bool) (x : A) (l : list A)
  : list A :=
  match l with
  | [] => [x]
  | e :: r => if less x e then x :: e :: r
              else e :: list_insert_ordered less x r
  end.

(** Modelled from the spec: lib/kernel/list.c is absent.  Pop-front. *)
Definition list_pop_front (l : list A) : option (A * list A) :=
  match l with
  | [] => None
  | x :: r => Some (x, r)
  end.

(** Modelled from the spec: lib/kernel/list.c is absent.  Pop-back. *)
Definition list_pop_back (l : list A) : option (A * list A) :=
  match rev l with
  | [] => None
  | x :: r => Some (x, rev r)
  end.

(** Modelled from the spec: lib/kernel/list.c is absent.  Emptiness. *)
Definition list_empty (l : list A) : bool :=
  match l with
  | [] => true
  | _ :: _ => false
  end.

(** Modelled from the spec: lib/kernel/list.c is absent.  Front query. *)
Definition list_front (l : list A) : option A := hd_error l.
End ListUtility.

(** Modelled from the spec: lib/kernel/list.c is absent.  Remove: a list
    element is linked into one list at a time and is unlinked from it. *)
Fixpoint list_remove (x : nat) (l : list nat) : list nat :=
  match l with
  | [] => []
  | e :: r => if Nat.eqb e x then r else e :: list_remove x r
  end.

(** ** Comparators (synch.c, end of file) *)

(** [priority_semaphore_compare]: strict "greater than" on the
    [highest_priority] of the two records.  The record type is abstract here
    because the source passes it both wait-records and thread elements. *)
Definition priority_semaphore_compare {E : Type} (highest_priority : E -> Z)
    (e_1 e_2 : E) : bool :=
  highest_priority e_1 >? highest_priority e_2.

(** Modelled from the spec: struct thread (threads/thread.h) is absent, so
    what [priority_semaphore_compare] reads through a thread's list element
    is not fixed by the source; the spec keys a semaphore's wait queue by the
    queued thread's current priority. *)
Definition thread_elem_priority (ths : tid -> thread) (t : tid) : Z :=
  priority (ths t).

(** The priority of the first waiter of a lock's semaphore, -1 if none. *)
Definition lock_highest_priority (st : state) (l : lid) : Z :=
  match waiters (l_semaphore (lockmap st l)) with
  | [] => -1
  | t :: _ => priority (threads st t)
  end.

Definition lock_priority_compare (st : state) (e_1 e_2 : lid) : bool :=
  lock_highest_priority st e_1 >=? lock_highest_priority st e_2.

(** ** Semaphores *)

Inductive down_result : Type :=
| Passed     (* the loop was left and [value] decremented *)
| Blocked.   (* the caller was queued and suspended in [thread_block] *)

Definition sema_init (v : Z) : semaphore := mkSema v [].

(** One trip through [sema_down], from the loop test to the suspension in
    [thread_block] or to the return. *)
Definition sema_down_pass (ths : tid -> thread) (cur : tid) (sema : semaphore)
  : (tid -> thread) * semaphore * down_result :=
  if value sema =? 0 then
    (thread_block cur ths,
     mkSema (value sema)
            (list_insert_ordered
               (priority_semaphore_compare (thread_elem_priority ths))
               cur (waiters sema)),
     Blocked)
  else
    (ths, mkSema (wrap32 (value sema - 1)) (waiters sema), Passed).

Definition sema_try_down (sema : semaphore) : semaphore * bool :=
  if value sema >? 0 then
    (mkSema (wrap32 (value sema - 1)) (waiters sema), true)
  else
    (sema, false).

(** The [while (!list_empty (&sema->waiters))] loop of [sema_up]; [fuel]
    bounds the number of trips. *)
Fixpoint sema_up_drain (fuel : nat) (ths : tid -> thread) (ws : list tid)
    (waiting_thread : option tid)
  : (tid -> thread) * list tid * option tid :=
  match fuel with
  | O => (ths, ws, waiting_thread)
  | S fuel' =>
      match list_pop_back ws with
      | None => (ths, ws, waiting_thread)
      | Some (t, ws') =>
          sema_up_drain fuel' (thread_unblock t ths) ws' (Some t)
      end
  end.

(** [sema_up]; the boolean tells whether [thread_yield] was called. *)
Definition sema_up (ths : tid -> thread) (cur : tid) (sema : semaphore)
  : (tid -> thread) * semaphore * bool :=
  let '(ths', ws', waiting_thread) :=
    sema_up_drain (length (waiters sema)) ths (waiters sema) None in
  let sema' := mkSema (wrap32 (value sema + 1)) ws' in
  let yield :=
    match waiting_thread with
    | None => false
    | Some w =>
        (priority (ths' w) >? priority (ths' cur))
        && thread_status_eqb (status (ths' w)) THREAD_READY
    end in
  (ths', sema', yield).

(** The semaphore operations on a free-standing semaphore of the store. *)
Definition sema_down_at (st : state) (cur : tid) (s : sid)
  : state * down_result :=
  let '(ths', sema', r) := sema_down_pass (threads st) cur (semas st s) in
  (with_sema (with_threads st ths') s sema', r).

Definition sema_up_at (st : state) (cur : tid) (s : sid) : state * bool :=
  let '(ths', sema', yield) := sema_up (threads st) cur (semas st s) in
  (with_sema (with_threads st ths') s sema', yield).

(** ** Locks *)

Definition set_holder (h : option tid) (lk : lock) : lock :=
  mkLock h (l_semaphore lk) (priority_lock lk).

Definition set_l_semaphore (s : semaphore) (lk : lock) : lock :=
  mkLock (holder lk) s (priority_lock lk).

Definition set_priority_lock (p : Z) (lk : lock) : lock :=
  mkLock (holder lk) (l_semaphore lk) p.

Definition lock_held_by_current_thread (st : state) (cur : tid) (l : lid)
  : bool :=
  match holder (lockmap st l) with
  | Some h => Nat.eqb h cur
  | None => false
  end.

(** The lock [l] taken out of every list of locks that holds it. *)
Definition remove_lock_elem (l : lid) (ths : tid -> thread) : tid -> thread :=
  fun t => set_locks (list_remove l (locks (ths t))) (ths t).

(** The lock [l], which is in the list of [curr], has been taken meanwhile
    by another thread, which has put it into its own list as well. *)
Definition lock_relinked (st : state) (curr : tid) (l : lid) : bool :=
  match holder (lockmap st l) with
  | Some h =>
      negb (Nat.eqb h curr) && existsb (Nat.eqb l) (locks (threads st h))
  | None => false
  end.

(** [list_remove (&lock->lock_list_elem)], as [lock_release] runs it.
    Modelled from the spec: lib/kernel/list.c is absent; remove takes an
    element out of the list it is in.  [lock_acquire] is the only code that
    puts the element of a lock into a list, the list of the thread that
    then holds the lock, so the element is looked for in the list of the
    caller.  When it is there, it is taken out of every list that has it.
    That is more than one list when another thread has taken the lock with
    [lock_acquire] while the caller was off the processor inside
    [lock_release]: the element then sits in that thread's list, which the
    removal takes it out of, and the caller's list is left with links that
    are out of date; the model sets [list_fault].  When the element is not
    in the caller's list (the lock was taken with [lock_try_acquire], or has
    been unlinked already) the source still runs the removal, on links that
    are unset or out of date: the machine may stop or lose other elements.
    The model sets [list_fault] and leaves its lists as they are. *)
Definition unlink_lock (l : lid) (curr : tid) (st : state) : state :=
  if existsb (Nat.eqb l) (locks (threads st curr))
  then with_threads
         (with_list_fault st (list_fault st || lock_relinked st curr l))
         (remove_lock_elem l (threads st))
  else with_list_fault st true.

Section Locks.
(** LOCK_LEVEL and PRIORITY_FAKE are macros of the absent headers, and
    [thread_mlfqs] is the scheduler's policy flag (true: rate-based
    policy, no donation). *)
Variable LOCK_LEVEL : Z.
Variable PRIORITY_FAKE : Z.
Variable thread_mlfqs : bool.

Definition lock_init (st : state) (l : lid) : state :=
  with_lock st l (mkLock None (sema_init 1) PRIORITY_FAKE).

(** The two assignments at the head of the donation loop's body: the
    holder is raised to the caller's priority and the ceiling of the lock
    under the walk follows when it is lower. *)
Definition donate_once (st : state) (cur h : tid) (lock_next : lid)
  : state :=
  let st1 :=
    with_threads st
      (thread_given_set_priority (threads st) h
         (priority (threads st cur)) true) in
  if priority_lock (lockmap st1 lock_next) <? priority (threads st1 cur)
  then with_lock st1 lock_next
         (set_priority_lock (priority (threads st1 cur))
            (lockmap st1 lock_next))
  else st1.

(** The donation loop of [lock_acquire].  [None] only when [fuel] runs out
    before the loop ends. *)
Fixpoint donate_walk (fuel : nat) (st : state) (cur : tid)
    (lock_holder : option tid) (lock_next : lid) (lock_iter : Z)
  : option state :=
  match lock_holder with
  | None => Some st
  | Some h =>
      if negb thread_mlfqs
         && (priority (threads st h) <? priority (threads st cur))
      then
        match fuel with
        | O => None
        | S fuel' =>
            let st2 := donate_once st cur h lock_next in
            match waiting_for_lock (threads st2 h) with
            | Some l' =>
                if lock_iter <? LOCK_LEVEL
                then donate_walk fuel' st2 cur (holder (lockmap st2 l'))
                       l' (lock_iter + 1)
                else Some st2
            | None => Some st2
            end
        end
      else Some st
  end.

(** [lock_acquire] from its entry to the first loop test of [sema_down]. *)
Definition lock_acquire_donate (st : state) (cur : tid) (l : lid)
  : option state :=
  let st0 :=
    match holder (lockmap st l) with
    | Some _ =>
        if negb thread_mlfqs
        then with_threads st
               (update (threads st) cur
                  (set_waiting_for_lock (Some l) (threads st cur)))
        else st
    | None => st
    end in
  donate_walk (S (Z.to_nat LOCK_LEVEL)) st0 cur (holder (lockmap st0 l)) l 0.

(** [sema_down (&lock->semaphore)], one trip. *)
Definition lock_sema_down_pass (st : state) (cur : tid) (l : lid)
  : state * down_result :=
  let '(ths', sema', r) :=
    sema_down_pass (threads st) cur (l_semaphore (lockmap st l)) in
  (with_lock (with_threads st ths') l (set_l_semaphore sema' (lockmap st l)),
   r).

(** [lock_acquire] after [sema_down] has returned. *)
Definition lock_acquire_finish (st : state) (cur : tid) (l : lid) : state :=
  let st1 := with_lock st l (set_holder (Some cur) (lockmap st l)) in
  if negb thread_mlfqs then
    let st2 :=
      with_threads st1
        (update (threads st1) cur
           (set_waiting_for_lock None (threads st1 cur))) in
    with_threads st2
      (update (threads st2) cur
         (set_locks
            (list_insert_ordered (lock_priority_compare st2) l
               (locks (threads st2 cur)))
            (threads st2 cur)))
  else st1.

(** What a thread runs when it is resumed inside [lock_acquire]: the loop
    of [sema_down] again and, once through, the rest of [lock_acquire]. *)
Definition lock_acquire_retry (st : state) (cur : tid) (l : lid)
  : state * down_result :=
  match lock_sema_down_pass st cur l with
  | (st1, Passed) => (lock_acquire_finish st1 cur l, Passed)
  | (st1, Blocked) => (st1, Blocked)
  end.

(** [lock_acquire] up to its return or its first suspension.  [None] is a
    failed ASSERT. *)
Definition lock_acquire (st : state) (cur : tid) (l : lid)
  : option (state * down_result) :=
  if lock_held_by_current_thread st cur l then None
  else
    match lock_acquire_donate st cur l with
    | None => None
    | Some st1 => Some (lock_acquire_retry st1 cur l)
    end.

(** [lock_try_acquire].  [None] is a failed ASSERT. *)
Definition lock_try_acquire (st : state) (cur : tid) (l : lid)
  : option (state * bool) :=
  if lock_held_by_current_thread st cur l then None
  else
    match sema_try_down (l_semaphore (lockmap st l)) with
    | (sema', true) =>
        Some (with_lock st l
                (set_holder (Some cur)
                   (set_l_semaphore sema' (lockmap st l))),
              true)
    | (_, false) => Some (st, false)
    end.

(** What [lock_release] runs after [sema_up] has returned: the donation
    bookkeeping.  When [sema_up] has called [thread_yield], this is what the
    caller runs once it is back on the processor, on the state that the
    other threads have left. *)
Definition lock_release_restore (st : state) (curr : tid) (l : lid)
  : state :=
  if negb thread_mlfqs then
    let st1 := unlink_lock l curr st in
    let st2 :=
      with_lock st1 l (set_priority_lock PRIORITY_FAKE (lockmap st1 l)) in
    match list_front (locks (threads st2 curr)) with
    | None =>
        let ths :=
          update (threads st2) curr
            (set_is_donated false (threads st2 curr)) in
        with_threads st2
          (thread_set_priority ths curr (priority_original (ths curr)))
    | Some lock_first =>
        if negb (priority_lock (lockmap st2 lock_first) =? PRIORITY_FAKE)
        then with_threads st2
               (thread_given_set_priority (threads st2) curr
                  (priority_lock (lockmap st2 lock_first)) true)
        else with_threads st2
               (thread_set_priority (threads st2) curr
                  (priority_original (threads st2 curr)))
    end
  else st.

(** [lock_release] from its entry to the end of [sema_up]; the boolean
    tells whether [sema_up] has called [thread_yield].  [None] is a failed
    ASSERT. *)
Definition lock_release_up (st : state) (curr : tid) (l : lid)
  : option (state * bool) :=
  if lock_held_by_current_thread st curr l then
    let st1 := with_lock st l (set_holder None (lockmap st l)) in
    let '(ths', sema', yield) :=
      sema_up (threads st1) curr (l_semaphore (lockmap st1 l)) in
    Some (with_lock (with_threads st1 ths') l
            (set_l_semaphore sema' (lockmap st1 l)),
          yield)
  else None.

(** [lock_release] up to its return or, when its [sema_up] yields, up to
    that [thread_yield]; the boolean tells which (true: the yield).  At the
    yield the other threads run, and the caller goes on with
    [lock_release_restore] when it is scheduled again.  [None] is a failed
    ASSERT. *)
Definition lock_release (st : state) (curr : tid) (l : lid)
  : option (state * bool) :=
  match lock_release_up st curr l with
  | None => None
  | Some (st2, true) => Some (st2, true)
  | Some (st2, false) => Some (lock_release_restore st2 curr l, false)
  end.

(** ** Condition variables *)

Definition cond_init (st : state) (c : cid) : state :=
  with_cond st c (mkCond []).

(** [cond_wait] up to the call of [lock_release]: [waiter] is the
    caller's local wait-record.  [None] is a failed ASSERT. *)
Definition cond_wait_enqueue (st : state) (cur : tid) (c : cid) (l : lid)
    (waiter : eid) : option state :=
  if lock_held_by_current_thread st cur l then
    let st1 :=
      with_elem st waiter (mkElem (sema_init 0) (priority (threads st cur)))
    in
    Some (with_cond st1 c
            (mkCond
               (list_insert_ordered
                  (priority_semaphore_compare
                     (fun e => highest_priority (elems st1 e)))
                  waiter (c_waiters (conds st1 c)))))
  else None.

(** [sema_down (&waiter.semaphore)], one trip. *)
Definition elem_sema_down_pass (st : state) (cur : tid) (waiter : eid)
  : state * down_result :=
  let '(ths', sema', r) :=
    sema_down_pass (threads st) cur (e_semaphore (elems st waiter)) in
  (with_elem (with_threads st ths') waiter
     (mkElem sema' (highest_priority (elems st waiter))),
   r).

(** [cond_wait] from its entry to the return of [lock_release], or to the
    [thread_yield] inside it. *)
Definition cond_wait_release (st : state) (cur : tid) (c : cid) (l : lid)
    (waiter : eid) : option (state * bool) :=
  match cond_wait_enqueue st cur c l waiter with
  | None => None
  | Some st1 => lock_release st1 cur l
  end.

(** [cond_signal]; the boolean tells whether [sema_up] yielded.  [None] is
    a failed ASSERT. *)
Definition cond_signal (st : state) (cur : tid) (c : cid) (l : lid)
  : option (state * bool) :=
  if lock_held_by_current_thread st cur l then
    match list_pop_front (c_waiters (conds st c)) with
    | None => Some (st, false)
    | Some (w, rest) =>
        let st1 := with_cond st c (mkCond rest) in
        let '(ths', sema', yield) :=
          sema_up (threads st1) cur (e_semaphore (elems st1 w)) in
        Some (with_elem (with_threads st1 ths') w
                (mkElem sema' (highest_priority (elems st1 w))),
              yield)
    end
  else None.
End Locks.

(** ** Histories of one semaphore *)

(** The calls a semaphore receives.  [OpDown t] is one trip of thread [t]
    through [sema_down]: the call itself, or its resumption after a wake-up. *)
Inductive sema_op : Type :=
| OpDown (t : tid)
| OpTryDown
| OpUp (t : tid).

Record sema_run : Type := mkRun {
  run_threads : tid -> thread;
  run_sema : semaphore;
  completed_ups : Z;
  completed_downs : Z
}.

Definition sema_start (ths : tid -> thread) (v : Z) : sema_run :=
  mkRun ths (sema_init v) 0 0.

Definition sema_apply (r : sema_run) (op : sema_op) : sema_run :=
  match op with
  | OpDown t =>
      match sema_down_pass (run_threads r) t (run_sema r) with
      | (ths', sema', Passed) =>
          mkRun ths' sema' (completed_ups r) (completed_downs r + 1)
      | (ths', sema', Blocked) =>
          mkRun ths' sema' (completed_ups r) (completed_downs r)
      end
  | OpTryDown =>
      match sema_try_down (run_sema r) with
      | (sema', true) =>
          mkRun (run_threads r) sema' (completed_ups r) (completed_downs r + 1)
      | (sema', false) =>
          mkRun (run_threads r) sema' (completed_ups r) (completed_downs r)
      end
  | OpUp t =>
      match sema_up (run_threads r) t (run_sema r) with
      | (ths', sema', _) =>
          mkRun ths' sema' (completed_ups r + 1) (completed_downs r)
      end
  end.

Definition sema_exec (ops : list sema_op) (r : sema_run) : sema_run :=
  fold_left sema_apply ops r.

(** Queue order: nearer the front means a priority at least as high. *)
Definition priority_descending (ths : tid -> thread) (q : list tid) : Prop :=
  StronglySorted (fun a b => priority (ths a) >= priority (ths b)) q.

(** What a history keeps true of the counter, for initial value [v]. *)
Definition accounted (v : Z) (r : sema_run) : Prop :=
  0 <= value (run_sema r) <= UINT_MAX
  /\ 0 <= completed_ups r
  /\ 0 <= completed_downs r
  /\ value (run_sema r) = wrap32 (v + completed_ups r - completed_downs r)
  /\ (v + completed_ups r <= UINT_MAX ->
      value (run_sema r) = v + completed_ups r - completed_downs r).


(** ** Scripts: sequences of calls, for concrete runs *)

(** [CallLockRelease] is [lock_release] up to its return or its yield, and
    [CallLockReleaseResume] is what a caller that yielded runs when it is
    scheduled again. *)

Inductive call : Type :=
| CallSemaDown (t : tid) (s : sid)
| CallSemaUp (t : tid) (s : sid)
| CallLockInit (l : lid)
| CallLockAcquire (t : tid) (l : lid)
| CallLockResume (t : tid) (l : lid)
| CallLockTryAcquire (t : tid) (l : lid)
| CallLockRelease (t : tid) (l : lid)
| CallLockReleaseResume (t : tid) (l : lid).

Section Scripts.
Variable LOCK_LEVEL : Z.
Variable PRIORITY_FAKE : Z.
Variable thread_mlfqs : bool.

Definition run_call (st : state) (c : call) : option state :=
  match c with
  | CallSemaDown t s => Some (fst (sema_down_at st t s))
  | CallSemaUp t s => Some (fst (sema_up_at st t s))
  | CallLockInit l => Some (lock_init PRIORITY_FAKE st l)
  | CallLockAcquire t l =>
      option_map fst (lock_acquire LOCK_LEVEL thread_mlfqs st t l)
  | CallLockResume t l =>
      Some (fst (lock_acquire_retry thread_mlfqs st t l))
  | CallLockTryAcquire t l =>
      option_map fst (lock_try_acquire st t l)
  | CallLockRelease t l =>
      option_map fst (lock_release PRIORITY_FAKE thread_mlfqs st t l)
  | CallLockReleaseResume t l =>
      Some (lock_release_restore PRIORITY_FAKE thread_mlfqs st t l)
  end.

Fixpoint run_calls (st : state) (cs : list call) : option state :=
  match cs with
  | [] => Some st
  | c :: cs' =>
      match run_call st c with
      | None => None
      | Some st' => run_calls st' cs'
      end
  end.
End Scripts.

(** A machine whose thread [t] has base priority [prio t], with every
    semaphore initialised to 0 and no lock initialised yet. *)
Definition boot (prio : tid -> Z) : state :=
  mkState (fun t => mkThread THREAD_READY (prio t) (prio t) false None [])
          (fun _ => sema_init 0)
          (fun _ => mkLock None (sema_init 0) 0)
          (fun _ => mkElem (sema_init 0) 0)
          (fun _ => mkCond [])
          false.

Definition priorities_of (st : state) (ts : list tid) : list Z :=
  map (fun t => priority (threads st t)) ts.

(** ** Ownership chains *)

(** [ownership_chain st l hs]: [hs] lists the holder of [l], then the holder
    of the lock that thread is waiting for, and so on. *)
Fixpoint ownership_chain (st : state) (l : lid) (hs : list tid) : Prop :=
  match hs with
  | [] => True
  | h :: rest =>
      holder (lockmap st l) = Some h
      /\ match rest with
         | [] => True
         | _ :: _ =>
             exists l', waiting_for_lock (threads st h) = Some l'
                        /\ ownership_chain st l' rest
         end
  end.

(** What the donation walk has done when it is started at the head of the
    chain [hs] with [lock_iter = iter]: only the first LOCK_LEVEL - iter + 1
    holders can have been touched, and each of them that the walk reached
    through holders of lower priority than the caller's now has the
    caller's priority. *)
Definition walk_result (LOCK_LEVEL : Z) (cur : tid) (st st' : state)
    (hs : list tid) (iter : Z) : Prop :=
  (forall t, ~ In t (firstn (S (Z.to_nat (LOCK_LEVEL - iter))) hs) ->
             threads st' t = threads st t)
  /\ (forall i h,
        nth_error hs i = Some h ->
        (i <= Z.to_nat (LOCK_LEVEL - iter))%nat ->
        (forall j h', (j <= i)%nat -> nth_error hs j = Some h' ->
                      priority (threads st h') < priority (threads st cur)) ->
        priority (threads st' h) = priority (threads st cur)
        /\ is_donated (threads st' h) = true).

(** ** Concrete runs *)

(** Threads 0..5 with base priorities 5, 10, 20, 30, 15, 25. *)
Definition six_threads : state :=
  boot (fun t => nth t [5; 10; 20; 30; 15; 25] 31).

(** The state a script leaves when it is run on [six_threads] with
    LOCK_LEVEL 8, PRIORITY_FAKE -1 and donation enabled, and whether every
    call of it passed its assertions. *)
Definition completes (cs : list call) : bool :=
  match run_calls 8 (-1) false six_threads cs with
  | Some _ => true
  | None => false
  end.

Definition state_after (cs : list call) : state :=
  match run_calls 8 (-1) false six_threads cs with
  | Some st => st
  | None => six_threads
  end.

(** Thread 1 takes lock 0 and then blocks on semaphore 0, thread 2 blocks on
    the same semaphore, and thread 3 asks for lock 0, which donates its
    priority to thread 1 while thread 1 sits in the semaphore's queue. *)
Definition donation_to_queued_thread : list call :=
  [CallLockInit 0%nat; CallLockAcquire 1%nat 0%nat;
   CallSemaDown 1%nat 0%nat; CallSemaDown 2%nat 0%nat;
   CallLockAcquire 3%nat 0%nat].

(** Thread 0 takes locks 1, 2 and 3 in that order, thread 3 asks for lock 1
    and donates, then thread 0 releases lock 3. *)
Definition release_inner_lock : list call :=
  [CallLockInit 1%nat; CallLockInit 2%nat; CallLockInit 3%nat;
   CallLockAcquire 0%nat 1%nat; CallLockAcquire 0%nat 2%nat;
   CallLockAcquire 0%nat 3%nat;
   CallLockAcquire 3%nat 1%nat;
   CallLockRelease 0%nat 3%nat].

(** Threads 2, 1 and 0 hold locks 0, 1 and 2; thread 2 waits for lock 1 and
    thread 1 waits for lock 2. *)
Definition three_deep_chain : state :=
  state_after
    [CallLockInit 0%nat; CallLockInit 1%nat; CallLockInit 2%nat;
     CallLockAcquire 0%nat 2%nat;
     CallLockAcquire 1%nat 1%nat; CallLockAcquire 1%nat 2%nat;
     CallLockAcquire 2%nat 0%nat; CallLockAcquire 2%nat 1%nat].

(** Thread 0 takes a fresh lock with [lock_try_acquire]. *)
Definition try_acquire_fresh_lock : list call :=
  [CallLockInit 0%nat; CallLockTryAcquire 0%nat 0%nat].

(** ** Histories of a condition variable *)

(** The states that the code can bring condition variable [c] into, from
    its [cond_init].  A wait-record is a local variable of [cond_wait], so
    the record of a new wait is not one that is queued already.  The last
    rule stands for the operations that write neither a condition variable
    nor a wait-record: those on threads, semaphores and locks. *)
Inductive cond_reach (c : cid) : state -> Prop :=
| reach_cond_init : forall st,
    cond_reach c (cond_init st c)
| reach_cond_init_other : forall st c',
    cond_reach c st -> c' <> c ->
    cond_reach c (cond_init st c')
| reach_cond_wait : forall st cur c' l waiter st',
    cond_reach c st ->
    ~ In waiter (c_waiters (conds st c)) ->
    cond_wait_enqueue st cur c' l waiter = Some st' ->
    cond_reach c st'
| reach_waiter_down : forall st cur waiter,
    cond_reach c st ->
    cond_reach c (fst (elem_sema_down_pass st cur waiter))
| reach_cond_signal : forall st cur c' l st' y,
    cond_reach c st ->
    cond_signal st cur c' l = Some (st', y) ->
    cond_reach c st'
| reach_lock_op : forall st st',
    cond_reach c st ->
    conds st' = conds st ->
    elems st' = elems st ->
    cond_reach c st'.

(** Wait-records nearer the front carry a snapshot at least as high. *)
Definition snapshot_descending (st : state) (q : list eid) : Prop :=
  StronglySorted
    (fun a b => highest_priority (elems st a) >= highest_priority (elems st b))
    q.

(** What the other threads can do while the caller of [cond_wait], whose
    wait-record is [w], is between its [lock_release] and its suspension:
    signal, start a wait with a record of their own, block on a record of
    their own, and operate on threads, semaphores and locks. *)
Inductive other_step (w : eid) : state -> state -> Prop :=
| other_signal : forall st t c l st' y,
    cond_signal st t c l = Some (st', y) ->
    other_step w st st'
| other_wait : forall st t c l w' st',
    w' <> w ->
    cond_wait_enqueue st t c l w' = Some st' ->
    other_step w st st'
| other_down : forall st t w',
    w' <> w ->
    other_step w st (fst (elem_sema_down_pass st t w'))
| other_lock_op : forall st st',
    conds st' = conds st ->
    elems st' = elems st ->
    other_step w st st'.

Inductive other_steps (w : eid) : state -> state -> Prop :=
| other_steps_refl : forall st, other_steps w st st
| other_steps_step : forall st st' st'',
    other_steps w st st' -> other_step w st' st'' -> other_steps w st st''.

(** The wait-record [w] of a waiter on [c] is either queued on [c], once,
    with its semaphore at 0, or it has been taken off the queue by a signal
    that has left its semaphore at 1. *)
Definition wakeup_pending (c : cid) (w : eid) (st : state) : Prop :=
  (count_occ Nat.eq_dec (c_waiters (conds st c)) w = 1%nat
   /\ (forall c', c' <> c -> ~ In w (c_waiters (conds st c')))
   /\ value (e_semaphore (elems st w)) = 0)
  \/ ((forall c', ~ In w (c_waiters (conds st c')))
      /\ value (e_semaphore (elems st w)) = 1).

(** Thread 3 holds lock 0 and condition variable 0 is initialised. *)
Definition monitor_entered : state :=
  cond_init (state_after [CallLockInit 0%nat; CallLockAcquire 3%nat 0%nat])
            0%nat.

(** ** Wake-all against wake-one *)

(** Modelled from the spec: the scheduler (threads/thread.c) is absent.
    Among the threads that an up has made ready, the one with the
    numerically highest priority is the first candidate to retry (the
    earliest listed one, should several share it). *)
Fixpoint first_candidate (ths : tid -> thread) (ready : list tid)
  : option tid :=
  match ready with
  | [] => None
  | t :: rest =>
      match first_candidate ths rest with
      | None => Some t
      | Some u =>
          if priority (ths u) >? priority (ths t) then Some u else Some t
      end
  end.

(** The threads that [sema_up] has made ready re-run the loop of
    [sema_down] one after the other, in the scheduler's order.  The log
    lists who ran and how its trip ended. *)
Fixpoint retry_all (fuel : nat) (ths : tid -> thread) (sema : semaphore)
    (ready : list tid)
  : (tid -> thread) * semaphore * list (tid * down_result) :=
  match fuel with
  | O => (ths, sema, [])
  | S fuel' =>
      match first_candidate ths ready with
      | None => (ths, sema, [])
      | Some t =>
          let '(ths1, sema1, r) := sema_down_pass ths t sema in
          let '(ths2, sema2, log) :=
            retry_all fuel' ths1 sema1 (list_remove t ready) in
          (ths2, sema2, (t, r) :: log)
      end
  end.

(** Every thread of [q] goes through [thread_block]. *)
Definition block_all (q : list tid) (ths : tid -> thread) : tid -> thread :=
  fold_left (fun th t => thread_block t th) q ths.


(** [sema_up] followed by the retries of every thread it woke. *)
Definition sema_up_then_retries (ths : tid -> thread) (cur : tid)
    (sema : semaphore)
  : (tid -> thread) * semaphore * list (tid * down_result) * bool :=
  let '(ths1, sema1, yield) := sema_up ths cur sema in
  let '(ths2, sema2, log) :=
    retry_all (length (waiters sema)) ths1 sema1 (waiters sema) in
  (ths2, sema2, log, yield).

(** The policy the spec compares [sema_up] with, in the spec's words: wake
    the single highest-priority waiter, which is the one at the front of
    the queue, and leave the others queued. *)
Definition sema_up_wake_one (ths : tid -> thread) (cur : tid)
    (sema : semaphore) : (tid -> thread) * semaphore * bool :=
  match list_pop_front (waiters sema) with
  | None => (ths, mkSema (wrap32 (value sema + 1)) [], false)
  | Some (w, rest) =>
      let ths' := thread_unblock w ths in
      (ths', mkSema (wrap32 (value sema + 1)) rest,
       (priority (ths' w) >? priority (ths' cur))
       && thread_status_eqb (status (ths' w)) THREAD_READY)
  end.

(** Wake-one followed by the retry of the one thread it woke. *)
Definition wake_one_then_retry (ths : tid -> thread) (cur : tid)
    (sema : semaphore)
  : (tid -> thread) * semaphore * list (tid * down_result) * bool :=
  let '(ths1, sema1, yield) := sema_up_wake_one ths cur sema in
  let '(ths2, sema2, log) :=
    retry_all 1 ths1 sema1 (firstn 1 (waiters sema)) in
  (ths2, sema2, log, yield).

(** Strictly falling priorities from the front of a queue to its back. *)
Definition priority_strictly_descending (ths : tid -> thread) (q : list tid)
  : Prop :=
  StronglySorted (fun a b => priority (ths a) > priority (ths b)) q.

(** Threads 3 and 2 have called [sema_down] on semaphore 0, whose value
    is 0, and are blocked in its queue. *)
Definition two_waiters : state :=
  state_after [CallSemaDown 3%nat 0%nat; CallSemaDown 2%nat 0%nat].

(** ** The rest of the condition variable *)

(** [cond_wait] from its entry to the end of the first trip through
    [sema_down (&waiter.semaphore)].  The caller is not alone on the way.
    When the [sema_up] inside [lock_release] yields, the other threads run
    before the caller finishes [lock_release]: [others_at_yield].  And
    interrupts are on between the return of [lock_release] and [sema_down],
    so that the other threads can run there as well: [others_before_down].
    [None] is a failed ASSERT. *)
Definition cond_wait (PRIORITY_FAKE : Z) (thread_mlfqs : bool)
    (others_at_yield others_before_down : state -> state) (st : state)
    (cur : tid) (c : cid) (l : lid) (waiter : eid)
  : option (state * down_result) :=
  match cond_wait_release PRIORITY_FAKE thread_mlfqs st cur c l waiter with
  | None => None
  | Some (st2, yield) =>
      let st3 :=
        if yield
        then lock_release_restore PRIORITY_FAKE thread_mlfqs
               (others_at_yield st2) cur l
        else st2 in
      Some (elem_sema_down_pass (others_before_down st3) cur waiter)
  end.

(** What a thread runs when it is resumed inside [cond_wait]: the loop of
    [sema_down (&waiter.semaphore)] again and, once through, [lock_acquire]. *)
Definition cond_wait_resume (LOCK_LEVEL : Z) (thread_mlfqs : bool)
    (st : state) (cur : tid) (l : lid) (waiter : eid)
  : option (state * down_result) :=
  match elem_sema_down_pass st cur waiter with
  | (st1, Passed) => lock_acquire LOCK_LEVEL thread_mlfqs st1 cur l
  | (st1, Blocked) => Some (st1, Blocked)
  end.

(** The loop of [cond_broadcast]: [cond_signal] while the queue is not
    empty.  A signal can yield, and interrupts are on between two signals:
    [others n] is what the other threads do after the signal number [n] of
    the loop, before the queue is looked at again.  Next to the state the
    loop returns the records that were at the front of the queue when it
    signalled, in the order of the signals.  [None] is a failed ASSERT of
    [cond_signal], or [fuel] used up. *)
Fixpoint cond_broadcast_loop (fuel : nat) (others : nat -> state -> state)
    (st : state) (cur : tid) (c : cid) (l : lid)
  : option (state * list eid) :=
  if list_empty (c_waiters (conds st c)) then Some (st, [])
  else
    match fuel with
    | O => None
    | S fuel' =>
        match cond_signal st cur c l with
        | None => None
        | Some (st', _) =>
            match cond_broadcast_loop fuel' (fun n => others (S n))
                    (others O st') cur c l with
            | None => None
            | Some (st'', signalled) =>
                Some (st'', firstn 1 (c_waiters (conds st c)) ++ signalled)
            end
        end
    end.

Definition cond_broadcast (others : nat -> state -> state) (st : state)
    (cur : tid) (c : cid) (l : lid) : option (state * list eid) :=
  cond_broadcast_loop (length (c_waiters (conds st c))) others st cur c l.

(** The other threads keep to the monitor while [cur] holds [l]: they leave
    the queue of [c] as it is, which only a holder of [l] may change, and
    they leave [cur] the holder of [l]. *)
Definition keeps_monitor (cur : tid) (c : cid) (l : lid)
    (f : state -> state) : Prop :=
  forall st,
    lock_held_by_current_thread st cur l = true ->
    c_waiters (conds (f st) c) = c_waiters (conds st c)
    /\ lock_held_by_current_thread (f st) cur l = true.

(** ** Well-formed locks *)

(** A lock is free with its semaphore at 1, or held with it at 0. *)
Definition lock_free_or_held (lk : lock) : Prop :=
  (holder lk = None /\ value (l_semaphore lk) = 1)
  \/ (exists h, holder lk = Some h /\ value (l_semaphore lk) = 0).

(** Every lock is free or held, a lock is in a thread's list of locks
    exactly when that thread holds it, and no list repeats a lock. *)
Definition locks_consistent (st : state) : Prop :=
  (forall l, lock_free_or_held (lockmap st l))
  /\ (forall l t, In l (locks (threads st t))
                  <-> holder (lockmap st l) = Some t)
  /\ (forall t, NoDup (locks (threads st t))).

(** The record of a thread that a donation has raised to priority [p]. *)
Definition donated_to (p : Z) (th : thread) : thread :=
  set_is_donated true (set_priority p th).

(** A machine like [boot] whose locks have all been through [lock_init]
    with PRIORITY_FAKE = -1. *)
Definition locks_initialised (prio : tid -> Z) : state :=
  mkState (threads (boot prio)) (semas (boot prio))
          (fun _ => mkLock None (sema_init 1) (-1))
          (elems (boot prio)) (conds (boot prio)) false.

(** Threads 0..5 of [six_threads] over initialised locks. *)
Definition six_threads_locks : state :=
  locks_initialised (fun t => nth t [5; 10; 20; 30; 15; 25] 31).

(** What a donation by [cur] may have changed between [st] and [st']:
    threads and ceilings below the caller's priority may have been raised
    to it, and nothing else. *)
Definition donation_effect (cur : tid) (st st' : state) : Prop :=
  semas st' = semas st
  /\ elems st' = elems st
  /\ conds st' = conds st
  /\ (forall l,
        holder (lockmap st' l) = holder (lockmap st l)
        /\ l_semaphore (lockmap st' l) = l_semaphore (lockmap st l)
        /\ (priority_lock (lockmap st' l) = priority_lock (lockmap st l)
            \/ (priority_lock (lockmap st l) < priority (threads st cur)
                /\ priority_lock (lockmap st' l)
                   = priority (threads st cur))))
  /\ (forall t,
        threads st' t = threads st t
        \/ (priority (threads st t) < priority (threads st cur)
            /\ threads st' t
               = donated_to (priority (threads st cur)) (threads st t))).

(** Thread 1 holds lock 0; every other thread is free to ask for it. *)
Definition lock_held_by_one : state :=
  state_after [CallLockInit 0%nat; CallLockAcquire 1%nat 0%nat].

(** The fields of a thread other than its scheduling state. *)
Definition same_but_status (a b : thread) : Prop :=
  priority a = priority b
  /\ priority_original a = priority_original b
  /\ is_donated a = is_donated b
  /\ waiting_for_lock a = waiting_for_lock b
  /\ locks a = locks b.

(** Thread 3 has called [cond_wait] on condition variable 0 with record 7
    and is blocked, no other thread having run meanwhile; thread 2 has then
    taken lock 0. *)
Definition waiter_blocked : state :=
  match cond_wait (-1) false (fun st => st) (fun st => st) monitor_entered
          3%nat 0%nat 0%nat 7%nat with
  | Some (st, _) =>
      match lock_acquire 8 false st 2%nat 0%nat with
      | Some (st', _) => st'
      | None => st
      end
  | None => monitor_entered
  end.

(** Thread 2 has then called [cond_wait] with record 8 and is blocked as
    well, and thread 1 has taken lock 0: records 7 and 8 are queued on
    condition variable 0, with threads 3 and 2 blocked on them. *)
Definition two_records_waiting : state :=
  match cond_wait (-1) false (fun st => st) (fun st => st) waiter_blocked
          2%nat 0%nat 0%nat 8%nat with
  | Some (st, _) =>
      match lock_acquire 8 false st 1%nat 0%nat with
      | Some (st', _) => st'
      | None => st
      end
  | None => waiter_blocked
  end.

(** Thread [t], woken from its wait-record [w] on lock 0, runs inside
    [cond_wait] until it blocks again. *)
Definition waiter_runs (t : tid) (w : eid) (st : state) : state :=
  match cond_wait_resume 8 false st t 0%nat w with
  | Some (st', Blocked) => st'
  | _ => st
  end.


(** The state a script leaves when it is run on [six_threads_locks] with
    LOCK_LEVEL 8, PRIORITY_FAKE -1 and donation enabled. *)
Definition state_after_init (cs : list call) : state :=
  match run_calls 8 (-1) false six_threads_locks cs with
  | Some st => st
  | None => six_threads_locks
  end.

(** Thread 0 takes locks 1, 2 and 3, thread 3 asks for lock 1 and blocks,
    and thread 0 releases lock 3, which takes it back to its base priority
    5 while thread 3, of priority 30, waits for lock 1. *)
Definition waiter_above_holder : list call :=
  [CallLockAcquire 0%nat 1%nat; CallLockAcquire 0%nat 2%nat;
   CallLockAcquire 0%nat 3%nat; CallLockAcquire 3%nat 1%nat;
   CallLockRelease 0%nat 3%nat].

(** What the bookkeeping of [lock_release] does between [st] and [st'] when
    the lock [l] is in the caller's list and in no other: the ceiling of
    [l] is reset, [l] leaves the list, and the caller's priority is set from
    the lock at the front of what is left of its list. *)
Definition release_bookkeeping (PRIORITY_FAKE : Z) (curr : tid) (l : lid)
    (st st' : state) : Prop :=
  lockmap st' l = set_priority_lock PRIORITY_FAKE (lockmap st l)
  /\ (forall l', l' <> l -> lockmap st' l' = lockmap st l')
  /\ (forall t, locks (threads st' t) = list_remove l (locks (threads st t)))
  /\ (forall t, t <> curr ->
                priority (threads st' t) = priority (threads st t)
                /\ is_donated (threads st' t) = is_donated (threads st t))
  /\ (forall t, status (threads st' t) = status (threads st t)
                /\ priority_original (threads st' t)
                   = priority_original (threads st t)
                /\ waiting_for_lock (threads st' t)
                   = waiting_for_lock (threads st t))
  /\ match list_remove l (locks (threads st curr)) with
     | [] =>
         priority (threads st' curr) = priority_original (threads st curr)
         /\ is_donated (threads st' curr) = false
     | lock_first :: _ =>
         if priority_lock (lockmap st' lock_first) =? PRIORITY_FAKE
         then priority (threads st' curr)
              = priority_original (threads st curr)
              /\ is_donated (threads st' curr) = is_donated (threads st curr)
         else priority (threads st' curr)
              = priority_lock (lockmap st' lock_first)
              /\ is_donated (threads st' curr) = true
     end
  /\ semas st' = semas st /\ elems st' = elems st /\ conds st' = conds st
  /\ list_fault st' = list_fault st.

(** After the first signal of a broadcast on [two_records_waiting] the
    woken thread 3 runs until it blocks again, after the second one the
    woken thread 2. *)
Definition woken_waiters_run (n : nat) : state -> state :=
  match n with
  | O => waiter_runs 3%nat 7%nat
  | S _ => waiter_runs 2%nat 8%nat
  end.

(** * Properties *)

(** ** Stores and list utility *)

Lemma update_eq {A : Type} (m : nat -> A) k v : update m k v k = v.
Proof. unfold update. now rewrite Nat.eqb_refl. Qed.

Lemma update_neq {A : Type} (m : nat -> A) k v x :
  x <> k -> update m k v x = m x.
Proof.
  intros Hne. unfold update.
  destruct (Nat.eqb_spec x k); [contradiction | reflexivity].
Qed.

Lemma wrap32_small z : 0 <= z <= UINT_MAX -> wrap32 z = z.
Proof. unfold wrap32, UINT_MAX. intros H. apply Z.mod_small. lia. Qed.

Lemma wrap32_range z : 0 <= wrap32 z <= UINT_MAX.
Proof.
  unfold wrap32, UINT_MAX.
  pose proof (Z.mod_pos_bound z 4294967296 ltac:(lia)). lia.
Qed.

Lemma list_pop_back_snoc {A : Type} (l : list A) (x : A) :
  list_pop_back (l ++ [x]) = Some (x, l).
Proof.
  unfold list_pop_back. rewrite rev_app_distr. simpl.
  now rewrite rev_involutive.
Qed.

Lemma list_pop_back_nil {A : Type} : @list_pop_back A [] = None.
Proof. reflexivity. Qed.

(** ** Semaphores *)

Lemma thread_unblock_priority t ths x :
  priority (thread_unblock t ths x) = priority (ths x).
Proof.
  unfold thread_unblock, update.
  destruct (Nat.eqb_spec x t); subst; reflexivity.
Qed.

Lemma thread_unblock_status_other t ths x :
  x <> t -> thread_unblock t ths x = ths x.
Proof. intros H. unfold thread_unblock. now apply update_neq. Qed.

(** The drain loop, run with enough fuel, empties the queue, unblocks the
    queued threads from the back to the front and leaves the front thread
    in [waiting_thread]. *)
Lemma sema_up_drain_spec : forall ws fuel ths wt,
  (length ws <= fuel)%nat ->
  sema_up_drain fuel ths ws wt =
  (fold_right thread_unblock ths ws, [],
   match ws with [] => wt | w :: _ => Some w end).
Proof.
  intros ws. induction ws as [| x ws IH] using rev_ind; intros fuel ths wt Hf.
  - destruct fuel; reflexivity.
  - rewrite length_app in Hf. simpl in Hf.
    destruct fuel as [| fuel]; [lia |].
    simpl. rewrite list_pop_back_snoc.
    rewrite IH by lia. rewrite fold_right_app. simpl.
    destruct ws; reflexivity.
Qed.

Lemma fold_unblock_priority ws ths x :
  priority (fold_right thread_unblock ths ws x) = priority (ths x).
Proof.
  induction ws as [| w ws IH]; simpl; [reflexivity |].
  now rewrite thread_unblock_priority.
Qed.

Lemma fold_unblock_in ws ths x :
  In x ws -> status (fold_right thread_unblock ths ws x) = THREAD_READY.
Proof.
  induction ws as [| w ws IH]; simpl; [contradiction |].
  intros Hin. unfold thread_unblock at 1. unfold update.
  destruct (Nat.eqb_spec x w); [reflexivity |].
  destruct Hin as [-> | Hin]; [contradiction | now apply IH].
Qed.

Lemma fold_unblock_notin ws ths x :
  ~ In x ws -> fold_right thread_unblock ths ws x = ths x.
Proof.
  induction ws as [| w ws IH]; simpl; [reflexivity |].
  intros Hn. rewrite thread_unblock_status_other by intuition congruence.
  apply IH. tauto.
Qed.

Lemma fold_unblock_in_record ws ths x :
  In x ws ->
  fold_right thread_unblock ths ws x = set_status THREAD_READY (ths x).
Proof.
  induction ws as [| w ws IH]; intros Hin; [contradiction |].
  cbn. unfold thread_unblock at 1. unfold update.
  destruct (Nat.eqb_spec x w) as [-> | Hne].
  - destruct (in_dec Nat.eq_dec w ws) as [Hq | Hq].
    + rewrite IH by assumption. reflexivity.
    + now rewrite fold_unblock_notin.
  - destruct Hin as [-> | Hin]; [contradiction | now apply IH].
Qed.

Lemma sema_up_unfold ths cur sema :
  sema_up ths cur sema =
  (fold_right thread_unblock ths (waiters sema),
   mkSema (wrap32 (value sema + 1)) [],
   match waiters sema with
   | [] => false
   | w :: _ =>
       (priority (ths w) >? priority (ths cur))
       && thread_status_eqb
            (status (fold_right thread_unblock ths (waiters sema) w))
            THREAD_READY
   end).
Proof.
  unfold sema_up. rewrite sema_up_drain_spec by lia.
  destruct (waiters sema) as [| w ws] eqn:E; [reflexivity |].
  now rewrite !fold_unblock_priority.
Qed.

(** The thread that decides the preemption in [sema_up] is the one at the
    front of the queue. *)
Lemma sema_up_yield_front ths cur w ws v :
  snd (sema_up ths cur (mkSema v (w :: ws))) =
  (priority (ths w) >? priority (ths cur)).
Proof.
  rewrite sema_up_unfold. cbn [snd waiters].
  rewrite fold_unblock_in by (left; reflexivity).
  cbn. now rewrite andb_true_r.
Qed.

(** The yield of [sema_up], read off the queue it drains: it yields when
    the thread at the front of the queue has a priority above the
    caller's. *)
Lemma sema_up_yields ths cur sema :
  snd (sema_up ths cur sema)
  = match waiters sema with
    | [] => false
    | t :: _ => priority (ths t) >? priority (ths cur)
    end.
Proof.
  destruct (waiters sema) as [| t rest] eqn:Ew.
  - rewrite sema_up_unfold, Ew. reflexivity.
  - destruct sema as [v ws]. cbn in Ew. subst ws.
    apply sema_up_yield_front.
Qed.

Lemma priority_descending_front ths w ws t :
  priority_descending ths (w :: ws) -> In t (w :: ws) ->
  priority (ths t) <= priority (ths w).
Proof.
  intros Hs [<- | Hin]; [lia |].
  apply StronglySorted_inv in Hs. destruct Hs as [_ Hall].
  rewrite Forall_forall in Hall. specialize (Hall _ Hin). lia.
Qed.

(** C2, amended.  One [sema_up] empties the queue, marks every queued thread
    ready and touches no other thread; it increments [value] by one modulo
    2^32, which is exactly one whenever [value] is below UINT_MAX.  With an
    empty queue it changes nothing else and does not yield.  With a queue
    that is ordered descending by the current priorities it yields exactly
    when the highest-priority drained thread has a priority strictly above
    the caller's and is ready. *)
Theorem sema_up_drains_and_preempts :
  forall ths cur sema,
    let ths' := fst (fst (sema_up ths cur sema)) in
    let sema' := snd (fst (sema_up ths cur sema)) in
    let yield := snd (sema_up ths cur sema) in
    waiters sema' = []
    /\ value sema' = wrap32 (value sema + 1)
    /\ (0 <= value sema < UINT_MAX -> value sema' = value sema + 1)
    /\ (forall t, In t (waiters sema) -> status (ths' t) = THREAD_READY)
    /\ (forall t, ~ In t (waiters sema) -> ths' t = ths t)
    /\ (forall t, priority (ths' t) = priority (ths t))
    /\ (waiters sema = [] -> ths' = ths /\ yield = false)
    /\ (waiters sema <> [] ->
        priority_descending ths (waiters sema) ->
        (yield = true <->
         exists w,
           In w (waiters sema)
           /\ (forall t, In t (waiters sema) ->
                         priority (ths t) <= priority (ths w))
           /\ priority (ths' w) > priority (ths' cur)
           /\ status (ths' w) = THREAD_READY)).
Proof.
  intros ths cur sema. cbv zeta. rewrite sema_up_unfold. cbn [fst snd].
  split; [reflexivity |]. split; [reflexivity |].
  split.
  { intros Hv. cbn [value]. apply wrap32_small. unfold UINT_MAX in *. lia. }
  split; [intros t Hin; now apply fold_unblock_in |].
  split; [intros t Hn; now apply fold_unblock_notin |].
  split; [intros t; apply fold_unblock_priority |].
  split; [intros E; rewrite E; split; reflexivity |].
  intros Hne Hsorted.
  destruct (waiters sema) as [| w0 ws] eqn:E; [contradiction |].
  rewrite fold_unblock_in by (left; reflexivity).
  cbn [thread_status_eqb]. rewrite andb_true_r.
  split.
  - intros Hy. exists w0. rewrite !fold_unblock_priority.
    split; [now left |].
    split; [intros t Hin; eapply priority_descending_front; eauto |].
    split; [apply Z.gtb_lt in Hy; lia |].
    apply fold_unblock_in. now left.
  - intros (w & Hin & Hmax & Hgt & Hst).
    rewrite !fold_unblock_priority in Hgt.
    pose proof (priority_descending_front ths w0 ws w Hsorted Hin).
    apply Z.gtb_lt. lia.
Qed.

(** *** Accounting of one semaphore's value *)

Lemma wrap32_succ x : wrap32 (wrap32 x + 1) = wrap32 (x + 1).
Proof. unfold wrap32. now rewrite Z.add_mod_idemp_l by lia. Qed.

Lemma wrap32_pred x : wrap32 (wrap32 x - 1) = wrap32 (x - 1).
Proof. unfold wrap32. now rewrite Zminus_mod_idemp_l. Qed.

Lemma accounted_decrement v r ths' q :
  accounted v r -> value (run_sema r) <> 0 ->
  accounted v (mkRun ths' (mkSema (wrap32 (value (run_sema r) - 1)) q)
                 (completed_ups r) (completed_downs r + 1)).
Proof.
  intros (Hr & Hu & Hd & Hm & He) Hnz. unfold accounted. cbn.
  rewrite (wrap32_small (value (run_sema r) - 1)) by lia.
  split; [lia |]. split; [lia |]. split; [lia |]. split.
  - rewrite Hm at 1. rewrite <- (wrap32_small (wrap32 _ - 1)).
    + rewrite wrap32_pred. f_equal. lia.
    + rewrite <- Hm. lia.
  - intros Hb. specialize (He Hb). lia.
Qed.

Lemma accounted_apply v r op : accounted v r -> accounted v (sema_apply r op).
Proof.
  intros Hacc. destruct op as [t | | t]; cbn [sema_apply].
  - unfold sema_down_pass.
    destruct (Z.eqb_spec (value (run_sema r)) 0) as [Hz | Hnz].
    + destruct Hacc as (Hr & Hu & Hd & Hm & He).
      unfold accounted. cbn. repeat split; try lia; tauto.
    + now apply accounted_decrement.
  - unfold sema_try_down.
    destruct (Z.gtb_spec (value (run_sema r)) 0) as [Hpos | Hle].
    + apply accounted_decrement; [assumption | lia].
    + destruct Hacc as (Hr & Hu & Hd & Hm & He).
      unfold accounted. cbn. repeat split; try lia; tauto.
  - rewrite sema_up_unfold.
    destruct Hacc as (Hr & Hu & Hd & Hm & He).
    unfold accounted. cbn.
    pose proof (wrap32_range (value (run_sema r) + 1)).
    split; [lia |]. split; [lia |]. split; [lia |]. split.
    + rewrite Hm at 1. rewrite wrap32_succ. f_equal. lia.
    + intros Hb. rewrite wrap32_small; rewrite He by lia; lia.
Qed.

Lemma accounted_exec v ops : forall r,
  accounted v r -> accounted v (sema_exec ops r).
Proof.
  induction ops as [| op ops IH]; intros r Hacc; cbn; [assumption |].
  apply IH. now apply accounted_apply.
Qed.

(** C6, amended.  From [sema_init] with a value that fits the counter, after
    every sequence of calls: the value stays within 0..UINT_MAX, it equals
    initial + completed ups - completed downs modulo 2^32, and it equals
    that number itself whenever initial + completed ups does not exceed
    UINT_MAX. *)
Theorem sema_value_accounting :
  forall ths v ops,
    0 <= v <= UINT_MAX ->
    let r := sema_exec ops (sema_start ths v) in
    0 <= value (run_sema r) <= UINT_MAX
    /\ value (run_sema r) = wrap32 (v + completed_ups r - completed_downs r)
    /\ (v + completed_ups r <= UINT_MAX ->
        value (run_sema r) = v + completed_ups r - completed_downs r).
Proof.
  intros ths v ops Hv r.
  assert (Hacc : accounted v r).
  { apply accounted_exec. unfold accounted, sema_start. cbn.
    rewrite Z.add_0_r, Z.sub_0_r. rewrite wrap32_small by assumption.
    repeat split; lia. }
  destruct Hacc as (Hr & _ & _ & Hm & He). auto.
Qed.

Lemma sema_value_accounting_witness :
  let r := sema_exec [OpDown 1%nat; OpDown 2%nat; OpUp 1%nat; OpDown 2%nat]
             (sema_start (threads (boot (fun _ => 31))) 1) in
  0 <= value (run_sema r) <= UINT_MAX
  /\ value (run_sema r) = wrap32 (1 + completed_ups r - completed_downs r)
  /\ (1 + completed_ups r <= UINT_MAX ->
      value (run_sema r) = 1 + completed_ups r - completed_downs r).
Proof.
  apply (sema_value_accounting (threads (boot (fun _ => 31))) 1
           [OpDown 1%nat; OpDown 2%nat; OpUp 1%nat; OpDown 2%nat]).
  unfold UINT_MAX. lia.
Defined.

(** C6 as stated fails where the counter wraps: one up on a semaphore
    initialised to UINT_MAX leaves 0, not UINT_MAX + 1. *)
Lemma sema_value_accounting_overflow :
  let r := sema_exec [OpUp 0%nat]
             (sema_start (threads (boot (fun _ => 31))) UINT_MAX) in
  0 <= UINT_MAX
  /\ value (run_sema r) = 0
  /\ value (run_sema r)
     <> UINT_MAX + completed_ups r - completed_downs r.
Proof. cbv zeta. vm_compute. repeat split; discriminate. Qed.

(** ** Concrete runs of the lock and semaphore code *)

(** C1 at a failing input.  Thread 1 (priority 10) and thread 2 (priority 20)
    are queued on semaphore 0 in the order 2, 1; a donation through lock 0
    then raises queued thread 1 to 30.  When thread 4 (priority 15) calls
    [sema_down], it is placed behind thread 1: the queue 2, 1, 4 is ordered
    neither by the priorities at enqueue time (20, 10, 15) nor by the
    current ones (20, 30, 15). *)
Theorem sema_down_enqueue_unordered :
  let st1 := state_after (firstn 2 donation_to_queued_thread) in
  let st2 := state_after (firstn 3 donation_to_queued_thread) in
  let st3 := state_after donation_to_queued_thread in
  let st4 := fst (sema_down_at st3 4%nat 0%nat) in
  completes donation_to_queued_thread = true
  /\ (priority (threads st1 1%nat) = 10
      /\ snd (sema_down_at st1 1%nat 0%nat) = Blocked)
  /\ (priority (threads st2 2%nat) = 20
      /\ snd (sema_down_at st2 2%nat 0%nat) = Blocked)
  /\ (waiters (semas st3 0%nat) = [2%nat; 1%nat]
      /\ priorities_of st3 [2%nat; 1%nat] = [20; 30])
  /\ (value (semas st3 0%nat) = 0
      /\ priority (threads st3 4%nat) = 15
      /\ snd (sema_down_at st3 4%nat 0%nat) = Blocked)
  /\ waiters (semas st4 0%nat) = [2%nat; 1%nat; 4%nat]
  /\ priorities_of st4 [2%nat; 1%nat; 4%nat] = [20; 30; 15]
  /\ ~ priority_descending (threads st4) [2%nat; 1%nat; 4%nat].
Proof.
  cbv zeta.
  split; [vm_compute; reflexivity |].
  split; [split; vm_compute; reflexivity |].
  split; [split; vm_compute; reflexivity |].
  split; [split; vm_compute; reflexivity |].
  split; [split; [| split]; vm_compute; reflexivity |].
  split; [vm_compute; reflexivity |].
  split; [vm_compute; reflexivity |].
  intros Hs. apply StronglySorted_inv in Hs. destruct Hs as [_ Hall].
  apply Forall_inv in Hall. vm_compute in Hall. apply Hall. reflexivity.
Qed.

(** C2 as stated fails in two places.  The counter wraps: an up at UINT_MAX
    leaves 0.  And the thread that decides the preemption is the one at the
    front of the queue: after the donation to queued thread 1, the queue of
    semaphore 0 is 2, 1 with priorities 20, 30, and an up by thread 5
    (priority 25) does not yield although drained thread 1 is ready with
    priority 30. *)
Lemma sema_up_not_as_stated :
  (let sema := mkSema UINT_MAX [] in
   value (snd (fst (sema_up (threads six_threads) 0%nat sema))) = 0
   /\ value (snd (fst (sema_up (threads six_threads) 0%nat sema)))
      <> value sema + 1)
  /\ (let st := state_after donation_to_queued_thread in
      let st' := fst (sema_up_at st 5%nat 0%nat) in
      completes donation_to_queued_thread = true
      /\ waiters (semas st 0%nat) = [2%nat; 1%nat]
      /\ snd (sema_up_at st 5%nat 0%nat) = false
      /\ priority (threads st' 1%nat) = 30
      /\ priority (threads st' 5%nat) = 25
      /\ status (threads st' 1%nat) = THREAD_READY).
Proof.
  cbv zeta. split.
  - split; [vm_compute; reflexivity | vm_compute; discriminate].
  - repeat split; vm_compute; reflexivity.
Qed.

Lemma sema_up_drains_and_preempts_witness :
  let ths := threads six_threads in
  let sema := mkSema 0 [3%nat; 2%nat; 1%nat] in
  waiters (snd (fst (sema_up ths 4%nat sema))) = []
  /\ value (snd (fst (sema_up ths 4%nat sema))) = 1
  /\ snd (sema_up ths 4%nat sema) = true.
Proof.
  cbv zeta.
  pose proof (sema_up_drains_and_preempts (threads six_threads) 4%nat
                (mkSema 0 [3%nat; 2%nat; 1%nat])) as H.
  cbv zeta in H.
  destruct H as (Hq & _ & Hv & _ & _ & _ & _ & Hy).
  split; [exact Hq |].
  split; [apply Hv; cbn; unfold UINT_MAX; lia |].
  apply Hy.
  - discriminate.
  - unfold priority_descending. cbn.
    repeat constructor; cbn; lia.
  - exists 3%nat. cbn [waiters].
    split; [now left |].
    split.
    + intros t [<- | [<- | [<- | []]]]; cbn; lia.
    + split; [vm_compute; reflexivity | reflexivity].
Defined.

(** C4 at a failing input.  Thread 0 (base priority 5) holds locks 1, 2 and
    3, taken in that order, so its list of locks is 3, 2, 1.  Thread 3
    (priority 30) asks for lock 1: thread 0 is raised to 30 and the ceiling
    of lock 1 becomes 30.  When thread 0 releases lock 3, the lock at the
    front of the remaining list is lock 2, whose ceiling is PRIORITY_FAKE,
    and thread 0 falls back to its base priority although it still holds
    lock 1 with ceiling 30. *)
Theorem lock_release_uses_front_lock :
  let st0 := state_after (removelast release_inner_lock) in
  let st1 := state_after release_inner_lock in
  completes release_inner_lock = true
  /\ locks (threads st0 0%nat) = [3%nat; 2%nat; 1%nat]
  /\ priority (threads st0 0%nat) = 30
  /\ priority_original (threads st0 0%nat) = 5
  /\ option_map snd (lock_release (-1) false st0 0%nat 3%nat) = Some false
  /\ locks (threads st1 0%nat) = [2%nat; 1%nat]
  /\ map (fun l => priority_lock (lockmap st1 l)) [2%nat; 1%nat] = [-1; 30]
  /\ holder (lockmap st1 1%nat) = Some 0%nat
  /\ waiters (l_semaphore (lockmap st1 1%nat)) = [3%nat]
  /\ priority (threads st1 0%nat) = 5.
Proof.
  cbv zeta. repeat split; vm_compute; reflexivity.
Qed.

(** C5 at a failing input.  After [lock_init] and a successful
    [lock_try_acquire] by thread 0, thread 0 is the holder of lock 0 and
    lock 0 is in no thread's list of locks; after [lock_acquire] on the
    same fresh lock it is in the holder's list. *)
Theorem lock_try_acquire_breaks_held_locks :
  let st := state_after try_acquire_fresh_lock in
  let st' := state_after [CallLockInit 0%nat; CallLockAcquire 0%nat 0%nat] in
  completes try_acquire_fresh_lock = true
  /\ option_map snd
       (lock_try_acquire (lock_init (-1) six_threads 0%nat) 0%nat 0%nat)
     = Some true
  /\ holder (lockmap st 0%nat) = Some 0%nat
  /\ (forall t, locks (threads st t) = [])
  /\ holder (lockmap st' 0%nat) = Some 0%nat
  /\ locks (threads st' 0%nat) = [0%nat].
Proof.
  cbv zeta.
  split; [vm_compute; reflexivity |].
  split; [vm_compute; reflexivity |].
  split; [vm_compute; reflexivity |].
  split; [intros t; reflexivity |].
  split; vm_compute; reflexivity.
Qed.

(** ** Locks *)

Lemma lock_held_by_current_thread_true st cur l :
  lock_held_by_current_thread st cur l = true <->
  holder (lockmap st l) = Some cur.
Proof.
  unfold lock_held_by_current_thread.
  destruct (holder (lockmap st l)) as [h |]; [| split; discriminate].
  destruct (Nat.eqb_spec h cur); split; congruence.
Qed.

Lemma lock_held_by_current_thread_false st cur l :
  lock_held_by_current_thread st cur l = false <->
  holder (lockmap st l) <> Some cur.
Proof.
  rewrite <- lock_held_by_current_thread_true.
  destruct (lock_held_by_current_thread st cur l); split; congruence.
Qed.

(** C10.  [lock_try_acquire] fails its assertion exactly when the caller
    already holds the lock.  Otherwise it succeeds exactly when the lock's
    semaphore is positive.  A success decrements that semaphore (from 1 to 0
    when it was 1) and sets the holder to the caller; the queue and the
    ceiling of the lock, every thread record (priorities, donated flag,
    waiting_for_lock, list of locks), every other lock and every other
    object are unchanged.  A failure returns the state it was given. *)
Theorem lock_try_acquire_frame :
  forall st cur l,
    0 <= value (l_semaphore (lockmap st l)) <= UINT_MAX ->
    (lock_try_acquire st cur l = None <-> holder (lockmap st l) = Some cur)
    /\ (holder (lockmap st l) <> Some cur ->
        exists st' ok,
          lock_try_acquire st cur l = Some (st', ok)
          /\ (ok = true <-> value (l_semaphore (lockmap st l)) > 0)
          /\ (ok = false -> st' = st)
          /\ (ok = true ->
              value (l_semaphore (lockmap st' l))
              = value (l_semaphore (lockmap st l)) - 1
              /\ (value (l_semaphore (lockmap st l)) = 1 ->
                  value (l_semaphore (lockmap st' l)) = 0)
              /\ waiters (l_semaphore (lockmap st' l))
                 = waiters (l_semaphore (lockmap st l))
              /\ holder (lockmap st' l) = Some cur
              /\ priority_lock (lockmap st' l) = priority_lock (lockmap st l)
              /\ threads st' = threads st
              /\ locks (threads st' cur) = locks (threads st cur)
              /\ (forall l', l' <> l -> lockmap st' l' = lockmap st l')
              /\ semas st' = semas st
              /\ elems st' = elems st
              /\ conds st' = conds st)).
Proof.
  intros st cur l Hv. unfold lock_try_acquire, sema_try_down. split.
  - destruct (lock_held_by_current_thread st cur l) eqn:Hh.
    + apply lock_held_by_current_thread_true in Hh. tauto.
    + apply lock_held_by_current_thread_false in Hh.
      destruct (value (l_semaphore (lockmap st l)) >? 0);
        split; intros; congruence.
  - intros Hne. apply lock_held_by_current_thread_false in Hne.
    rewrite Hne.
    destruct (Z.gtb_spec (value (l_semaphore (lockmap st l))) 0) as [Hp | Hz].
    + eexists. exists true. split; [reflexivity |].
      split; [split; [lia | reflexivity] |].
      split; [discriminate |].
      intros _. cbn. rewrite update_eq. cbn.
      rewrite wrap32_small by lia.
      split; [reflexivity |]. split; [lia |].
      split; [reflexivity |]. split; [reflexivity |].
      split; [reflexivity |]. split; [reflexivity |].
      split; [reflexivity |].
      split; [intros l' Hl; now apply update_neq |].
      repeat split; reflexivity.
    + exists st, false. split; [reflexivity |].
      split; [split; [discriminate | lia] |].
      split; [reflexivity | discriminate].
Qed.

Lemma lock_try_acquire_frame_witness :
  let st := lock_init (-1) six_threads 0%nat in
  exists st' ok,
    lock_try_acquire st 0%nat 0%nat = Some (st', ok)
    /\ (ok = true <-> value (l_semaphore (lockmap st 0%nat)) > 0)
    /\ (ok = false -> st' = st)
    /\ (ok = true ->
        value (l_semaphore (lockmap st' 0%nat))
        = value (l_semaphore (lockmap st 0%nat)) - 1
        /\ (value (l_semaphore (lockmap st 0%nat)) = 1 ->
            value (l_semaphore (lockmap st' 0%nat)) = 0)
        /\ waiters (l_semaphore (lockmap st' 0%nat))
           = waiters (l_semaphore (lockmap st 0%nat))
        /\ holder (lockmap st' 0%nat) = Some 0%nat
        /\ priority_lock (lockmap st' 0%nat) = priority_lock (lockmap st 0%nat)
        /\ threads st' = threads st
        /\ locks (threads st' 0%nat) = locks (threads st 0%nat)
        /\ (forall l', l' <> 0%nat -> lockmap st' l' = lockmap st l')
        /\ semas st' = semas st
        /\ elems st' = elems st
        /\ conds st' = conds st).
Proof.
  cbv zeta.
  apply (lock_try_acquire_frame (lock_init (-1) six_threads 0%nat)
           0%nat 0%nat).
  - cbn. unfold UINT_MAX. lia.
  - cbn. discriminate.
Defined.

(** *** The donation walk of [lock_acquire] *)

Lemma ownership_chain_ext st st' : forall hs l,
  (forall l', holder (lockmap st' l') = holder (lockmap st l')) ->
  (forall t, In t hs ->
             waiting_for_lock (threads st' t) = waiting_for_lock (threads st t)) ->
  ownership_chain st l hs -> ownership_chain st' l hs.
Proof.
  induction hs as [| h rest IH]; intros l Hh Hw Hc; [exact I |].
  cbn [ownership_chain] in *. destruct Hc as [Hl Hrest].
  split; [now rewrite Hh |].
  destruct rest as [| h2 rest']; [exact I |].
  destruct Hrest as (l' & Hwl & Hc').
  exists l'. split.
  - rewrite Hw by (now left). exact Hwl.
  - apply IH; auto. intros t Ht. apply Hw. now right.
Qed.

Lemma donate_once_threads st cur h ln :
  threads (donate_once st cur h ln) =
  thread_given_set_priority (threads st) h (priority (threads st cur)) true.
Proof.
  unfold donate_once. cbn.
  match goal with |- context [if ?b then _ else _] => destruct b end;
    reflexivity.
Qed.

Lemma donate_once_holder st cur h ln l' :
  holder (lockmap (donate_once st cur h ln) l') = holder (lockmap st l').
Proof.
  unfold donate_once. cbn.
  match goal with |- context [if ?b then _ else _] => destruct b end;
    [| reflexivity].
  cbn. unfold update. destruct (Nat.eqb_spec l' ln); subst; reflexivity.
Qed.

Lemma donate_once_other st cur h ln t :
  t <> h -> threads (donate_once st cur h ln) t = threads st t.
Proof.
  intros Hne. rewrite donate_once_threads.
  unfold thread_given_set_priority. now apply update_neq.
Qed.

Lemma donate_once_target st cur h ln :
  priority (threads (donate_once st cur h ln) h) = priority (threads st cur)
  /\ is_donated (threads (donate_once st cur h ln) h) = true.
Proof.
  rewrite donate_once_threads. unfold thread_given_set_priority.
  rewrite update_eq. split; reflexivity.
Qed.

Lemma donate_once_waiting st cur h ln t :
  waiting_for_lock (threads (donate_once st cur h ln) t)
  = waiting_for_lock (threads st t).
Proof.
  rewrite donate_once_threads. unfold thread_given_set_priority, update.
  destruct (Nat.eqb_spec t h); subst; reflexivity.
Qed.

Lemma in_firstn {A : Type} (x : A) : forall n l, In x (firstn n l) -> In x l.
Proof.
  induction n as [| n IH]; intros [| a l]; cbn; try tauto.
  intros [-> | Hin]; [now left | right; now apply IH].
Qed.

Lemma not_in_firstn_nth {A : Type} (l : list A) n i x :
  NoDup l -> nth_error l i = Some x -> (n <= i)%nat -> ~ In x (firstn n l).
Proof.
  revert n i. induction l as [| a l IH]; intros n i Hnd Hnth Hle.
  - destruct i; discriminate.
  - destruct n as [| n]; [cbn; tauto |].
    destruct i as [| i]; [lia |].
    cbn in Hnth. inversion Hnd as [| ? ? Ha Hnd']; subst.
    cbn. intros [-> | Hin].
    + apply Ha. eapply nth_error_In; eauto.
    + revert Hin. eapply IH; eauto. lia.
Qed.

Section DonationWalk.
Variable LOCK_LEVEL : Z.
Variable cur : tid.

Lemma donate_walk_chain : forall hs fuel st l iter,
  ownership_chain st l hs ->
  NoDup hs ->
  ~ In cur hs ->
  (Z.to_nat (LOCK_LEVEL - iter) < fuel)%nat ->
  (Z.to_nat (LOCK_LEVEL - iter) < length hs)%nat ->
  exists st',
    donate_walk LOCK_LEVEL false fuel st cur (holder (lockmap st l)) l iter
    = Some st'
    /\ walk_result LOCK_LEVEL cur st st' hs iter.
Proof.
  induction hs as [| h rest IH]; intros fuel st l iter Hc Hnd Hcur Hf Hlen.
  { cbn in Hlen. lia. }
  cbn [ownership_chain] in Hc. destruct Hc as [Hh Hrest].
  inversion Hnd as [| ? ? Hh_rest Hnd_rest]; subst.
  assert (Hcur_h : cur <> h) by (intros ->; apply Hcur; now left).
  assert (Hcur_rest : ~ In cur rest) by (intros Hin; apply Hcur; now right).
  rewrite Hh.
  destruct fuel as [| fuel]; [lia |].
  cbn [donate_walk negb andb].
  destruct (Z.ltb_spec (priority (threads st h)) (priority (threads st cur)))
    as [Hlt | Hge].
  2:{ (* the holder is not below the caller: the loop is not entered *)
    exists st. split; [reflexivity |]. split; [reflexivity |].
    intros i h0 Hnth Hi Hall.
    specialize (Hall 0%nat h ltac:(lia) eq_refl). lia. }
  set (st2 := donate_once st cur h l).
  assert (Hst2_other : forall t, t <> h -> threads st2 t = threads st t)
    by (intros t Ht; now apply donate_once_other).
  assert (Hst2_h : priority (threads st2 h) = priority (threads st cur)
                   /\ is_donated (threads st2 h) = true)
    by apply donate_once_target.
  assert (Hwait : waiting_for_lock (threads st2 h)
                  = waiting_for_lock (threads st h))
    by apply donate_once_waiting.
  destruct rest as [| h2 rest'].
  { (* a chain of one holder: the bound is reached here *)
    cbn in Hlen.
    assert (Hz : Z.to_nat (LOCK_LEVEL - iter) = 0%nat) by lia.
    assert (Hstop : (iter <? LOCK_LEVEL) = false) by (apply Z.ltb_ge; lia).
    exists st2. split.
    - destruct (waiting_for_lock (threads st2 h)); [now rewrite Hstop | reflexivity].
    - split.
      + intros t Hn. apply Hst2_other. intros ->. apply Hn. now left.
      + intros i h0 Hnth Hi _. rewrite Hz in Hi.
        destruct i; [| lia]. cbn in Hnth. now injection Hnth as <-. }
  destruct Hrest as (l' & Hwl & Hc').
  rewrite Hwait, Hwl.
  destruct (Z.ltb_spec iter LOCK_LEVEL) as [Hgo | Hstop].
  - (* the walk moves on to the holder of [l'] *)
    assert (Hn : Z.to_nat (LOCK_LEVEL - iter)
                 = S (Z.to_nat (LOCK_LEVEL - (iter + 1)))) by lia.
    destruct (IH fuel st2 l' (iter + 1)) as (st' & Hrun & Hsame & Hpos).
    + apply ownership_chain_ext with (st := st); auto.
      * intros l0. apply donate_once_holder.
      * intros t _. apply donate_once_waiting.
    + assumption.
    + assumption.
    + lia.
    + cbn [length] in *. lia.
    + exists st'. split; [exact Hrun |]. split.
      * intros t Hnin. rewrite Hn in Hnin.
        change (firstn (S (S ?n)) (h :: ?r)) with (h :: firstn (S n) r) in Hnin.
        rewrite Hsame by (intros Hin; apply Hnin; now right).
        apply Hst2_other. intros ->. apply Hnin. now left.
      * intros i h0 Hnth Hi Hall.
        destruct i as [| i].
        -- cbn in Hnth. injection Hnth as <-.
           rewrite Hsame; [exact Hst2_h |].
           intros Hin. apply Hh_rest. eapply in_firstn. exact Hin.
        -- cbn [nth_error] in Hnth.
           rewrite <- (Hst2_other cur) at 1 by assumption.
           rewrite <- (Hst2_other cur) in Hall by assumption.
           apply Hpos with (i := i); [assumption | lia |].
           intros j h' Hj Hnth'.
           assert (Hin : In h' (h2 :: rest'))
             by (eapply nth_error_In; eauto).
           rewrite Hst2_other by (intros ->; contradiction).
           apply (Hall (S j) h'); [lia | exact Hnth'].
  - (* LOCK_LEVEL reached: the walk stops without touching the rest *)
    assert (Hz : Z.to_nat (LOCK_LEVEL - iter) = 0%nat) by lia.
    exists st2. split; [reflexivity |]. split.
    + intros t Hn. apply Hst2_other. intros ->. apply Hn. now left.
    + intros i h0 Hnth Hi _. rewrite Hz in Hi.
      destruct i; [| lia]. cbn in Hnth. now injection Hnth as <-.
Qed.
End DonationWalk.

(** The trip through [sema_down] and the tail of [lock_acquire] change no
    thread's priority and no thread's donated flag. *)
Lemma lock_acquire_retry_priority st cur l t :
  priority (threads (fst (lock_acquire_retry false st cur l)) t)
  = priority (threads st t)
  /\ is_donated (threads (fst (lock_acquire_retry false st cur l)) t)
     = is_donated (threads st t).
Proof.
  unfold lock_acquire_retry, lock_sema_down_pass, sema_down_pass.
  destruct (value (l_semaphore (lockmap st l)) =? 0); cbn.
  - unfold thread_block, update.
    destruct (Nat.eqb t cur) eqn:E; [| split; reflexivity].
    apply Nat.eqb_eq in E. subst. split; reflexivity.
  - unfold update.
    destruct (Nat.eqb t cur) eqn:E; [| split; reflexivity].
    apply Nat.eqb_eq in E. subst. rewrite !Nat.eqb_refl. split; reflexivity.
Qed.

(** C3.  In donation-enabled mode, let [hs] be an ownership chain of at least
    LOCK_LEVEL + 2 distinct holders that starts at the holder of the lock
    being acquired and does not contain the caller.  Then [lock_acquire]
    returns normally, the holders past position LOCK_LEVEL keep their priority
    and their donated flag, and a holder at a position up to LOCK_LEVEL that
    the walk reaches through holders of lower priority than the caller's
    gets the caller's priority and is marked donated. *)
Theorem donation_walk_depth_bound :
  forall LOCK_LEVEL st cur l hs,
    ownership_chain st l hs ->
    NoDup hs ->
    ~ In cur hs ->
    (Z.to_nat LOCK_LEVEL + 2 <= length hs)%nat ->
    exists st' r,
      lock_acquire LOCK_LEVEL false st cur l = Some (st', r)
      /\ (forall i h,
            nth_error hs i = Some h ->
            (Z.to_nat LOCK_LEVEL < i)%nat ->
            priority (threads st' h) = priority (threads st h)
            /\ is_donated (threads st' h) = is_donated (threads st h))
      /\ (forall i h,
            nth_error hs i = Some h ->
            (i <= Z.to_nat LOCK_LEVEL)%nat ->
            (forall j h', (j <= i)%nat -> nth_error hs j = Some h' ->
                          priority (threads st h') < priority (threads st cur)) ->
            priority (threads st' h) = priority (threads st cur)
            /\ is_donated (threads st' h) = true).
Proof.
  intros LL st cur l hs Hc Hnd Hcur Hlen.
  destruct hs as [| h0 rest]; [cbn in Hlen; lia |].
  assert (Hh0 : holder (lockmap st l) = Some h0) by (destruct Hc; assumption).
  assert (Hne : holder (lockmap st l) <> Some cur).
  { rewrite Hh0. intros [= ->]. apply Hcur. now left. }
  set (st0 := with_threads st
                (update (threads st) cur
                   (set_waiting_for_lock (Some l) (threads st cur)))).
  assert (Hst0 : forall t, t <> cur -> threads st0 t = threads st t)
    by (intros t Ht; cbn; now apply update_neq).
  assert (Hst0_cur : priority (threads st0 cur) = priority (threads st cur))
    by (cbn; now rewrite update_eq).
  assert (Hin_ne : forall t, In t (h0 :: rest) -> t <> cur)
    by (intros t Hin ->; contradiction).
  destruct (donate_walk_chain LL cur (h0 :: rest) (S (Z.to_nat LL)) st0 l 0)
    as (st1 & Hrun & Hsame & Hpos).
  { apply ownership_chain_ext with (st := st); auto.
    intros t Hin. now rewrite Hst0 by auto. }
  { assumption. }
  { assumption. }
  { rewrite Z.sub_0_r. lia. }
  { rewrite Z.sub_0_r. lia. }
  rewrite Z.sub_0_r in Hsame, Hpos.
  exists (fst (lock_acquire_retry false st1 cur l)),
         (snd (lock_acquire_retry false st1 cur l)).
  split.
  - unfold lock_acquire, lock_acquire_donate.
    apply lock_held_by_current_thread_false in Hne. rewrite Hne.
    rewrite Hh0. cbn [negb]. fold st0.
    change (holder (lockmap st l)) with (holder (lockmap st0 l)) in Hh0.
    rewrite Hrun. now destruct (lock_acquire_retry false st1 cur l).
  - split.
    + intros i h Hnth Hi.
      destruct (lock_acquire_retry_priority st1 cur l h) as [-> ->].
      rewrite Hsame.
      * rewrite Hst0; [split; reflexivity |].
        apply Hin_ne. eapply nth_error_In; eauto.
      * eapply not_in_firstn_nth; eauto.
    + intros i h Hnth Hi Hall.
      destruct (lock_acquire_retry_priority st1 cur l h) as [-> ->].
      rewrite <- Hst0_cur. apply Hpos with (i := i); [assumption .. |].
      intros j h' Hj Hnth'. rewrite Hst0_cur.
      rewrite Hst0 by (apply Hin_ne; eapply nth_error_In; eauto).
      eauto.
Qed.

Lemma donation_walk_depth_bound_witness :
  exists st' r,
    lock_acquire 1 false three_deep_chain 3%nat 0%nat = Some (st', r)
    /\ (forall i h,
          nth_error [2%nat; 1%nat; 0%nat] i = Some h ->
          (Z.to_nat 1 < i)%nat ->
          priority (threads st' h) = priority (threads three_deep_chain h)
          /\ is_donated (threads st' h)
             = is_donated (threads three_deep_chain h))
    /\ (forall i h,
          nth_error [2%nat; 1%nat; 0%nat] i = Some h ->
          (i <= Z.to_nat 1)%nat ->
          (forall j h', (j <= i)%nat ->
                        nth_error [2%nat; 1%nat; 0%nat] j = Some h' ->
                        priority (threads three_deep_chain h')
                        < priority (threads three_deep_chain 3%nat)) ->
          priority (threads st' h) = priority (threads three_deep_chain 3%nat)
          /\ is_donated (threads st' h) = true).
Proof.
  apply (donation_walk_depth_bound 1 three_deep_chain 3%nat 0%nat
           [2%nat; 1%nat; 0%nat]).
  - cbn [ownership_chain].
    split; [vm_compute; reflexivity |].
    exists 1%nat. split; [vm_compute; reflexivity |].
    split; [vm_compute; reflexivity |].
    exists 2%nat. split; [vm_compute; reflexivity |].
    split; [vm_compute; reflexivity | exact I].
  - repeat constructor; cbn; intuition discriminate.
  - cbn. intuition discriminate.
  - cbn. lia.
Defined.

(** ** Ordered insertion *)

Lemma list_insert_ordered_in {E : Type} (less : E -> E -> bool) (x y : E) l :
  In y (list_insert_ordered less x l) <-> y = x \/ In y l.
Proof.
  induction l as [| e r IH]; cbn.
  - intuition.
  - destruct (less x e); cbn; [intuition |].
    rewrite IH. intuition.
Qed.

Lemma list_insert_ordered_nodup {E : Type} (less : E -> E -> bool) (x : E) l :
  ~ In x l -> NoDup l -> NoDup (list_insert_ordered less x l).
Proof.
  induction l as [| e r IH]; intros Hn Hnd; cbn.
  - constructor; [tauto | constructor].
  - destruct (less x e); [now constructor |].
    inversion Hnd as [| ? ? He Hr]; subst.
    constructor.
    + rewrite list_insert_ordered_in. cbn in Hn. intuition.
    + apply IH; [cbn in Hn; tauto | assumption].
Qed.

(** Inserting with [priority_semaphore_compare] keeps a queue descending by
    the keys that the comparator reads. *)
Lemma list_insert_ordered_sorted {E : Type} (key : E -> Z) (x : E) l :
  StronglySorted (fun a b => key a >= key b) l ->
  StronglySorted (fun a b => key a >= key b)
    (list_insert_ordered (priority_semaphore_compare key) x l).
Proof.
  induction l as [| e r IH]; intros Hs; cbn.
  - repeat constructor.
  - apply StronglySorted_inv in Hs. destruct Hs as [Hr He].
    unfold priority_semaphore_compare at 1.
    destruct (Z.gtb_spec (key x) (key e)) as [Hgt | Hle].
    + constructor; [constructor; assumption |].
      constructor; [lia |].
      rewrite Forall_forall in *. intros b Hb. specialize (He b Hb). lia.
    + constructor; [now apply IH |].
      rewrite Forall_forall in *. intros b Hb.
      apply list_insert_ordered_in in Hb. destruct Hb as [-> | Hb].
      * lia.
      * now apply He.
Qed.

Lemma strongly_sorted_key_ext {E : Type} (key key' : E -> Z) q :
  (forall e, In e q -> key' e = key e) ->
  StronglySorted (fun a b => key a >= key b) q ->
  StronglySorted (fun a b => key' a >= key' b) q.
Proof.
  induction q as [| a q IH]; intros Hk Hs; [constructor |].
  apply StronglySorted_inv in Hs. destruct Hs as [Hq Ha].
  constructor.
  - apply IH; [intros e He; apply Hk; now right | assumption].
  - rewrite Forall_forall in *. intros b Hb.
    rewrite (Hk a) by (now left). rewrite (Hk b) by (now right).
    now apply Ha.
Qed.

(** Seen from [sema_down]: if the queue is descending by the threads'
    current priorities when a thread is queued, it is so afterwards. *)
Lemma sema_down_pass_keeps_order ths cur sema :
  priority_descending ths (waiters sema) ->
  let '(ths', sema', _) := sema_down_pass ths cur sema in
  priority_descending ths' (waiters sema').
Proof.
  intros Hs. unfold sema_down_pass.
  destruct (value sema =? 0); cbn; [| assumption].
  unfold priority_descending.
  apply strongly_sorted_key_ext with (key := thread_elem_priority ths).
  - intros e _. unfold thread_elem_priority, thread_block, update.
    destruct (Nat.eqb_spec e cur); subst; reflexivity.
  - now apply list_insert_ordered_sorted.
Qed.

(** ** Condition variables *)

Lemma snapshot_descending_ext st st' q :
  (forall e, In e q ->
             highest_priority (elems st' e) = highest_priority (elems st e)) ->
  snapshot_descending st q -> snapshot_descending st' q.
Proof.
  unfold snapshot_descending. intros Hk.
  apply strongly_sorted_key_ext
    with (key := fun e => highest_priority (elems st e))
         (key' := fun e => highest_priority (elems st' e)).
  exact Hk.
Qed.

Lemma cond_signal_cases st cur c l st' y :
  cond_signal st cur c l = Some (st', y) ->
  (c_waiters (conds st c) = [] /\ st' = st /\ y = false)
  \/ (exists w rest,
        c_waiters (conds st c) = w :: rest
        /\ conds st' = update (conds st) c (mkCond rest)
        /\ elems st'
           = update (elems st) w
               (mkElem (snd (fst (sema_up (threads st) cur
                                    (e_semaphore (elems st w)))))
                       (highest_priority (elems st w)))
        /\ threads st'
           = fst (fst (sema_up (threads st) cur (e_semaphore (elems st w))))
        /\ y = snd (sema_up (threads st) cur (e_semaphore (elems st w)))
        /\ lockmap st' = lockmap st
        /\ semas st' = semas st).
Proof.
  unfold cond_signal.
  destruct (lock_held_by_current_thread st cur l); [| discriminate].
  destruct (c_waiters (conds st c)) as [| w rest] eqn:Eq; cbn.
  - intros [= <- <-]. left. auto.
  - destruct (sema_up (threads st) cur (e_semaphore (elems st w)))
      as [[ths' sema'] yield] eqn:Eup.
    intros [= <- <-]. right. exists w, rest. cbn.
    change (threads (with_cond st c (mkCond rest))) with (threads st) in Eup.
    change (elems (with_cond st c (mkCond rest))) with (elems st) in Eup.
    rewrite Eup. cbn. repeat split; reflexivity.
Qed.

Lemma cond_signal_snapshot st cur c l st' y e :
  cond_signal st cur c l = Some (st', y) ->
  highest_priority (elems st' e) = highest_priority (elems st e).
Proof.
  intros H. apply cond_signal_cases in H.
  destruct H as [(_ & -> & _) | (w & rest & _ & _ & He & _)]; [reflexivity |].
  rewrite He. unfold update. destruct (Nat.eqb_spec e w); subst; reflexivity.
Qed.

(** The queue of a condition variable is always descending by the recorded
    snapshots, without repetition. *)
Lemma cond_reach_ordered c st :
  cond_reach c st ->
  snapshot_descending st (c_waiters (conds st c))
  /\ NoDup (c_waiters (conds st c)).
Proof.
  induction 1 as [st | st c' _ IH Hc | st cur c' l waiter st' _ IH Hfresh Hw
                 | st cur waiter _ IH | st cur c' l st' y _ IH Hs
                 | st st' _ IH Hc He].
  - cbn. rewrite update_eq. cbn. split; constructor.
  - cbn. rewrite update_neq by congruence. exact IH.
  - destruct IH as [Hsorted Hnd].
    unfold cond_wait_enqueue in Hw.
    destruct (lock_held_by_current_thread st cur l); [| discriminate].
    injection Hw as <-.
    set (st1 := with_elem st waiter
                  (mkElem (sema_init 0) (priority (threads st cur)))).
    assert (Hsorted1 : snapshot_descending st1 (c_waiters (conds st c))).
    { apply snapshot_descending_ext with (st := st); [| assumption].
      intros e He. cbn. rewrite update_neq; [reflexivity |].
      intros ->. contradiction. }
    set (q := list_insert_ordered
                (priority_semaphore_compare
                   (fun e => highest_priority (elems st1 e)))
                waiter (c_waiters (conds st1 c'))).
    assert (Hq : c_waiters (conds (with_cond st1 c' (mkCond q)) c)
                 = if Nat.eqb c c' then q else c_waiters (conds st c)).
    { cbn. unfold update. now destruct (Nat.eqb c c'). }
    change (snapshot_descending (with_cond st1 c' (mkCond q))
              (c_waiters (conds (with_cond st1 c' (mkCond q)) c))
            /\ NoDup (c_waiters (conds (with_cond st1 c' (mkCond q)) c))).
    rewrite Hq.
    assert (Hext : forall q0, snapshot_descending st1 q0 ->
                     snapshot_descending (with_cond st1 c' (mkCond q)) q0).
    { intros q0. apply snapshot_descending_ext. reflexivity. }
    destruct (Nat.eqb_spec c c') as [<- | Hne].
    + split.
      * apply Hext. unfold q.
        apply (list_insert_ordered_sorted
                 (fun e => highest_priority (elems st1 e))).
        exact Hsorted1.
      * unfold q. apply list_insert_ordered_nodup; [exact Hfresh | exact Hnd].
    + split; [now apply Hext | assumption].
  - destruct IH as [Hsorted Hnd].
    unfold elem_sema_down_pass.
    destruct (sema_down_pass (threads st) cur (e_semaphore (elems st waiter)))
      as [[ths' sema'] r]. cbn. split; [| assumption].
    apply snapshot_descending_ext with (st := st); [| assumption].
    intros e _. cbn. unfold update.
    destruct (Nat.eqb_spec e waiter); subst; reflexivity.
  - destruct IH as [Hsorted Hnd].
    assert (Hkeys : forall e, highest_priority (elems st' e)
                              = highest_priority (elems st e))
      by (intros e; eapply cond_signal_snapshot; eauto).
    apply cond_signal_cases in Hs.
    destruct Hs as [(_ & -> & _) | (w & rest & Hq & Hconds & _)];
      [split; assumption |].
    rewrite Hconds. unfold update. destruct (Nat.eqb_spec c c') as [-> | Hne].
    + cbn. rewrite Hq in Hsorted, Hnd.
      apply StronglySorted_inv in Hsorted. destruct Hsorted as [Hrest _].
      inversion Hnd; subst. split; [| assumption].
      apply snapshot_descending_ext with (st := st); auto.
    + split; [| assumption].
      apply snapshot_descending_ext with (st := st); auto.
  - rewrite Hc. destruct IH as [Hsorted Hnd]. split; [| assumption].
    apply snapshot_descending_ext with (st := st); [| assumption].
    intros e _. now rewrite He.
Qed.

(** C7.  For a condition variable in a state the code can reach and a caller
    that holds the lock, [cond_signal] on an empty queue returns the state
    unchanged and does not yield.  On a non-empty queue it removes the front
    record, whose snapshot is the highest of the queue and which is not
    queued a second time, leaves the other records queued in their order,
    applies one [sema_up] to the semaphore of the removed record, and writes
    no other record, condition variable, lock or semaphore.  That one up
    takes the record's value one up, empties the record's own queue and
    makes the threads that were blocked on the record ready, changing
    nothing else of them; every other thread, those blocked on the records
    that stay queued among them, is left as it was.  The signal yields when
    the woken thread has a priority above the caller's. *)
Theorem cond_signal_wakes_highest :
  forall c st cur l,
    cond_reach c st ->
    lock_held_by_current_thread st cur l = true ->
    (c_waiters (conds st c) = [] -> cond_signal st cur c l = Some (st, false))
    /\ (forall w rest,
          c_waiters (conds st c) = w :: rest ->
          exists st' y,
            cond_signal st cur c l = Some (st', y)
            /\ c_waiters (conds st' c) = rest
            /\ ~ In w rest
            /\ (forall e, In e (w :: rest) ->
                          highest_priority (elems st e)
                          <= highest_priority (elems st w))
            /\ (threads st', e_semaphore (elems st' w), y)
               = sema_up (threads st) cur (e_semaphore (elems st w))
            /\ value (e_semaphore (elems st' w))
               = wrap32 (value (e_semaphore (elems st w)) + 1)
            /\ highest_priority (elems st' w) = highest_priority (elems st w)
            /\ (forall e, e <> w -> elems st' e = elems st e)
            /\ (forall c', c' <> c -> conds st' c' = conds st c')
            /\ lockmap st' = lockmap st
            /\ semas st' = semas st
            /\ waiters (e_semaphore (elems st' w)) = []
            /\ (forall t, In t (waiters (e_semaphore (elems st w))) ->
                          threads st' t
                          = set_status THREAD_READY (threads st t))
            /\ (forall t, ~ In t (waiters (e_semaphore (elems st w))) ->
                          threads st' t = threads st t)
            /\ y = match waiters (e_semaphore (elems st w)) with
                   | [] => false
                   | t :: _ =>
                       priority (threads st t) >? priority (threads st cur)
                   end).
Proof.
  intros c st cur l Hreach Hheld.
  destruct (cond_reach_ordered c st Hreach) as [Hsorted Hnd].
  split.
  - intros Hq. unfold cond_signal. now rewrite Hheld, Hq.
  - intros w rest Hq.
    assert (Hret : exists st' y, cond_signal st cur c l = Some (st', y)).
    { unfold cond_signal. rewrite Hheld, Hq. cbn [list_pop_front].
      destruct (sema_up (threads (with_cond st c (mkCond rest))) cur
                  (e_semaphore (elems (with_cond st c (mkCond rest)) w)))
        as [[ths' sema'] yield].
      eauto. }
    destruct Hret as (st' & y & Hret). exists st', y.
    split; [exact Hret |].
    apply cond_signal_cases in Hret.
    destruct Hret as [(Hnil & _) | (w' & rest' & Hq' & Hconds & Helems
                                    & Hths & Hy & Hlocks & Hsemas)];
      [congruence |].
    rewrite Hq in Hq'. injection Hq' as <- <-.
    rewrite Hq in Hsorted, Hnd.
    split; [rewrite Hconds, update_eq; reflexivity |].
    split; [now inversion Hnd |].
    split.
    { intros e [<- | Hin]; [lia |].
      apply StronglySorted_inv in Hsorted. destruct Hsorted as [_ Hall].
      rewrite Forall_forall in Hall. specialize (Hall e Hin). lia. }
    split.
    { rewrite Hths, Helems, update_eq, Hy. cbn [e_semaphore].
      now destruct (sema_up (threads st) cur (e_semaphore (elems st w)))
        as [[ths' sema'] yield]. }
    split.
    { rewrite Helems, update_eq. cbn [e_semaphore].
      rewrite sema_up_unfold. reflexivity. }
    split; [rewrite Helems, update_eq; reflexivity |].
    split; [intros e He; rewrite Helems; now apply update_neq |].
    split; [intros c' Hc'; rewrite Hconds; now apply update_neq |].
    split; [assumption |]. split; [assumption |].
    split.
    { rewrite Helems, update_eq. cbn [e_semaphore].
      rewrite sema_up_unfold. reflexivity. }
    split.
    { intros t Ht. rewrite Hths, sema_up_unfold. cbn [fst].
      now apply fold_unblock_in_record. }
    split.
    { intros t Ht. rewrite Hths, sema_up_unfold. cbn [fst].
      now apply fold_unblock_notin. }
    rewrite Hy. apply sema_up_yields.
Qed.

(** *** No lost wake-up *)

Lemma count_occ_insert_ordered less (x w : nat) l :
  count_occ Nat.eq_dec (list_insert_ordered less x l) w
  = count_occ Nat.eq_dec (x :: l) w.
Proof.
  induction l as [| e r IH]; [reflexivity |].
  cbn [list_insert_ordered]. destruct (less x e); [reflexivity |].
  cbn [count_occ] in *.
  destruct (Nat.eq_dec e w), (Nat.eq_dec x w); rewrite IH; reflexivity.
Qed.

Lemma cond_wait_enqueue_cases st cur c l w st' :
  cond_wait_enqueue st cur c l w = Some st' ->
  lock_held_by_current_thread st cur l = true
  /\ elems st'
     = update (elems st) w (mkElem (sema_init 0) (priority (threads st cur)))
  /\ conds st'
     = update (conds st) c
         (mkCond
            (list_insert_ordered
               (priority_semaphore_compare
                  (fun e => highest_priority (elems st' e)))
               w (c_waiters (conds st c))))
  /\ threads st' = threads st
  /\ lockmap st' = lockmap st
  /\ semas st' = semas st.
Proof.
  unfold cond_wait_enqueue.
  destruct (lock_held_by_current_thread st cur l); [| discriminate].
  intros [= <-]. cbn. repeat split; reflexivity.
Qed.

Lemma elem_sema_down_pass_frame st cur w :
  conds (fst (elem_sema_down_pass st cur w)) = conds st
  /\ forall e, e <> w ->
               elems (fst (elem_sema_down_pass st cur w)) e = elems st e.
Proof.
  unfold elem_sema_down_pass.
  destruct (sema_down_pass (threads st) cur (e_semaphore (elems st w)))
    as [[ths' sema'] r]. cbn.
  split; [reflexivity |]. intros e He. now apply update_neq.
Qed.

Lemma queue_after_pop (st st' : state) c0 (rest : list eid) c' w w0 :
  conds st' = update (conds st) c0 (mkCond rest) ->
  c_waiters (conds st c0) = w0 :: rest ->
  ~ In w (c_waiters (conds st c')) ->
  ~ In w (c_waiters (conds st' c')).
Proof.
  intros Hc Hq Hn. rewrite Hc. unfold update.
  destruct (Nat.eqb_spec c' c0) as [-> | Hne]; [| exact Hn].
  cbn. rewrite Hq in Hn. intros Hin. apply Hn. now right.
Qed.

Lemma wakeup_pending_step c w st st' :
  wakeup_pending c w st -> other_step w st st' -> wakeup_pending c w st'.
Proof.
  intros HJ Hstep.
  destruct Hstep as [st t c0 l st' y Hs | st t c0 l w' st' Hne Hw
                    | st t w' Hne | st st' Hc He].
  - (* a signal *)
    apply cond_signal_cases in Hs.
    destruct Hs as [(_ & -> & _) | (w0 & rest & Hq & Hconds & Helems & _)];
      [exact HJ |].
    assert (Hval : w0 <> w ->
                   value (e_semaphore (elems st' w))
                   = value (e_semaphore (elems st w))).
    { intros Hw0. rewrite Helems, update_neq by congruence. reflexivity. }
    destruct HJ as [(Hcount & Hother & Hzero) | (Hnone & Hone)].
    + destruct (Nat.eq_dec c0 c) as [-> | Hc0].
      * rewrite Hq in Hcount.
        destruct (Nat.eq_dec w0 w) as [-> | Hw0].
        -- (* the signal takes [w] off the queue and ups its semaphore *)
           rewrite count_occ_cons_eq in Hcount by reflexivity.
           assert (Hnot : ~ In w rest)
             by (apply (count_occ_not_In Nat.eq_dec);
                 injection Hcount as Hcount; exact Hcount).
           right. split.
           ++ intros c'. rewrite Hconds. unfold update.
              destruct (Nat.eqb_spec c' c) as [-> | Hc']; [exact Hnot |].
              now apply Hother.
           ++ rewrite Helems, update_eq. cbn [e_semaphore].
              rewrite sema_up_unfold. cbn [fst snd value].
              rewrite Hzero. reflexivity.
        -- rewrite count_occ_cons_neq in Hcount by assumption.
           left. split; [| split].
           ++ rewrite Hconds, update_eq. exact Hcount.
           ++ intros c' Hc'. rewrite Hconds, update_neq by assumption.
              now apply Hother.
           ++ rewrite Hval by assumption. exact Hzero.
      * assert (Hw0 : w0 <> w).
        { intros ->. apply (Hother c0 Hc0). rewrite Hq. now left. }
        left. split; [| split].
        -- rewrite Hconds, update_neq by congruence. exact Hcount.
        -- intros c' Hc'. eapply queue_after_pop; eauto.
        -- rewrite Hval by assumption. exact Hzero.
    + assert (Hw0 : w0 <> w).
      { intros ->. apply (Hnone c0). rewrite Hq. now left. }
      right. split.
      * intros c'. eapply queue_after_pop; eauto.
      * rewrite Hval by assumption. exact Hone.
  - (* another thread starts a wait with its own record *)
    apply cond_wait_enqueue_cases in Hw.
    destruct Hw as (_ & Helems & Hconds & _).
    assert (Hval : value (e_semaphore (elems st' w))
                   = value (e_semaphore (elems st w))).
    { rewrite Helems, update_neq by congruence. reflexivity. }
    assert (Hin : forall c', ~ In w (c_waiters (conds st c')) ->
                             ~ In w (c_waiters (conds st' c'))).
    { intros c' Hn. rewrite Hconds. unfold update.
      destruct (Nat.eqb_spec c' c0) as [-> | Hc']; [| exact Hn].
      cbn. rewrite list_insert_ordered_in. intros [Heq | Hin]; congruence. }
    destruct HJ as [(Hcount & Hother & Hzero) | (Hnone & Hone)].
    + left. split; [| split].
      * rewrite Hconds. unfold update.
        destruct (Nat.eqb_spec c c0) as [-> | Hc']; [| exact Hcount].
        cbn [c_waiters]. rewrite count_occ_insert_ordered.
        rewrite count_occ_cons_neq by assumption. exact Hcount.
      * intros c' Hc'. apply Hin. now apply Hother.
      * now rewrite Hval.
    + right. split; [intros c'; apply Hin, Hnone | now rewrite Hval].
  - (* another thread blocks on its own record *)
    destruct (elem_sema_down_pass_frame st t w') as [Hc He].
    unfold wakeup_pending. rewrite Hc, He by congruence. exact HJ.
  - unfold wakeup_pending. rewrite Hc, He. exact HJ.
Qed.

Lemma wakeup_pending_steps c w st st' :
  wakeup_pending c w st -> other_steps w st st' -> wakeup_pending c w st'.
Proof.
  intros HJ Hsteps. induction Hsteps as [| st st' st'' Hsteps IH Hstep].
  - exact HJ.
  - eapply wakeup_pending_step; [apply IH; exact HJ | exact Hstep].
Qed.

Lemma unlink_lock_frame l curr st :
  conds (unlink_lock l curr st) = conds st
  /\ elems (unlink_lock l curr st) = elems st
  /\ semas (unlink_lock l curr st) = semas st
  /\ lockmap (unlink_lock l curr st) = lockmap st.
Proof.
  unfold unlink_lock.
  destruct (existsb (Nat.eqb l) (locks (threads st curr)));
    repeat split; reflexivity.
Qed.

Lemma lock_release_restore_frame PRIORITY_FAKE thread_mlfqs st curr l :
  conds (lock_release_restore PRIORITY_FAKE thread_mlfqs st curr l) = conds st
  /\ elems (lock_release_restore PRIORITY_FAKE thread_mlfqs st curr l)
     = elems st
  /\ semas (lock_release_restore PRIORITY_FAKE thread_mlfqs st curr l)
     = semas st
  /\ holder (lockmap (lock_release_restore PRIORITY_FAKE thread_mlfqs
                        st curr l) l)
     = holder (lockmap st l).
Proof.
  unfold lock_release_restore.
  destruct thread_mlfqs; cbn [negb]; [repeat split; reflexivity |].
  destruct (unlink_lock_frame l curr st) as (Hc & He & Hs & Hl).
  set (st1 := unlink_lock l curr st) in *. clearbody st1.
  match goal with
  | |- context [match ?x with Some _ => _ | None => _ end] => destruct x
  end.
  - match goal with
    | |- context [if ?b then _ else _] => destruct b
    end; cbn; rewrite update_eq, Hl; repeat split; assumption.
  - cbn. rewrite update_eq, Hl. repeat split; assumption.
Qed.

Lemma lock_release_up_frame st curr l :
  lock_held_by_current_thread st curr l = true ->
  exists st' y,
    lock_release_up st curr l = Some (st', y)
    /\ conds st' = conds st
    /\ elems st' = elems st
    /\ semas st' = semas st
    /\ holder (lockmap st' l) = None.
Proof.
  intros Hheld. unfold lock_release_up. rewrite Hheld.
  destruct (sema_up (threads (with_lock st l (set_holder None (lockmap st l))))
              curr
              (l_semaphore
                 (lockmap (with_lock st l (set_holder None (lockmap st l))) l)))
    as [[ths' sema'] yield].
  eexists. eexists. split; [reflexivity |].
  cbn. rewrite !update_eq. repeat split; reflexivity.
Qed.

Lemma lock_release_frame PRIORITY_FAKE thread_mlfqs st curr l :
  lock_held_by_current_thread st curr l = true ->
  exists st' y,
    lock_release PRIORITY_FAKE thread_mlfqs st curr l = Some (st', y)
    /\ conds st' = conds st
    /\ elems st' = elems st
    /\ semas st' = semas st
    /\ holder (lockmap st' l) = None.
Proof.
  intros Hheld.
  destruct (lock_release_up_frame st curr l Hheld)
    as (st2 & y & Hup & Hc & He & Hs & Hh).
  unfold lock_release. rewrite Hup. destruct y.
  - exists st2, true. auto.
  - exists (lock_release_restore PRIORITY_FAKE thread_mlfqs st2 curr l), false.
    destruct (lock_release_restore_frame PRIORITY_FAKE thread_mlfqs st2 curr l)
      as (-> & -> & -> & ->).
    auto.
Qed.

Lemma elem_sema_down_pass_result st cur w :
  snd (elem_sema_down_pass st cur w)
  = if value (e_semaphore (elems st w)) =? 0 then Blocked else Passed.
Proof.
  unfold elem_sema_down_pass, sema_down_pass.
  now destruct (value (e_semaphore (elems st w)) =? 0).
Qed.

(** C9.  A caller of [cond_wait] that holds the lock, with a wait-record
    [w] that is not queued anywhere: the record is in the queue of the
    condition variable in the state in which [lock_release] is called, where
    the caller still holds the lock, and [lock_release] leaves it there.
    From then on, whatever the other threads do before the caller reaches
    its [sema_down], either the record is still queued, with its semaphore
    at 0, so that the caller suspends and a later signal finds the record;
    or a signal has taken it and left its semaphore at 1, so that the
    caller's [sema_down] passes without suspending. *)
Theorem cond_wait_queues_before_release :
  forall PRIORITY_FAKE thread_mlfqs st cur c l w,
    lock_held_by_current_thread st cur l = true ->
    (forall c', ~ In w (c_waiters (conds st c'))) ->
    exists st1 st2 y,
      cond_wait_enqueue st cur c l w = Some st1
      /\ In w (c_waiters (conds st1 c))
      /\ holder (lockmap st1 l) = Some cur
      /\ lock_release PRIORITY_FAKE thread_mlfqs st1 cur l = Some (st2, y)
      /\ cond_wait_release PRIORITY_FAKE thread_mlfqs st cur c l w
         = Some (st2, y)
      /\ holder (lockmap st2 l) = None
      /\ In w (c_waiters (conds st2 c))
      /\ forall st3,
           other_steps w st2 st3 ->
           (In w (c_waiters (conds st3 c))
            /\ value (e_semaphore (elems st3 w)) = 0
            /\ snd (elem_sema_down_pass st3 cur w) = Blocked)
           \/ ((forall c', ~ In w (c_waiters (conds st3 c')))
               /\ value (e_semaphore (elems st3 w)) = 1
               /\ snd (elem_sema_down_pass st3 cur w) = Passed).
Proof.
  intros PF mlfqs st cur c l w Hheld Hfresh.
  destruct (cond_wait_enqueue st cur c l w) as [st1 |] eqn:Ew.
  2:{ unfold cond_wait_enqueue in Ew. rewrite Hheld in Ew. discriminate. }
  pose proof Ew as Hcases. apply cond_wait_enqueue_cases in Hcases.
  destruct Hcases as (_ & Helems & Hconds & Hths & Hlocks & _).
  assert (Hheld1 : lock_held_by_current_thread st1 cur l = true).
  { unfold lock_held_by_current_thread in *. now rewrite Hlocks. }
  destruct (lock_release_frame PF mlfqs st1 cur l Hheld1)
    as (st2 & y & Hrel & Hc2 & He2 & _ & Hh2).
  assert (Hpending1 : wakeup_pending c w st1).
  { left. split; [| split].
    - rewrite Hconds, update_eq. cbn [c_waiters].
      rewrite count_occ_insert_ordered.
      rewrite count_occ_cons_eq by reflexivity. f_equal.
      apply (count_occ_not_In Nat.eq_dec). apply Hfresh.
    - intros c' Hc'. rewrite Hconds, update_neq by assumption. apply Hfresh.
    - rewrite Helems, update_eq. reflexivity. }
  assert (Hpending2 : wakeup_pending c w st2).
  { unfold wakeup_pending. rewrite Hc2, He2. exact Hpending1. }
  assert (Hin1 : In w (c_waiters (conds st1 c))).
  { rewrite Hconds, update_eq. cbn [c_waiters].
    apply list_insert_ordered_in. now left. }
  exists st1, st2, y.
  split; [reflexivity |].
  split; [exact Hin1 |].
  split; [apply lock_held_by_current_thread_true; exact Hheld1 |].
  split; [exact Hrel |].
  split; [unfold cond_wait_release; rewrite Ew; exact Hrel |].
  split; [exact Hh2 |].
  split; [rewrite Hc2; exact Hin1 |].
  intros st3 Hsteps.
  pose proof (wakeup_pending_steps c w st2 st3 Hpending2 Hsteps) as HJ.
  rewrite elem_sema_down_pass_result.
  destruct HJ as [(Hcount & _ & Hzero) | (Hnone & Hone)].
  - left. split; [| split; [exact Hzero | now rewrite Hzero]].
    apply (count_occ_In Nat.eq_dec). rewrite Hcount. lia.
  - right. split; [exact Hnone | split; [exact Hone | now rewrite Hone]].
Qed.

Lemma cond_wait_queues_before_release_witness :
  exists st1 st2 y,
    cond_wait_enqueue monitor_entered 3%nat 0%nat 0%nat 7%nat = Some st1
    /\ In 7%nat (c_waiters (conds st1 0%nat))
    /\ holder (lockmap st1 0%nat) = Some 3%nat
    /\ lock_release (-1) false st1 3%nat 0%nat = Some (st2, y)
    /\ cond_wait_release (-1) false monitor_entered 3%nat 0%nat 0%nat 7%nat
       = Some (st2, y)
    /\ holder (lockmap st2 0%nat) = None
    /\ In 7%nat (c_waiters (conds st2 0%nat))
    /\ forall st3,
         other_steps 7%nat st2 st3 ->
         (In 7%nat (c_waiters (conds st3 0%nat))
          /\ value (e_semaphore (elems st3 7%nat)) = 0
          /\ snd (elem_sema_down_pass st3 3%nat 7%nat) = Blocked)
         \/ ((forall c', ~ In 7%nat (c_waiters (conds st3 c')))
             /\ value (e_semaphore (elems st3 7%nat)) = 1
             /\ snd (elem_sema_down_pass st3 3%nat 7%nat) = Passed).
Proof.
  apply (cond_wait_queues_before_release (-1) false monitor_entered
           3%nat 0%nat 0%nat 7%nat).
  - vm_compute. reflexivity.
  - intros c'. unfold monitor_entered, cond_init. cbn [conds with_cond].
    unfold update. destruct (Nat.eqb c' 0); cbn; tauto.
Defined.

(** ** Wake-all against wake-one *)

Lemma thread_block_priority t ths x :
  priority (thread_block t ths x) = priority (ths x).
Proof.
  unfold thread_block, update.
  destruct (Nat.eqb_spec x t); subst; reflexivity.
Qed.

Lemma priority_strictly_descending_ext ths ths' q :
  (forall t, priority (ths' t) = priority (ths t)) ->
  priority_strictly_descending ths q -> priority_strictly_descending ths' q.
Proof.
  intros Hp. unfold priority_strictly_descending.
  induction q as [| a q IH]; intros Hs; [constructor |].
  apply StronglySorted_inv in Hs. destruct Hs as [Hq Ha].
  constructor; [now apply IH |].
  rewrite Forall_forall in *. intros b Hb. rewrite !Hp. now apply Ha.
Qed.

Lemma first_candidate_front ths t q :
  priority_strictly_descending ths (t :: q) ->
  first_candidate ths (t :: q) = Some t.
Proof.
  revert t. induction q as [| u q IH]; intros t Hs; [reflexivity |].
  apply StronglySorted_inv in Hs. destruct Hs as [Hq Ht].
  change (first_candidate ths (t :: u :: q))
    with (match first_candidate ths (u :: q) with
          | None => Some t
          | Some v => if priority (ths v) >? priority (ths t)
                      then Some v else Some t
          end).
  rewrite (IH u Hq).
  apply Forall_inv in Ht.
  destruct (Z.gtb_spec (priority (ths u)) (priority (ths t))); [lia |].
  reflexivity.
Qed.

Lemma list_insert_ordered_back {E : Type} (key : E -> Z) (x : E) l :
  (forall e, In e l -> key e >= key x) ->
  list_insert_ordered (priority_semaphore_compare key) x l = l ++ [x].
Proof.
  induction l as [| e r IH]; intros Hl; [reflexivity |].
  cbn. unfold priority_semaphore_compare at 1.
  destruct (Z.gtb_spec (key x) (key e)) as [Hgt | _].
  - specialize (Hl e (or_introl eq_refl)). lia.
  - rewrite IH; [reflexivity |]. intros e' He'. apply Hl. now right.
Qed.

Lemma block_all_priority q : forall ths x,
  priority (block_all q ths x) = priority (ths x).
Proof.
  induction q as [| t q IH]; intros ths x; [reflexivity |].
  cbn. unfold block_all in IH. rewrite IH. apply thread_block_priority.
Qed.

Lemma block_all_notin q : forall ths x,
  ~ In x q -> block_all q ths x = ths x.
Proof.
  induction q as [| t q IH]; intros ths x Hn; [reflexivity |].
  cbn. unfold block_all in IH. rewrite IH by (cbn in Hn; tauto).
  unfold thread_block. apply update_neq. cbn in Hn. intuition congruence.
Qed.

Lemma block_all_in q : forall ths x,
  In x q -> block_all q ths x = set_status THREAD_BLOCKED (ths x).
Proof.
  induction q as [| t q IH]; intros ths x Hin; [contradiction |].
  cbn. fold (block_all q (thread_block t ths)).
  destruct (in_dec Nat.eq_dec x q) as [Hq | Hq].
  - rewrite IH by assumption. unfold thread_block, update.
    destruct (Nat.eqb_spec x t); subst; reflexivity.
  - rewrite block_all_notin by assumption.
    destruct Hin as [-> | Hin]; [| contradiction].
    unfold thread_block. now rewrite update_eq.
Qed.

(** With the unit taken, the woken threads that retry in priority order each
    find the value at 0, are queued again at the back and block. *)
Lemma retry_all_requeues : forall rest done ths fuel,
  (length rest <= fuel)%nat ->
  priority_strictly_descending ths (done ++ rest) ->
  retry_all fuel ths (mkSema 0 done) rest
  = (block_all rest ths, mkSema 0 (done ++ rest),
     map (fun t => (t, Blocked)) rest).
Proof.
  induction rest as [| t rest IH]; intros done ths fuel Hf Hs.
  - rewrite app_nil_r. destruct fuel; reflexivity.
  - destruct fuel as [| fuel]; [cbn in Hf; lia |].
    assert (Hrest : priority_strictly_descending ths (t :: rest)).
    { clear -Hs. induction done as [| d done IHd]; [exact Hs |].
      apply IHd. now apply StronglySorted_inv in Hs. }
    assert (Hdone : forall e, In e done ->
                      thread_elem_priority ths e >= thread_elem_priority ths t).
    { clear -Hs. unfold thread_elem_priority.
      induction done as [| d done IHd]; intros e He; [contradiction |].
      cbn in Hs. apply StronglySorted_inv in Hs. destruct Hs as [Hs Hd].
      destruct He as [<- | He]; [| now apply IHd].
      rewrite Forall_forall in Hd.
      specialize (Hd t ltac:(apply in_or_app; right; now left)). lia. }
    cbn [retry_all]. rewrite first_candidate_front by assumption.
    unfold sema_down_pass. cbn [value waiters Z.eqb].
    rewrite list_insert_ordered_back by assumption.
    cbn [list_remove]. rewrite Nat.eqb_refl.
    rewrite IH.
    + cbn. now rewrite <- app_assoc.
    + cbn in Hf. lia.
    + rewrite <- app_assoc. cbn.
      eapply priority_strictly_descending_ext; [| exact Hs].
      intros x. apply thread_block_priority.
Qed.

(** C8.  Threads [A :: rest] are blocked on a semaphore, queued with
    strictly falling priorities ([A] first; for two threads A and B this is
    priority(A) > priority(B)), and no priority changes.  After one
    [sema_up], with the woken threads retrying in the scheduler's order, [A]
    passes the decrement first and every other woken thread is queued again
    and blocks; the semaphore, every thread record and the preemption
    decision end up the same as when only [A] is woken. *)
Theorem broadcast_wake_equals_wake_one :
  forall ths cur A rest,
    NoDup (A :: rest) ->
    priority_strictly_descending ths (A :: rest) ->
    (forall t, In t (A :: rest) -> status (ths t) = THREAD_BLOCKED) ->
    exists ths2 ths2' y,
      sema_up_then_retries ths cur (mkSema 0 (A :: rest))
      = (ths2, mkSema 0 rest,
         (A, Passed) :: map (fun t => (t, Blocked)) rest, y)
      /\ wake_one_then_retry ths cur (mkSema 0 (A :: rest))
         = (ths2', mkSema 0 rest, [(A, Passed)], y)
      /\ (forall t, ths2 t = ths2' t)
      /\ status (ths2 A) = THREAD_READY
      /\ (forall t, In t rest -> status (ths2 t) = THREAD_BLOCKED).
Proof.
  intros ths cur A rest Hnd Hs Hblocked.
  set (ths1 := fold_right thread_unblock ths (A :: rest)).
  assert (Hp1 : forall t, priority (ths1 t) = priority (ths t))
    by (intros t; apply fold_unblock_priority).
  assert (Hs1 : priority_strictly_descending ths1 (A :: rest))
    by (eapply priority_strictly_descending_ext; eauto).
  assert (HA : ~ In A rest) by (now inversion Hnd).
  exists (block_all rest ths1), (thread_unblock A ths),
         (priority (ths A) >? priority (ths cur)).
  split; [| split; [| split; [| split]]].
  - unfold sema_up_then_retries. rewrite sema_up_unfold.
    cbn [waiters value length].
    change (wrap32 (0 + 1)) with 1.
    rewrite fold_unblock_in by (now left).
    cbn [thread_status_eqb]. rewrite andb_true_r.
    fold ths1.
    cbn [retry_all]. rewrite first_candidate_front by assumption.
    unfold sema_down_pass at 1. cbn [value waiters Z.eqb].
    change (wrap32 (1 - 1)) with 0.
    cbn [list_remove]. rewrite Nat.eqb_refl.
    rewrite retry_all_requeues.
    + reflexivity.
    + lia.
    + cbn. now apply StronglySorted_inv in Hs1.
  - unfold wake_one_then_retry, sema_up_wake_one.
    cbn [waiters value list_pop_front firstn].
    change (wrap32 (0 + 1)) with 1.
    cbn [retry_all first_candidate].
    unfold sema_down_pass. cbn [value waiters Z.eqb].
    change (wrap32 (1 - 1)) with 0.
    rewrite !thread_unblock_priority.
    replace (status (thread_unblock A ths A)) with THREAD_READY
      by (unfold thread_unblock; now rewrite update_eq).
    cbn [thread_status_eqb]. rewrite andb_true_r. reflexivity.
  - intros t. destruct (in_dec Nat.eq_dec t rest) as [Hin | Hnin].
    + rewrite block_all_in by assumption.
      unfold ths1. rewrite fold_unblock_in_record by (now right).
      rewrite thread_unblock_status_other by (intros ->; contradiction).
      specialize (Hblocked t (or_intror Hin)).
      destruct (ths t); cbn in *. now subst.
    + rewrite block_all_notin by assumption. unfold ths1.
      destruct (Nat.eq_dec t A) as [-> | Hne].
      * rewrite fold_unblock_in_record by (now left).
        unfold thread_unblock. now rewrite update_eq.
      * rewrite fold_unblock_notin by (cbn; intuition congruence).
        now rewrite thread_unblock_status_other.
  - rewrite block_all_notin by assumption.
    unfold ths1. apply fold_unblock_in. now left.
  - intros t Hin. now rewrite block_all_in.
Qed.

Lemma broadcast_wake_equals_wake_one_witness :
  semas two_waiters 0%nat = mkSema 0 [3%nat; 2%nat]
  /\ exists ths2 ths2' y,
      sema_up_then_retries (threads two_waiters) 0%nat
        (mkSema 0 [3%nat; 2%nat])
      = (ths2, mkSema 0 [2%nat],
         (3%nat, Passed) :: map (fun t => (t, Blocked)) [2%nat], y)
      /\ wake_one_then_retry (threads two_waiters) 0%nat
           (mkSema 0 [3%nat; 2%nat])
         = (ths2', mkSema 0 [2%nat], [(3%nat, Passed)], y)
      /\ (forall t, ths2 t = ths2' t)
      /\ status (ths2 3%nat) = THREAD_READY
      /\ (forall t, In t [2%nat] -> status (ths2 t) = THREAD_BLOCKED).
Proof.
  split; [vm_compute; reflexivity |].
  apply (broadcast_wake_equals_wake_one (threads two_waiters)
           0%nat 3%nat [2%nat]).
  - repeat constructor; cbn; intuition discriminate.
  - unfold priority_strictly_descending.
    repeat constructor.
  - intros t [<- | [<- | []]]; vm_compute; reflexivity.
Defined.

(** * Further properties of the code *)

(** ** Where [sema_down] queues the caller *)

Lemma list_insert_ordered_split {E : Type} (key : E -> Z) (x : E) l :
  exists front back,
    l = front ++ back
    /\ list_insert_ordered (priority_semaphore_compare key) x l
       = front ++ x :: back
    /\ (forall e, In e front -> key e >= key x)
    /\ (forall b rest, back = b :: rest -> key b < key x).
Proof.
  induction l as [| e r IH].
  - exists [], []. cbn. repeat split; try tauto. discriminate.
  - cbn. unfold priority_semaphore_compare at 1.
    destruct (Z.gtb_spec (key x) (key e)) as [Hgt | Hle].
    + exists [], (e :: r). cbn. repeat split; try tauto.
      intros b rest [= <- _]. lia.
    + destruct IH as (front & back & Hl & Hins & Hfront & Hback).
      exists (e :: front), back. cbn. rewrite Hins, <- Hl.
      repeat split; try assumption.
      intros e' [<- | He']; [lia | now apply Hfront].
Qed.

(** A thread that finds the value at 0 in [sema_down] is queued behind every
    queued thread whose priority is at least its own as far as the first
    thread of lower priority, and blocks; the value and the other threads
    are untouched.  If the queue was descending by priority, everything
    behind the caller has a lower priority and the queue is still
    descending: the caller is placed behind the threads of its own priority
    that are queued already.  This fixes the place in the queue only; the
    order in which queued threads get the semaphore is not part of it.  The
    priority is the one the comparator reads through a thread's list
    element, [thread_elem_priority]. *)
Theorem sema_down_queues_by_priority :
  forall ths cur sema,
    value sema = 0 ->
    exists front back,
      waiters sema = front ++ back
      /\ sema_down_pass ths cur sema
         = (thread_block cur ths, mkSema 0 (front ++ cur :: back), Blocked)
      /\ status (thread_block cur ths cur) = THREAD_BLOCKED
      /\ (forall t, t <> cur -> thread_block cur ths t = ths t)
      /\ (forall t, In t front -> priority (ths t) >= priority (ths cur))
      /\ (forall b rest, back = b :: rest ->
                         priority (ths b) < priority (ths cur))
      /\ (priority_descending ths (waiters sema) ->
          (forall t, In t back -> priority (ths t) < priority (ths cur))
          /\ priority_descending (thread_block cur ths)
               (front ++ cur :: back)).
Proof.
  intros ths cur sema Hv.
  destruct (list_insert_ordered_split (thread_elem_priority ths) cur
              (waiters sema))
    as (front & back & Hq & Hins & Hfront & Hback).
  exists front, back.
  split; [exact Hq |].
  split; [unfold sema_down_pass; now rewrite Hv, Hins |].
  split; [unfold thread_block; now rewrite update_eq |].
  split; [intros t Ht; unfold thread_block; now apply update_neq |].
  split; [exact Hfront |].
  split; [exact Hback |].
  intros Hs. split.
  - intros t Ht. destruct back as [| b rest]; [contradiction |].
    specialize (Hback b rest eq_refl). unfold thread_elem_priority in Hback.
    destruct Ht as [<- | Ht]; [exact Hback |].
    rewrite Hq in Hs. unfold priority_descending in Hs.
    clear -Hs Ht Hback.
    induction front as [| f front IH].
    + cbn in Hs. apply StronglySorted_inv in Hs. destruct Hs as [_ Hall].
      rewrite Forall_forall in Hall. specialize (Hall t Ht). lia.
    + apply IH. cbn in Hs. now apply StronglySorted_inv in Hs.
  - pose proof (sema_down_pass_keeps_order ths cur sema Hs) as Hkeep.
    unfold sema_down_pass in Hkeep. rewrite Hv, Hins in Hkeep.
    exact Hkeep.
Qed.

Lemma sema_down_queues_by_priority_witness :
  let st :=
    state_after [CallSemaDown 6%nat 0%nat; CallSemaDown 3%nat 0%nat;
                 CallSemaDown 1%nat 0%nat] in
  waiters (semas st 0%nat) = [6%nat; 3%nat; 1%nat]
  /\ priority (threads st 7%nat) = priority (threads st 6%nat)
  /\ exists front back,
       waiters (semas st 0%nat) = front ++ back
       /\ sema_down_pass (threads st) 7%nat (semas st 0%nat)
          = (thread_block 7%nat (threads st),
             mkSema 0 (front ++ 7%nat :: back), Blocked)
       /\ (forall t, In t front ->
                     priority (threads st t) >= priority (threads st 7%nat))
       /\ (forall t, In t back ->
                     priority (threads st t) < priority (threads st 7%nat)).
Proof.
  cbv zeta.
  set (st := state_after [CallSemaDown 6%nat 0%nat; CallSemaDown 3%nat 0%nat;
                          CallSemaDown 1%nat 0%nat]).
  assert (Hq : waiters (semas st 0%nat) = [6%nat; 3%nat; 1%nat])
    by (vm_compute; reflexivity).
  split; [exact Hq |].
  split; [vm_compute; reflexivity |].
  destruct (sema_down_queues_by_priority (threads st) 7%nat (semas st 0%nat))
    as (front & back & Hsplit & Hrun & _ & _ & Hfront & _ & Hsorted).
  { vm_compute. reflexivity. }
  exists front, back. split; [exact Hsplit |]. split; [exact Hrun |].
  split; [exact Hfront |].
  apply Hsorted. rewrite Hq. unfold priority_descending.
  repeat constructor; vm_compute; discriminate.
Defined.

(** ** An up followed by a try-down *)



(** ** Donation, for any graph of holders *)

Lemma donation_effect_refl cur st : donation_effect cur st st.
Proof. unfold donation_effect. repeat split; auto. Qed.

Lemma donation_effect_cur cur st st' :
  donation_effect cur st st' -> threads st' cur = threads st cur.
Proof.
  intros (_ & _ & _ & _ & Ht). destruct (Ht cur) as [H | [H _]]; [exact H | lia].
Qed.

Lemma donation_effect_trans cur st st1 st2 :
  donation_effect cur st st1 -> donation_effect cur st1 st2 ->
  donation_effect cur st st2.
Proof.
  intros H1 H2. pose proof (donation_effect_cur cur st st1 H1) as Hcur.
  destruct H1 as (Hs1 & He1 & Hc1 & Hl1 & Ht1).
  destruct H2 as (Hs2 & He2 & Hc2 & Hl2 & Ht2).
  rewrite Hcur in Hl2, Ht2.
  split; [congruence |]. split; [congruence |]. split; [congruence |].
  split.
  - intros l. destruct (Hl1 l) as (Hh1 & Hsem1 & Hp1).
    destruct (Hl2 l) as (Hh2 & Hsem2 & Hp2).
    split; [congruence |]. split; [congruence |].
    destruct Hp1 as [Hp1 | [Hlt1 Hp1]], Hp2 as [Hp2 | [Hlt2 Hp2]].
    + left. congruence.
    + right. rewrite Hp1 in Hlt2. auto.
    + right. rewrite Hp2. auto.
    + lia.
  - intros t.
    destruct (Ht1 t) as [Ha | [Hlt1 Ha]], (Ht2 t) as [Hb | [Hlt2 Hb]].
    + left. congruence.
    + right. rewrite Ha in Hlt2, Hb. auto.
    + right. rewrite Hb. auto.
    + rewrite Ha in Hlt2. cbn in Hlt2. lia.
Qed.

Lemma donate_once_effect st cur h ln :
  priority (threads st h) < priority (threads st cur) ->
  donation_effect cur st (donate_once st cur h ln).
Proof.
  intros Hlt. unfold donation_effect.
  assert (Hths : forall t,
             threads (donate_once st cur h ln) t = threads st t
             \/ (priority (threads st t) < priority (threads st cur)
                 /\ threads (donate_once st cur h ln) t
                    = donated_to (priority (threads st cur)) (threads st t))).
  { intros t. rewrite donate_once_threads.
    unfold thread_given_set_priority, update.
    destruct (Nat.eqb_spec t h) as [-> | Hne]; [right | left]; auto. }
  unfold donate_once.
  destruct (priority_lock
              (lockmap
                 (with_threads st
                    (thread_given_set_priority (threads st) h
                       (priority (threads st cur)) true)) ln)
            <? priority
                 (threads
                    (with_threads st
                       (thread_given_set_priority (threads st) h
                          (priority (threads st cur)) true)) cur)) eqn:Elt.
  - pose proof Hths as Hths'. unfold donate_once in Hths'.
    rewrite Elt in Hths'.
    split; [reflexivity |]. split; [reflexivity |]. split; [reflexivity |].
    split; [| exact Hths'].
    intros l. cbn. unfold update.
    destruct (Nat.eqb_spec l ln) as [-> | Hne]; cbn; [| auto].
    split; [reflexivity |]. split; [reflexivity |].
    right. apply Z.ltb_lt in Elt. cbn in Elt.
    unfold thread_given_set_priority in Elt |- *.
    assert (Hc : cur <> h) by (intros ->; lia).
    rewrite update_neq in Elt |- * by assumption. auto.
  - pose proof Hths as Hths'. unfold donate_once in Hths'.
    rewrite Elt in Hths'.
    split; [reflexivity |]. split; [reflexivity |]. split; [reflexivity |].
    split; [| exact Hths']. intros l. cbn. auto.
Qed.

(** With fuel above the number of hops that LOCK_LEVEL still allows, the
    walk ends, and it has only raised threads and ceilings to the caller's
    priority. *)
Lemma donate_walk_effect LOCK_LEVEL thread_mlfqs cur :
  forall fuel st lock_holder lock_next iter,
    (Z.to_nat (LOCK_LEVEL - iter) < fuel)%nat ->
    exists st',
      donate_walk LOCK_LEVEL thread_mlfqs fuel st cur lock_holder lock_next iter
      = Some st'
      /\ donation_effect cur st st'.
Proof.
  induction fuel as [| fuel IH]; intros st lh ln iter Hf; [lia |].
  destruct lh as [h |]; cbn [donate_walk].
  2:{ exists st. split; [reflexivity | apply donation_effect_refl]. }
  destruct (negb thread_mlfqs
            && (priority (threads st h) <? priority (threads st cur))) eqn:Ec.
  2:{ exists st. split; [reflexivity | apply donation_effect_refl]. }
  apply andb_prop in Ec. destruct Ec as [_ Hlt]. apply Z.ltb_lt in Hlt.
  pose proof (donate_once_effect st cur h ln Hlt) as Heff.
  destruct (waiting_for_lock (threads (donate_once st cur h ln) h)) as [l' |].
  2:{ eexists. split; [reflexivity | exact Heff]. }
  destruct (Z.ltb_spec iter LOCK_LEVEL) as [Hgo | Hstop].
  2:{ eexists. split; [reflexivity | exact Heff]. }
  destruct (IH (donate_once st cur h ln)
              (holder (lockmap (donate_once st cur h ln) l')) l' (iter + 1))
    as (st' & Hrun & Heff').
  { lia. }
  exists st'. split; [exact Hrun |].
  eapply donation_effect_trans; eauto.
Qed.

Lemma lock_acquire_donate_effect LOCK_LEVEL thread_mlfqs st cur l :
  exists st1,
    lock_acquire_donate LOCK_LEVEL thread_mlfqs st cur l = Some st1
    /\ semas st1 = semas st /\ elems st1 = elems st /\ conds st1 = conds st
    /\ (forall l',
          holder (lockmap st1 l') = holder (lockmap st l')
          /\ l_semaphore (lockmap st1 l') = l_semaphore (lockmap st l')
          /\ (priority_lock (lockmap st1 l') = priority_lock (lockmap st l')
              \/ (priority_lock (lockmap st l') < priority (threads st cur)
                  /\ priority_lock (lockmap st1 l')
                     = priority (threads st cur))))
    /\ threads st1 cur
       = match holder (lockmap st l) with
         | Some _ => if negb thread_mlfqs
                     then set_waiting_for_lock (Some l) (threads st cur)
                     else threads st cur
         | None => threads st cur
         end
    /\ (forall t, t <> cur ->
          threads st1 t = threads st t
          \/ (priority (threads st t) < priority (threads st cur)
              /\ threads st1 t
                 = donated_to (priority (threads st cur)) (threads st t))).
Proof.
  unfold lock_acquire_donate.
  set (st0 := match holder (lockmap st l) with
              | Some _ =>
                  if negb thread_mlfqs
                  then with_threads st
                         (update (threads st) cur
                            (set_waiting_for_lock (Some l) (threads st cur)))
                  else st
              | None => st
              end).
  assert (H0 : semas st0 = semas st /\ elems st0 = elems st
               /\ conds st0 = conds st /\ lockmap st0 = lockmap st
               /\ priority (threads st0 cur) = priority (threads st cur)
               /\ (forall t, t <> cur -> threads st0 t = threads st t)
               /\ threads st0 cur
                  = match holder (lockmap st l) with
                    | Some _ =>
                        if negb thread_mlfqs
                        then set_waiting_for_lock (Some l) (threads st cur)
                        else threads st cur
                    | None => threads st cur
                    end).
  { unfold st0. destruct (holder (lockmap st l)); [| repeat split; reflexivity].
    destruct (negb thread_mlfqs); [| repeat split; reflexivity].
    cbn. rewrite update_eq.
    split; [reflexivity |]. split; [reflexivity |]. split; [reflexivity |].
    split; [reflexivity |]. split; [reflexivity |].
    split; [| reflexivity]. intros x Hx. now apply update_neq. }
  destruct H0 as (Hs0 & He0 & Hc0 & Hl0 & Hp0 & Ht0 & Hcur0).
  destruct (donate_walk_effect LOCK_LEVEL thread_mlfqs cur
              (S (Z.to_nat LOCK_LEVEL)) st0 (holder (lockmap st0 l)) l 0)
    as (st1 & Hrun & Heff).
  { rewrite Z.sub_0_r. lia. }
  exists st1. split; [exact Hrun |].
  pose proof (donation_effect_cur cur st0 st1 Heff) as Hcur1.
  destruct Heff as (Hs1 & He1 & Hc1 & Hl1 & Ht1).
  split; [congruence |]. split; [congruence |]. split; [congruence |].
  split.
  { intros l'. specialize (Hl1 l'). rewrite Hl0, Hp0 in Hl1. exact Hl1. }
  split; [congruence |].
  intros t Ht. specialize (Ht1 t). rewrite Hp0, (Ht0 t Ht) in Ht1. exact Ht1.
Qed.

Lemma lock_acquire_retry_cases thread_mlfqs st cur l :
  (value (l_semaphore (lockmap st l)) = 0 ->
   snd (lock_acquire_retry thread_mlfqs st cur l) = Blocked
   /\ threads (fst (lock_acquire_retry thread_mlfqs st cur l))
      = thread_block cur (threads st)
   /\ lockmap (fst (lock_acquire_retry thread_mlfqs st cur l))
      = update (lockmap st) l
          (set_l_semaphore
             (mkSema 0
                (list_insert_ordered
                   (priority_semaphore_compare
                      (thread_elem_priority (threads st)))
                   cur (waiters (l_semaphore (lockmap st l)))))
             (lockmap st l)))
  /\ (value (l_semaphore (lockmap st l)) <> 0 ->
      lock_acquire_retry thread_mlfqs st cur l
      = (lock_acquire_finish thread_mlfqs
           (with_lock st l
              (set_l_semaphore
                 (mkSema (wrap32 (value (l_semaphore (lockmap st l)) - 1))
                         (waiters (l_semaphore (lockmap st l))))
                 (lockmap st l)))
           cur l,
         Passed)).
Proof.
  unfold lock_acquire_retry, lock_sema_down_pass, sema_down_pass. split.
  - intros Hv. rewrite Hv. cbn. repeat split; reflexivity.
  - intros Hv. apply Z.eqb_neq in Hv. rewrite Hv.
    destruct st; reflexivity.
Qed.

Lemma donate_walk_first LOCK_LEVEL cur fuel st h ln iter :
  (Z.to_nat (LOCK_LEVEL - iter) < fuel)%nat ->
  priority (threads st h) < priority (threads st cur) ->
  exists st',
    donate_walk LOCK_LEVEL false fuel st cur (Some h) ln iter = Some st'
    /\ threads st' h = donated_to (priority (threads st cur)) (threads st h)
    /\ priority_lock (lockmap st' ln) >= priority (threads st cur).
Proof.
  intros Hf Hlt. destruct fuel as [| fuel]; [lia |].
  cbn [donate_walk negb andb].
  apply Z.ltb_lt in Hlt. rewrite Hlt. apply Z.ltb_lt in Hlt.
  assert (Hc : cur <> h) by (intros ->; lia).
  set (st2 := donate_once st cur h ln).
  assert (Hh2 : threads st2 h
                = donated_to (priority (threads st cur)) (threads st h)).
  { unfold st2. rewrite donate_once_threads.
    unfold thread_given_set_priority. now rewrite update_eq. }
  assert (Hcur2 : threads st2 cur = threads st cur)
    by (apply donate_once_other; assumption).
  assert (Hpl2 : priority_lock (lockmap st2 ln) >= priority (threads st cur)).
  { unfold st2, donate_once. cbn [threads with_threads lockmap].
    unfold thread_given_set_priority at 1. rewrite update_neq by assumption.
    destruct (Z.ltb_spec (priority_lock (lockmap st ln))
                (priority (threads st cur))) as [Hl | Hl].
    - cbn. rewrite update_eq. cbn.
      unfold thread_given_set_priority. rewrite update_neq by assumption.
      lia.
    - cbn. lia. }
  assert (Hstop : exists st',
             Some st2 = Some st'
             /\ threads st' h
                = donated_to (priority (threads st cur)) (threads st h)
             /\ priority_lock (lockmap st' ln) >= priority (threads st cur))
    by (exists st2; auto).
  destruct (waiting_for_lock (threads st2 h)) as [l' |]; [| exact Hstop].
  destruct (Z.ltb_spec iter LOCK_LEVEL) as [Hgo | _]; [| exact Hstop].
  destruct (donate_walk_effect LOCK_LEVEL false cur fuel st2
              (holder (lockmap st2 l')) l' (iter + 1))
    as (st' & Hrun & Heff); [lia |].
  exists st'. split; [exact Hrun |].
  destruct Heff as (_ & _ & _ & Hl & Ht). rewrite Hcur2 in Hl, Ht. split.
  - destruct (Ht h) as [Hsame | [Hbad _]]; [congruence |].
    rewrite Hh2 in Hbad. cbn in Hbad. lia.
  - destruct (Hl ln) as (_ & _ & [Hsame | [_ Hraised]]); lia.
Qed.

Lemma lock_acquire_donate_first LOCK_LEVEL st cur l h :
  holder (lockmap st l) = Some h ->
  h <> cur ->
  priority (threads st h) < priority (threads st cur) ->
  exists st1,
    lock_acquire_donate LOCK_LEVEL false st cur l = Some st1
    /\ threads st1 h = donated_to (priority (threads st cur)) (threads st h)
    /\ priority_lock (lockmap st1 l) >= priority (threads st cur).
Proof.
  intros Hh Hne Hlt. unfold lock_acquire_donate. rewrite Hh. cbn [negb].
  set (st0 := with_threads st
                (update (threads st) cur
                   (set_waiting_for_lock (Some l) (threads st cur)))).
  change (holder (lockmap st0 l)) with (holder (lockmap st l)). rewrite Hh.
  assert (Hh0 : threads st0 h = threads st h)
    by (cbn; now apply update_neq).
  assert (Hc0 : priority (threads st0 cur) = priority (threads st cur))
    by (cbn; now rewrite update_eq).
  destruct (donate_walk_first LOCK_LEVEL cur (S (Z.to_nat LOCK_LEVEL)) st0 h l 0)
    as (st1 & Hrun & Hth & Hpl).
  { rewrite Z.sub_0_r. lia. }
  { rewrite Hh0, Hc0. exact Hlt. }
  exists st1. rewrite <- Hh0, <- Hc0. auto.
Qed.

Lemma lock_acquire_retry_keeps thread_mlfqs st cur l :
  (forall t,
     priority (threads (fst (lock_acquire_retry thread_mlfqs st cur l)) t)
     = priority (threads st t)
     /\ priority_original
          (threads (fst (lock_acquire_retry thread_mlfqs st cur l)) t)
        = priority_original (threads st t)
     /\ is_donated (threads (fst (lock_acquire_retry thread_mlfqs st cur l)) t)
        = is_donated (threads st t))
  /\ (forall l',
        priority_lock (lockmap (fst (lock_acquire_retry thread_mlfqs st cur l)) l')
        = priority_lock (lockmap st l')).
Proof.
  unfold lock_acquire_retry, lock_sema_down_pass, sema_down_pass.
  destruct (value (l_semaphore (lockmap st l)) =? 0); cbn [fst].
  - split.
    + intros t. cbn. unfold thread_block, update.
      destruct (Nat.eqb t cur) eqn:E; [| repeat split; reflexivity].
      apply Nat.eqb_eq in E. subst. repeat split; reflexivity.
    + intros l'. cbn. unfold update.
      destruct (Nat.eqb l' l) eqn:E; [| reflexivity].
      apply Nat.eqb_eq in E. now subst.
  - unfold lock_acquire_finish. split.
    + intros t. destruct thread_mlfqs; cbn; [repeat split; reflexivity |].
      unfold update.
      destruct (Nat.eqb t cur) eqn:E; [| repeat split; reflexivity].
      apply Nat.eqb_eq in E. subst. rewrite !Nat.eqb_refl.
      repeat split; reflexivity.
    + intros l'. destruct thread_mlfqs; cbn; unfold update;
        destruct (Nat.eqb_spec l' l); subst; rewrite ?Nat.eqb_refl;
        reflexivity.
Qed.

(** In donation-enabled mode [lock_acquire] fails only its assertion, when
    the caller already holds the lock.  Called on a lock held by another
    thread, it leaves the holder with a priority at least the caller's; a
    holder that was below is raised to the caller's priority and marked
    donated, and the lock's ceiling ends at least as high.  No thread's
    priority is lowered: each is unchanged or was below the caller's and is
    now equal to it; base priorities are untouched.  If the lock's semaphore
    is at 0 the caller ends blocked in the lock's queue, recorded as waiting
    for the lock, and the holder is unchanged. *)
Theorem lock_acquire_donates :
  forall LOCK_LEVEL st cur l,
    (lock_acquire LOCK_LEVEL false st cur l = None
     <-> holder (lockmap st l) = Some cur)
    /\ (forall h,
          holder (lockmap st l) = Some h ->
          h <> cur ->
          exists st' r,
            lock_acquire LOCK_LEVEL false st cur l = Some (st', r)
            /\ priority (threads st' h) >= priority (threads st cur)
            /\ (priority (threads st h) < priority (threads st cur) ->
                priority (threads st' h) = priority (threads st cur)
                /\ is_donated (threads st' h) = true
                /\ priority_lock (lockmap st' l) >= priority (threads st cur))
            /\ (forall t,
                  priority (threads st' t) = priority (threads st t)
                  \/ (priority (threads st t) < priority (threads st cur)
                      /\ priority (threads st' t) = priority (threads st cur)
                      /\ is_donated (threads st' t) = true))
            /\ (forall t, priority_original (threads st' t)
                          = priority_original (threads st t))
            /\ (value (l_semaphore (lockmap st l)) = 0 ->
                r = Blocked
                /\ holder (lockmap st' l) = Some h
                /\ waiting_for_lock (threads st' cur) = Some l
                /\ status (threads st' cur) = THREAD_BLOCKED
                /\ In cur (waiters (l_semaphore (lockmap st' l))))).
Proof.
  intros LL st cur l.
  destruct (lock_acquire_donate_effect LL false st cur l)
    as (st1 & Hrun & _ & _ & _ & Hl1 & Hcur1 & Ht1).
  split.
  { unfold lock_acquire. rewrite Hrun.
    destruct (lock_held_by_current_thread st cur l) eqn:Hheld.
    - apply lock_held_by_current_thread_true in Hheld. tauto.
    - apply lock_held_by_current_thread_false in Hheld.
      split; [discriminate | contradiction]. }
  intros h Hh Hne.
  assert (Hnot : lock_held_by_current_thread st cur l = false).
  { apply lock_held_by_current_thread_false. rewrite Hh. congruence. }
  destruct (lock_acquire_retry_keeps false st1 cur l) as [Hkt Hkl].
  exists (fst (lock_acquire_retry false st1 cur l)),
         (snd (lock_acquire_retry false st1 cur l)).
  assert (Hall : forall t,
             priority (threads st1 t) = priority (threads st t)
             /\ priority_original (threads st1 t)
                = priority_original (threads st t)
             /\ is_donated (threads st1 t) = is_donated (threads st t)
             \/ (priority (threads st t) < priority (threads st cur)
                 /\ threads st1 t
                    = donated_to (priority (threads st cur)) (threads st t))).
  { intros t. destruct (Nat.eq_dec t cur) as [-> | Htc].
    - left. rewrite Hcur1, Hh. cbn. auto.
    - destruct (Ht1 t Htc) as [-> | Hd]; auto. }
  split.
  { unfold lock_acquire. rewrite Hnot, Hrun.
    now destruct (lock_acquire_retry false st1 cur l). }
  split.
  { destruct (Hkt h) as (-> & _ & _).
    destruct (Z.lt_ge_cases (priority (threads st h))
                (priority (threads st cur))) as [Hlt | Hge].
    - destruct (lock_acquire_donate_first LL st cur l h Hh Hne Hlt)
        as (st1' & Hrun' & Hth & _).
      rewrite Hrun in Hrun'. injection Hrun' as <-.
      rewrite Hth. cbn. lia.
    - destruct (Hall h) as [(-> & _) | (Hlt & _)]; lia. }
  split.
  { intros Hlt.
    destruct (lock_acquire_donate_first LL st cur l h Hh Hne Hlt)
      as (st1' & Hrun' & Hth & Hpl).
    rewrite Hrun in Hrun'. injection Hrun' as <-.
    destruct (Hkt h) as (-> & _ & ->). rewrite Hkl, Hth.
    split; [reflexivity |]. split; [reflexivity | exact Hpl]. }
  split.
  { intros t. destruct (Hkt t) as (-> & _ & ->).
    destruct (Hall t) as [(-> & _) | (Hlt & ->)]; [now left |].
    right. split; [exact Hlt |]. split; reflexivity. }
  split.
  { intros t. destruct (Hkt t) as (_ & -> & _).
    destruct (Hall t) as [(_ & -> & _) | (_ & ->)]; reflexivity. }
  intros Hv.
  destruct (Hl1 l) as (Hh1 & Hs1 & _).
  destruct (lock_acquire_retry_cases false st1 cur l) as [Hblk _].
  rewrite Hs1 in Hblk. destruct (Hblk Hv) as (Hr & Hths & Hlocks).
  split; [exact Hr |].
  rewrite Hths, Hlocks, update_eq. cbn [holder set_l_semaphore l_semaphore waiters].
  split; [congruence |].
  unfold thread_block. rewrite update_eq. cbn.
  split; [rewrite Hcur1, Hh; reflexivity |].
  split; [reflexivity |].
  apply list_insert_ordered_in. now left.
Qed.

Lemma lock_acquire_donates_witness :
  exists st' r,
    lock_acquire 8 false lock_held_by_one 3%nat 0%nat = Some (st', r)
    /\ priority (threads st' 1%nat) >= priority (threads lock_held_by_one 3%nat)
    /\ r = Blocked.
Proof.
  destruct (lock_acquire_donates 8 lock_held_by_one 3%nat 0%nat) as [_ H].
  destruct (H 1%nat) as (st' & r & Hrun & Hge & _ & _ & _ & Hblk).
  - vm_compute. reflexivity.
  - discriminate.
  - exists st', r. split; [exact Hrun |]. split; [exact Hge |].
    apply Hblk. vm_compute. reflexivity.
Defined.

(** ** The rate-based mode *)

Lemma same_but_status_refl a : same_but_status a a.
Proof. unfold same_but_status. auto. Qed.

Lemma same_but_status_set s a : same_but_status (set_status s a) a.
Proof. unfold same_but_status. cbn. auto. Qed.

Lemma same_but_status_trans a b c :
  same_but_status a b -> same_but_status b c -> same_but_status a c.
Proof.
  unfold same_but_status. intros (? & ? & ? & ? & ?) (? & ? & ? & ? & ?).
  repeat split; congruence.
Qed.

Lemma fold_unblock_same_but_status ws ths x :
  same_but_status (fold_right thread_unblock ths ws x) (ths x).
Proof.
  induction ws as [| w ws IH]; cbn; [apply same_but_status_refl |].
  unfold thread_unblock at 1. unfold update.
  destruct (Nat.eqb_spec x w) as [-> | _]; [| exact IH].
  eapply same_but_status_trans; [apply same_but_status_set | exact IH].
Qed.

Lemma lock_acquire_donate_rate_based LOCK_LEVEL st cur l :
  lock_acquire_donate LOCK_LEVEL true st cur l = Some st.
Proof.
  unfold lock_acquire_donate. cbn [negb].
  destruct (holder (lockmap st l)) eqn:E; rewrite E; reflexivity.
Qed.

Lemma lock_acquire_retry_rate_based st cur l :
  (forall t, same_but_status
               (threads (fst (lock_acquire_retry true st cur l)) t)
               (threads st t))
  /\ (forall l', priority_lock (lockmap (fst (lock_acquire_retry true st cur l)) l')
                 = priority_lock (lockmap st l')).
Proof.
  split; [| apply lock_acquire_retry_keeps].
  intros t. unfold lock_acquire_retry, lock_sema_down_pass, sema_down_pass.
  destruct (value (l_semaphore (lockmap st l)) =? 0); cbn.
  - unfold thread_block, update.
    destruct (Nat.eqb_spec t cur) as [-> | _];
      [apply same_but_status_set | apply same_but_status_refl].
  - apply same_but_status_refl.
Qed.

(** In the rate-based mode [lock_acquire] and [lock_release] fail only their
    assertions, and whatever they return they have left every thread's
    priority, base priority, donated flag, waiting_for_lock and list of
    locks, and every lock's ceiling, as they were. *)
Theorem rate_based_mode_leaves_donation_state :
  forall LOCK_LEVEL PRIORITY_FAKE st cur l,
    (lock_acquire LOCK_LEVEL true st cur l = None
     <-> holder (lockmap st l) = Some cur)
    /\ (lock_release PRIORITY_FAKE true st cur l = None
        <-> holder (lockmap st l) <> Some cur)
    /\ (forall st' r,
          lock_acquire LOCK_LEVEL true st cur l = Some (st', r) ->
          (forall t, same_but_status (threads st' t) (threads st t))
          /\ (forall l', priority_lock (lockmap st' l')
                         = priority_lock (lockmap st l')))
    /\ (forall st' y,
          lock_release PRIORITY_FAKE true st cur l = Some (st', y) ->
          (forall t, same_but_status (threads st' t) (threads st t))
          /\ (forall l', priority_lock (lockmap st' l')
                         = priority_lock (lockmap st l'))).
Proof.
  intros LL PF st cur l.
  unfold lock_acquire, lock_release, lock_release_up.
  rewrite lock_acquire_donate_rate_based.
  destruct (lock_held_by_current_thread st cur l) eqn:Hheld.
  - apply lock_held_by_current_thread_true in Hheld.
    destruct (sema_up (threads (with_lock st l (set_holder None (lockmap st l))))
                cur
                (l_semaphore
                   (lockmap (with_lock st l (set_holder None (lockmap st l)))
                      l)))
      as [[ths' sema'] yield] eqn:Eup.
    rewrite sema_up_unfold in Eup. injection Eup as <- <- _.
    unfold lock_release_restore. cbn [negb].
    split; [tauto |].
    split; [split; [destruct yield; discriminate | contradiction] |].
    split; [discriminate |].
    intros st' y Hret.
    assert (Hst : st'
                  = with_lock
                      (with_threads
                         (with_lock st l (set_holder None (lockmap st l)))
                         (fold_right thread_unblock
                            (threads
                               (with_lock st l
                                  (set_holder None (lockmap st l))))
                            (waiters
                               (l_semaphore
                                  (lockmap
                                     (with_lock st l
                                        (set_holder None (lockmap st l)))
                                     l)))))
                      l
                      (set_l_semaphore
                         (mkSema
                            (wrap32
                               (value
                                  (l_semaphore
                                     (lockmap
                                        (with_lock st l
                                           (set_holder None (lockmap st l)))
                                        l)) + 1)) [])
                         (lockmap
                            (with_lock st l (set_holder None (lockmap st l)))
                            l)))
      by (destruct yield; injection Hret as <- _; reflexivity).
    subst st'. split.
    + intros t. apply fold_unblock_same_but_status.
    + intros l'. cbn. rewrite update_eq. unfold update.
      destruct (Nat.eqb_spec l' l) as [-> | _]; reflexivity.
  - apply lock_held_by_current_thread_false in Hheld.
    split; [split; [discriminate | contradiction] |].
    split; [tauto |].
    split; [| discriminate].
    intros st' r [= Hret].
    pose proof (lock_acquire_retry_rate_based st cur l) as Hkeep.
    rewrite Hret in Hkeep. exact Hkeep.
Qed.

Lemma rate_based_mode_leaves_donation_state_witness :
  exists st' r,
    lock_acquire 8 true lock_held_by_one 3%nat 0%nat = Some (st', r)
    /\ (forall t, same_but_status (threads st' t) (threads lock_held_by_one t))
    /\ (forall l', priority_lock (lockmap st' l')
                   = priority_lock (lockmap lock_held_by_one l')).
Proof.
  destruct (rate_based_mode_leaves_donation_state 8 (-1) lock_held_by_one
              3%nat 0%nat) as (Hnone & _ & Hacq & _).
  destruct (lock_acquire 8 true lock_held_by_one 3%nat 0%nat)
    as [[st' r] |] eqn:E.
  - exists st', r. split; [reflexivity |]. now apply (Hacq st' r).
  - assert (Hh : holder (lockmap lock_held_by_one 0%nat) = Some 3%nat)
      by (now apply Hnone).
    vm_compute in Hh. discriminate.
Defined.

(** ** Releasing a lock *)

Lemma list_remove_in_other x y l :
  y <> x -> (In y (list_remove x l) <-> In y l).
Proof.
  intros Hne. induction l as [| e r IH]; cbn; [tauto |].
  destruct (Nat.eqb_spec e x) as [-> | He]; cbn.
  - intuition congruence.
  - now rewrite IH.
Qed.

Lemma list_remove_in x y l : In y (list_remove x l) -> In y l.
Proof.
  induction l as [| e r IH]; cbn; [tauto |].
  destruct (Nat.eqb_spec e x); cbn; intuition.
Qed.

Lemma list_remove_nodup x l : NoDup l -> NoDup (list_remove x l).
Proof.
  induction l as [| e r IH]; cbn; intros Hnd; [constructor |].
  inversion Hnd as [| ? ? He Hr]; subst.
  destruct (Nat.eqb_spec e x); [assumption |].
  constructor; [| now apply IH].
  intros Hin. apply He. eapply list_remove_in; eauto.
Qed.

Lemma list_remove_gone x l : NoDup l -> ~ In x (list_remove x l).
Proof.
  induction l as [| e r IH]; cbn; intros Hnd; [tauto |].
  inversion Hnd as [| ? ? He Hr]; subst.
  destruct (Nat.eqb_spec e x) as [-> | Hne]; [assumption |].
  cbn. intros [Heq | Hin]; [congruence | now apply IH].
Qed.

Lemma list_remove_absent x l : ~ In x l -> list_remove x l = l.
Proof.
  induction l as [| e r IH]; cbn; intros Hn; [reflexivity |].
  destruct (Nat.eqb_spec e x) as [-> | Hne]; [tauto |].
  rewrite IH by tauto. reflexivity.
Qed.

(** The bookkeeping of [lock_release] in donation-enabled mode, field by
    field. *)
Lemma existsb_eqb_in (x : nat) l : existsb (Nat.eqb x) l = true <-> In x l.
Proof.
  rewrite existsb_exists. split.
  - intros (y & Hin & Heq). apply Nat.eqb_eq in Heq. now subst.
  - intros Hin. exists x. split; [exact Hin | apply Nat.eqb_refl].
Qed.

Lemma unlink_lock_linked l curr st :
  In l (locks (threads st curr)) ->
  unlink_lock l curr st
  = with_threads
      (with_list_fault st (list_fault st || lock_relinked st curr l))
      (remove_lock_elem l (threads st)).
Proof.
  intros Hin. apply existsb_eqb_in in Hin. unfold unlink_lock.
  now rewrite Hin.
Qed.

Lemma unlink_lock_unlinked l curr st :
  ~ In l (locks (threads st curr)) ->
  unlink_lock l curr st = with_list_fault st true.
Proof.
  intros Hn. unfold unlink_lock.
  destruct (existsb (Nat.eqb l) (locks (threads st curr))) eqn:E;
    [| reflexivity].
  apply existsb_eqb_in in E. contradiction.
Qed.

(** The bookkeeping leaves [list_fault] alone when the lock is in the
    caller's list, and sets it when it is not. *)
Lemma lock_release_restore_fault PRIORITY_FAKE st curr l :
  (In l (locks (threads st curr)) ->
   list_fault (lock_release_restore PRIORITY_FAKE false st curr l)
   = list_fault st || lock_relinked st curr l)
  /\ (~ In l (locks (threads st curr)) ->
      list_fault (lock_release_restore PRIORITY_FAKE false st curr l)
      = true).
Proof.
  unfold lock_release_restore. cbn [negb]. split.
  - intros Hin. rewrite unlink_lock_linked by assumption.
    repeat match goal with
           | |- context [match ?x with Some _ => _ | None => _ end] =>
               destruct x
           | |- context [if ?b then _ else _] => destruct b
           end; reflexivity.
  - intros Hn. rewrite unlink_lock_unlinked by assumption.
    repeat match goal with
           | |- context [match ?x with Some _ => _ | None => _ end] =>
               destruct x
           | |- context [if ?b then _ else _] => destruct b
           end; reflexivity.
Qed.

Lemma lock_relinked_false st curr l :
  (forall t, t <> curr -> ~ In l (locks (threads st t))) ->
  lock_relinked st curr l = false.
Proof.
  intros Hn. unfold lock_relinked.
  destruct (holder (lockmap st l)) as [h |]; [| reflexivity].
  destruct (Nat.eqb_spec h curr) as [-> | Hne]; [reflexivity |].
  cbn [negb andb].
  destruct (existsb (Nat.eqb l) (locks (threads st h))) eqn:E;
    [| reflexivity].
  apply existsb_eqb_in in E. now apply Hn in E.
Qed.

Lemma lock_release_restore_effect PRIORITY_FAKE st curr l :
  In l (locks (threads st curr)) ->
  let st' := lock_release_restore PRIORITY_FAKE false st curr l in
  let th := set_locks (list_remove l (locks (threads st curr)))
              (threads st curr) in
  semas st' = semas st /\ elems st' = elems st /\ conds st' = conds st
  /\ lockmap st'
     = update (lockmap st) l (set_priority_lock PRIORITY_FAKE (lockmap st l))
  /\ (forall t, t <> curr ->
        threads st' t
        = set_locks (list_remove l (locks (threads st t))) (threads st t))
  /\ threads st' curr
     = match list_remove l (locks (threads st curr)) with
       | [] => set_priority (priority_original th) (set_is_donated false th)
       | lock_first :: _ =>
           if priority_lock (lockmap st' lock_first) =? PRIORITY_FAKE
           then set_priority (priority_original th) th
           else donated_to (priority_lock (lockmap st' lock_first)) th
       end.
Proof.
  intros Hlinked. cbv zeta.
  assert (Hl : lockmap (lock_release_restore PRIORITY_FAKE false st curr l)
               = update (lockmap st) l
                   (set_priority_lock PRIORITY_FAKE (lockmap st l))).
  { unfold lock_release_restore. cbn [negb].
    rewrite unlink_lock_linked by assumption.
    repeat match goal with
           | |- context [match ?x with Some _ => _ | None => _ end] =>
               destruct x
           | |- context [if ?b then _ else _] => destruct b
           end; reflexivity. }
  rewrite !Hl.
  unfold lock_release_restore. cbn [negb].
  rewrite unlink_lock_linked by assumption.
  set (st0 := with_list_fault st (list_fault st || lock_relinked st curr l)).
  set (st2 := with_lock (with_threads st0 (remove_lock_elem l (threads st))) l
                (set_priority_lock PRIORITY_FAKE
                   (lockmap
                      (with_threads st0 (remove_lock_elem l (threads st)))
                      l))).
  assert (Hlist : locks (threads st2 curr)
                  = list_remove l (locks (threads st curr))) by reflexivity.
  rewrite Hlist.
  destruct (list_remove l (locks (threads st curr))) as [| lf rest] eqn:El;
    cbn [list_front hd_error].
  - cbn. rewrite update_eq.
    repeat split; try reflexivity.
    + intros t Ht. unfold thread_set_priority, thread_given_set_priority.
      rewrite !update_neq by assumption. reflexivity.
    + unfold thread_set_priority, thread_given_set_priority.
      rewrite !update_eq. unfold remove_lock_elem. rewrite El. reflexivity.
  - change (lockmap st2 lf)
      with (update (lockmap st) l
              (set_priority_lock PRIORITY_FAKE (lockmap st l)) lf).
    destruct (priority_lock
                (update (lockmap st) l
                   (set_priority_lock PRIORITY_FAKE (lockmap st l)) lf)
              =? PRIORITY_FAKE) eqn:Epf; cbn.
    + repeat split; try reflexivity.
      * intros t Ht. unfold thread_set_priority, thread_given_set_priority.
        rewrite update_neq by assumption. reflexivity.
      * unfold thread_set_priority, thread_given_set_priority.
        rewrite update_eq. unfold remove_lock_elem. rewrite El. reflexivity.
    + repeat split; try reflexivity.
      * intros t Ht. unfold thread_given_set_priority.
        rewrite update_neq by assumption. reflexivity.
      * unfold thread_given_set_priority.
        rewrite update_eq. unfold remove_lock_elem. rewrite El. reflexivity.
Qed.

Lemma lock_release_up_steps st curr l :
  holder (lockmap st l) = Some curr ->
  exists st2 y,
    lock_release_up st curr l = Some (st2, y)
    /\ threads st2
       = fold_right thread_unblock (threads st)
           (waiters (l_semaphore (lockmap st l)))
    /\ lockmap st2 l
       = mkLock None
           (mkSema (wrap32 (value (l_semaphore (lockmap st l)) + 1)) [])
           (priority_lock (lockmap st l))
    /\ (forall l', l' <> l -> lockmap st2 l' = lockmap st l')
    /\ semas st2 = semas st /\ elems st2 = elems st /\ conds st2 = conds st
    /\ y = snd (sema_up (threads st) curr (l_semaphore (lockmap st l)))
    /\ list_fault st2 = list_fault st.
Proof.
  intros Hh. apply lock_held_by_current_thread_true in Hh.
  unfold lock_release_up. rewrite Hh.
  destruct (sema_up (threads (with_lock st l (set_holder None (lockmap st l))))
              curr
              (l_semaphore
                 (lockmap (with_lock st l (set_holder None (lockmap st l))) l)))
    as [[ths' sema'] yield] eqn:Eup.
  cbn [threads with_lock lockmap] in Eup. rewrite update_eq in Eup.
  cbn [l_semaphore set_holder] in Eup.
  rewrite Eup. cbn [snd].
  rewrite sema_up_unfold in Eup. injection Eup as <- <- _.
  eexists. eexists. split; [reflexivity |]. cbn.
  rewrite !update_eq. cbn.
  split; [reflexivity |]. split; [reflexivity |].
  split; [intros l' Hl'; now rewrite !update_neq by assumption |].
  repeat split; reflexivity.
Qed.

Lemma lock_release_steps PRIORITY_FAKE thread_mlfqs st curr l :
  holder (lockmap st l) = Some curr ->
  exists st2 (y : bool),
    lock_release PRIORITY_FAKE thread_mlfqs st curr l
    = Some (if y then st2
            else lock_release_restore PRIORITY_FAKE thread_mlfqs st2 curr l,
            y)
    /\ threads st2
       = fold_right thread_unblock (threads st)
           (waiters (l_semaphore (lockmap st l)))
    /\ lockmap st2 l
       = mkLock None
           (mkSema (wrap32 (value (l_semaphore (lockmap st l)) + 1)) [])
           (priority_lock (lockmap st l))
    /\ (forall l', l' <> l -> lockmap st2 l' = lockmap st l')
    /\ semas st2 = semas st /\ elems st2 = elems st /\ conds st2 = conds st
    /\ y = snd (sema_up (threads st) curr (l_semaphore (lockmap st l)))
    /\ list_fault st2 = list_fault st.
Proof.
  intros Hh.
  destruct (lock_release_up_steps st curr l Hh) as (st2 & y & Hup & Hrest).
  exists st2, y. split; [| exact Hrest].
  unfold lock_release. rewrite Hup. now destruct y.
Qed.

Lemma lock_release_restore_bookkeeping PRIORITY_FAKE st curr l :
  In l (locks (threads st curr)) ->
  (forall t, t <> curr -> ~ In l (locks (threads st t))) ->
  release_bookkeeping PRIORITY_FAKE curr l st
    (lock_release_restore PRIORITY_FAKE false st curr l).
Proof.
  intros Hlinked Halone.
  pose proof (lock_release_restore_effect PRIORITY_FAKE st curr l Hlinked)
    as Heff.
  destruct (lock_release_restore_fault PRIORITY_FAKE st curr l)
    as [Hfault _]. specialize (Hfault Hlinked).
  rewrite (lock_relinked_false st curr l Halone), orb_false_r in Hfault.
  cbv zeta in Heff.
  set (st' := lock_release_restore PRIORITY_FAKE false st curr l) in *.
  clearbody st'.
  destruct Heff as (Hs & He & Hc & Hlm & Hth & Hcur).
  unfold release_bookkeeping.
  split; [rewrite Hlm; apply update_eq |].
  split; [intros l' Hl'; rewrite Hlm; now apply update_neq |].
  split.
  { intros t. destruct (Nat.eq_dec t curr) as [-> | Hne].
    - rewrite Hcur.
      destruct (list_remove l (locks (threads st curr))) eqn:El; cbn;
        [reflexivity |].
      match goal with |- context [if ?b then _ else _] => destruct b end;
        reflexivity.
    - rewrite (Hth t Hne). reflexivity. }
  split; [intros t Hne; rewrite (Hth t Hne); cbn; auto |].
  split.
  { intros t. destruct (Nat.eq_dec t curr) as [-> | Hne].
    - rewrite Hcur.
      destruct (list_remove l (locks (threads st curr))); cbn; [auto |].
      match goal with |- context [if ?b then _ else _] => destruct b end;
        cbn; auto.
    - rewrite (Hth t Hne). cbn. auto. }
  split.
  { rewrite Hcur.
    destruct (list_remove l (locks (threads st curr))) as [| lf rest]; cbn.
    - split; reflexivity.
    - destruct (priority_lock (lockmap st' lf) =? PRIORITY_FAKE); cbn;
        split; reflexivity. }
  auto.
Qed.

(** In donation-enabled mode, [lock_release] by the holder of a lock that
    is in its list of locks.  It frees the lock (no holder, semaphore one
    higher modulo 2^32, empty queue) and makes every thread that was queued
    on it ready, leaving the other locks and threads alone; it yields
    exactly when the thread at the front of that queue has a priority above
    the caller's.  At a yield nothing else has been done: the lock is still
    in the caller's list, its ceiling is what it was, and no priority,
    donated flag or list has changed; the bookkeeping is left for the time
    when the caller is scheduled again.  Without a yield the bookkeeping
    has been run when [lock_release] returns.

    The bookkeeping, on whatever state it is run in which the lock is in
    the caller's list and in no other: the ceiling of the lock becomes
    PRIORITY_FAKE, the lock leaves the list, and the caller's priority is
    set from the lock at the FRONT of what is left of its list: to that
    lock's ceiling, marking the caller donated, unless the ceiling is
    PRIORITY_FAKE; with PRIORITY_FAKE there, or with nothing left, to the
    caller's base priority, and with nothing left the donated flag is
    cleared.  No other thread's priority or donated flag changes.  Run on a
    state in which the lock is not in the caller's list, or in which
    another thread has taken the lock and put it into its own list, the
    bookkeeping sets [list_fault]. *)
Theorem lock_release_priority_from_front_lock :
  forall PRIORITY_FAKE st curr l,
    holder (lockmap st l) = Some curr ->
    In l (locks (threads st curr)) ->
    (exists st2 (y : bool),
       lock_release_up st curr l = Some (st2, y)
       /\ lock_release PRIORITY_FAKE false st curr l
          = Some (if y then st2
                  else lock_release_restore PRIORITY_FAKE false st2 curr l,
                  y)
       /\ y = match waiters (l_semaphore (lockmap st l)) with
              | [] => false
              | t :: _ =>
                  priority (threads st t) >? priority (threads st curr)
              end
       /\ lockmap st2 l
          = mkLock None
              (mkSema (wrap32 (value (l_semaphore (lockmap st l)) + 1)) [])
              (priority_lock (lockmap st l))
       /\ (forall l', l' <> l -> lockmap st2 l' = lockmap st l')
       /\ (forall t, In t (waiters (l_semaphore (lockmap st l))) ->
                     threads st2 t = set_status THREAD_READY (threads st t))
       /\ (forall t, ~ In t (waiters (l_semaphore (lockmap st l))) ->
                     threads st2 t = threads st t)
       /\ (forall t, same_but_status (threads st2 t) (threads st t))
       /\ In l (locks (threads st2 curr))
       /\ list_fault st2 = list_fault st)
    /\ (forall st3,
          In l (locks (threads st3 curr)) ->
          (forall t, t <> curr -> ~ In l (locks (threads st3 t))) ->
          release_bookkeeping PRIORITY_FAKE curr l st3
            (lock_release_restore PRIORITY_FAKE false st3 curr l))
    /\ (forall st3,
          ~ In l (locks (threads st3 curr))
          \/ lock_relinked st3 curr l = true ->
          list_fault (lock_release_restore PRIORITY_FAKE false st3 curr l)
          = true).
Proof.
  intros PF st curr l Hh Hlinked.
  split; [| split].
  - destruct (lock_release_up_steps st curr l Hh)
      as (st2 & y & Hup & Hths & Hl2 & Hother & _ & _ & _ & Hy & Hf).
    exists st2, y.
    split; [exact Hup |].
    split; [unfold lock_release; rewrite Hup; now destruct y |].
    split; [rewrite Hy; apply sema_up_yields |].
    split; [exact Hl2 |]. split; [exact Hother |].
    split; [intros t Ht; rewrite Hths; now apply fold_unblock_in_record |].
    split; [intros t Ht; rewrite Hths; now apply fold_unblock_notin |].
    split; [intros t; rewrite Hths; apply fold_unblock_same_but_status |].
    split; [| exact Hf].
    rewrite Hths.
    replace (locks (fold_right thread_unblock (threads st)
                      (waiters (l_semaphore (lockmap st l))) curr))
      with (locks (threads st curr));
      [exact Hlinked | symmetry; apply fold_unblock_same_but_status].
  - intros st3 H3 Halone. now apply lock_release_restore_bookkeeping.
  - intros st3 H3.
    destruct (lock_release_restore_fault PF st3 curr l) as [Hin Hout].
    destruct (in_dec Nat.eq_dec l (locks (threads st3 curr))) as [Hi | Hn];
      [| now apply Hout].
    destruct H3 as [Hn | Hre]; [contradiction |].
    rewrite (Hin Hi), Hre. apply orb_true_r.
Qed.

Lemma lock_release_priority_from_front_lock_witness :
  let st := state_after release_inner_lock in
  priority (threads st 0%nat) = 5
  /\ priority (threads st 3%nat) = 30
  /\ exists st2,
       lock_release (-1) false st 0%nat 1%nat = Some (st2, true)
       /\ holder (lockmap st2 1%nat) = None
       /\ status (threads st2 3%nat) = THREAD_READY
       /\ locks (threads st2 0%nat) = [2%nat; 1%nat]
       /\ priority_lock (lockmap st2 1%nat) = 30
       /\ locks (threads (lock_release_restore (-1) false st2 0%nat 1%nat)
                   0%nat)
          = [2%nat]
       /\ priority_lock
            (lockmap (lock_release_restore (-1) false st2 0%nat 1%nat) 1%nat)
          = -1.
Proof.
  cbv zeta.
  set (st := state_after release_inner_lock).
  split; [vm_compute; reflexivity |].
  split; [vm_compute; reflexivity |].
  destruct (lock_release_priority_from_front_lock (-1) st 0%nat 1%nat)
    as ((st2 & y & _ & Hrun & Hy & Hl2 & _ & Hin & _ & Hsbs & _ & _)
        & Hbook & _).
  { vm_compute. reflexivity. }
  { vm_compute. auto. }
  assert (Hyield : y = true) by (rewrite Hy; vm_compute; reflexivity).
  subst y.
  assert (Hsame : forall t, locks (threads st2 t) = locks (threads st t)).
  { intros t. destruct (Hsbs t) as (_ & _ & _ & _ & H). exact H. }
  assert (Hlocks : locks (threads st2 0%nat) = [2%nat; 1%nat]).
  { rewrite Hsame. vm_compute. reflexivity. }
  exists st2.
  split; [exact Hrun |].
  split; [rewrite Hl2; reflexivity |].
  split; [rewrite Hin; [reflexivity | vm_compute; auto] |].
  split; [exact Hlocks |].
  split; [rewrite Hl2; vm_compute; reflexivity |].
  destruct (Hbook st2) as (Hc & _ & Hl & _).
  { rewrite Hlocks. cbn. auto. }
  { intros t Ht. rewrite Hsame. clear -Ht.
    destruct t as [| t]; [now elim Ht |].
    do 3 (destruct t as [| t]; [vm_compute; exact (fun H : False => H) |]).
    vm_compute. exact (fun H : False => H). }
  split.
  - rewrite Hl, Hlocks. reflexivity.
  - rewrite Hc. reflexivity.
Defined.

(** ** Locks stay well-formed *)

Lemma locks_consistent_ext st st' :
  (forall l, holder (lockmap st' l) = holder (lockmap st l)
             /\ value (l_semaphore (lockmap st' l))
                = value (l_semaphore (lockmap st l))) ->
  (forall t, locks (threads st' t) = locks (threads st t)) ->
  locks_consistent st -> locks_consistent st'.
Proof.
  intros Hl Ht (Hfree & Hheld & Hnd). split; [| split].
  - intros l. destruct (Hl l) as [Hh Hv]. unfold lock_free_or_held.
    rewrite Hh, Hv. apply Hfree.
  - intros l t. destruct (Hl l) as [Hh _]. rewrite Ht, Hh. apply Hheld.
  - intros t. rewrite Ht. apply Hnd.
Qed.

Lemma locks_consistent_free_absent st l :
  locks_consistent st -> holder (lockmap st l) = None ->
  forall t, ~ In l (locks (threads st t)).
Proof.
  intros (_ & Hheld & _) Hnone t Hin. apply Hheld in Hin. congruence.
Qed.

Lemma locks_consistent_positive st l :
  locks_consistent st -> value (l_semaphore (lockmap st l)) <> 0 ->
  holder (lockmap st l) = None /\ value (l_semaphore (lockmap st l)) = 1.
Proof.
  intros (Hfree & _) Hv.
  destruct (Hfree l) as [H | (h & _ & Hz)]; [exact H | contradiction].
Qed.

Lemma lock_init_consistent PRIORITY_FAKE st l :
  locks_consistent st -> holder (lockmap st l) = None ->
  locks_consistent (lock_init PRIORITY_FAKE st l).
Proof.
  intros Hc Hnone.
  pose proof (locks_consistent_free_absent st l Hc Hnone) as Habs.
  destruct Hc as (Hfree & Hheld & Hnd). split; [| split].
  - intros l'. cbn. unfold update.
    destruct (Nat.eqb_spec l' l) as [-> | _]; [| apply Hfree].
    left. split; reflexivity.
  - intros l' t. cbn. unfold update.
    destruct (Nat.eqb_spec l' l) as [-> | _]; [| apply Hheld].
    cbn. split; [intros Hin; now apply Habs in Hin | discriminate].
  - exact Hnd.
Qed.

Lemma lock_acquire_donate_consistent LOCK_LEVEL st cur l st1 :
  lock_acquire_donate LOCK_LEVEL false st cur l = Some st1 ->
  locks_consistent st -> locks_consistent st1.
Proof.
  intros Hrun.
  destruct (lock_acquire_donate_effect LOCK_LEVEL false st cur l)
    as (st1' & Hrun' & _ & _ & _ & Hl & Hcur & Ht).
  rewrite Hrun in Hrun'. injection Hrun' as <-.
  apply locks_consistent_ext.
  - intros l'. destruct (Hl l') as (-> & -> & _). auto.
  - intros t. destruct (Nat.eq_dec t cur) as [-> | Hne].
    + rewrite Hcur. destruct (holder (lockmap st l)); reflexivity.
    + destruct (Ht t Hne) as [-> | [_ ->]]; reflexivity.
Qed.

Lemma lock_acquire_finish_effect st cur l :
  exists less,
    lockmap (lock_acquire_finish false st cur l)
    = update (lockmap st) l (set_holder (Some cur) (lockmap st l))
    /\ threads (lock_acquire_finish false st cur l) cur
       = set_locks (list_insert_ordered less l (locks (threads st cur)))
           (set_waiting_for_lock None (threads st cur))
    /\ (forall t, t <> cur ->
          threads (lock_acquire_finish false st cur l) t = threads st t)
    /\ semas (lock_acquire_finish false st cur l) = semas st
    /\ elems (lock_acquire_finish false st cur l) = elems st
    /\ conds (lock_acquire_finish false st cur l) = conds st.
Proof.
  unfold lock_acquire_finish. cbn [negb].
  eexists. cbn. rewrite !update_eq. cbn.
  split; [reflexivity |]. split; [reflexivity |].
  split; [intros t Ht; now rewrite !update_neq by assumption |].
  repeat split; reflexivity.
Qed.

Lemma lock_acquire_retry_consistent st cur l :
  locks_consistent st ->
  locks_consistent (fst (lock_acquire_retry false st cur l))
  /\ (forall h, holder (lockmap st l) = Some h ->
        snd (lock_acquire_retry false st cur l) = Blocked
        /\ holder (lockmap (fst (lock_acquire_retry false st cur l)) l)
           = Some h)
  /\ (holder (lockmap st l) = None ->
      snd (lock_acquire_retry false st cur l) = Passed
      /\ holder (lockmap (fst (lock_acquire_retry false st cur l)) l)
         = Some cur).
Proof.
  intros Hc.
  destruct (lock_acquire_retry_cases false st cur l) as [Hblk Hpass].
  destruct (Z.eq_dec (value (l_semaphore (lockmap st l))) 0) as [Hz | Hnz].
  - destruct (Hblk Hz) as (Hr & Hths & Hlm).
    assert (Hheld : exists h, holder (lockmap st l) = Some h).
    { destruct Hc as (Hfree & _).
      destruct (Hfree l) as [[_ H1] | (h & Hh & _)]; [lia | eauto]. }
    split; [| split].
    + apply locks_consistent_ext with (st := st); [| | exact Hc].
      * intros l'. rewrite Hlm. unfold update.
        destruct (Nat.eqb_spec l' l) as [-> | _]; cbn; auto.
      * intros t. rewrite Hths. unfold thread_block, update.
        destruct (Nat.eqb_spec t cur) as [-> | _]; reflexivity.
    + intros h Hh. split; [exact Hr |].
      rewrite Hlm, update_eq. exact Hh.
    + intros Hnone. destruct Hheld as (h & Hh). congruence.
  - destruct (locks_consistent_positive st l Hc Hnz) as [Hnone Hone].
    pose proof (locks_consistent_free_absent st l Hc Hnone) as Habs.
    rewrite (Hpass Hnz). cbn [fst snd].
    rewrite Hone. change (wrap32 (1 - 1)) with 0.
    set (st1 := with_lock st l
                  (set_l_semaphore
                     (mkSema 0 (waiters (l_semaphore (lockmap st l))))
                     (lockmap st l))).
    destruct (lock_acquire_finish_effect st1 cur l)
      as (less & Hlm & Hcur & Hoth & _).
    assert (Hsame : lockmap st1 l
                    = set_l_semaphore
                        (mkSema 0 (waiters (l_semaphore (lockmap st l))))
                        (lockmap st l))
      by (cbn; now rewrite update_eq).
    assert (Hdiff : forall l', l' <> l -> lockmap st1 l' = lockmap st l')
      by (intros l' Hl'; cbn; now apply update_neq).
    assert (Hths1 : threads st1 = threads st) by reflexivity.
    set (st2 := lock_acquire_finish false st1 cur l) in *. clearbody st2.
    rewrite Hths1 in Hcur, Hoth. clearbody st1.
    destruct Hc as (Hfree & Hheld & Hnd).
    split; [| split].
    + split; [| split].
      * intros l'. rewrite Hlm.
        destruct (Nat.eq_dec l' l) as [-> | Hl'].
        -- rewrite update_eq, Hsame. right. exists cur. split; reflexivity.
        -- rewrite update_neq, Hdiff by assumption. apply Hfree.
      * intros l' t. rewrite Hlm.
        destruct (Nat.eq_dec t cur) as [-> | Ht].
        -- rewrite Hcur. cbn [locks set_locks].
           rewrite list_insert_ordered_in.
           change (locks (set_waiting_for_lock None (threads st cur)))
             with (locks (threads st cur)).
           destruct (Nat.eq_dec l' l) as [-> | Hl'].
           ++ rewrite update_eq. cbn. intuition.
           ++ rewrite update_neq, Hdiff by assumption.
              rewrite <- Hheld. intuition.
        -- rewrite (Hoth t Ht).
           destruct (Nat.eq_dec l' l) as [-> | Hl'].
           ++ rewrite update_eq. cbn.
              split; [intros Hin; now apply Habs in Hin | congruence].
           ++ rewrite update_neq, Hdiff by assumption. apply Hheld.
      * intros t. destruct (Nat.eq_dec t cur) as [-> | Ht].
        -- rewrite Hcur. cbn [locks set_locks].
           apply list_insert_ordered_nodup; [apply Habs | apply Hnd].
        -- rewrite (Hoth t Ht). apply Hnd.
    + intros h Hh. congruence.
    + intros _. split; [reflexivity |].
      rewrite Hlm, update_eq. reflexivity.
Qed.

Lemma lock_release_restore_locks PRIORITY_FAKE st curr l t :
  In l (locks (threads st curr)) ->
  locks (threads (lock_release_restore PRIORITY_FAKE false st curr l) t)
  = list_remove l (locks (threads st t)).
Proof.
  intros Hlinked.
  pose proof (lock_release_restore_effect PRIORITY_FAKE st curr l Hlinked)
    as Heff.
  cbv zeta in Heff.
  set (st' := lock_release_restore PRIORITY_FAKE false st curr l) in *.
  clearbody st'.
  destruct Heff as (_ & _ & _ & _ & Hth & Hcur).
  destruct (Nat.eq_dec t curr) as [-> | Hne].
  - rewrite Hcur.
    destruct (list_remove l (locks (threads st curr))) as [| lf rest] eqn:El;
      [reflexivity |].
    destruct (priority_lock (lockmap st' lf) =? PRIORITY_FAKE); reflexivity.
  - rewrite (Hth t Hne). reflexivity.
Qed.

Lemma lock_release_holder PRIORITY_FAKE thread_mlfqs st curr l st' y :
  lock_release PRIORITY_FAKE thread_mlfqs st curr l = Some (st', y) ->
  holder (lockmap st l) = Some curr.
Proof.
  intros Hrun. apply lock_held_by_current_thread_true.
  unfold lock_release, lock_release_up in Hrun.
  destruct (lock_held_by_current_thread st curr l);
    [reflexivity | discriminate].
Qed.

(** A release that does not yield keeps the locks well-formed. *)
Lemma lock_release_consistent PRIORITY_FAKE st curr l st' :
  lock_release PRIORITY_FAKE false st curr l = Some (st', false) ->
  locks_consistent st ->
  locks_consistent st' /\ holder (lockmap st' l) = None
  /\ list_fault st' = list_fault st.
Proof.
  intros Hrun Hc.
  pose proof (lock_release_holder _ _ _ _ _ _ _ Hrun) as Hh.
  destruct (lock_release_steps PRIORITY_FAKE false st curr l Hh)
    as (st2 & y' & Hrun' & Hths & Hl2 & Hother & _ & _ & _ & _ & Hf2).
  rewrite Hrun in Hrun'. injection Hrun' as Hst' <-.
  assert (Hlocks2 : forall t, locks (threads st2 t) = locks (threads st t)).
  { intros t. rewrite Hths. apply fold_unblock_same_but_status. }
  destruct Hc as (Hfree & Hheld & Hnd).
  assert (Hlinked : In l (locks (threads st2 curr))).
  { rewrite Hlocks2. now apply Hheld. }
  pose proof (lock_release_restore_effect PRIORITY_FAKE st2 curr l Hlinked)
    as Heff.
  cbv zeta in Heff. destruct Heff as (_ & _ & _ & Hlm & _).
  assert (Hlocks : forall t,
             locks (threads (lock_release_restore PRIORITY_FAKE false
                               st2 curr l) t)
             = list_remove l (locks (threads st t))).
  { intros t. rewrite lock_release_restore_locks by assumption.
    now rewrite Hlocks2. }
  destruct (lock_release_restore_fault PRIORITY_FAKE st2 curr l)
    as [Hfault _]. specialize (Hfault Hlinked).
  assert (Hre : lock_relinked st2 curr l = false)
    by (unfold lock_relinked; now rewrite Hl2).
  rewrite Hre, orb_false_r in Hfault.
  rewrite <- Hst' in Hlm, Hlocks, Hfault. clear Hst'.
  assert (Hzero : value (l_semaphore (lockmap st l)) = 0).
  { destruct (Hfree l) as [[Hn _] | (h & _ & Hz)]; [congruence | exact Hz]. }
  assert (Hl' : lockmap st' l = mkLock None (mkSema 1 []) PRIORITY_FAKE).
  { rewrite Hlm, update_eq, Hl2, Hzero. reflexivity. }
  assert (Hoth' : forall l', l' <> l -> lockmap st' l' = lockmap st l').
  { intros l' Hne. rewrite Hlm, update_neq by assumption. now apply Hother. }
  split; [| split; [now rewrite Hl' | congruence]].
  split; [| split].
  - intros l'. destruct (Nat.eq_dec l' l) as [-> | Hne].
    + rewrite Hl'. left. split; reflexivity.
    + rewrite Hoth' by assumption. apply Hfree.
  - intros l' t. rewrite Hlocks.
    destruct (Nat.eq_dec l' l) as [-> | Hne].
    + rewrite Hl'. cbn. split; [| discriminate].
      intros Hin. exfalso. revert Hin. apply list_remove_gone. apply Hnd.
    + rewrite Hoth' by assumption.
      rewrite list_remove_in_other by assumption. apply Hheld.
  - intros t. rewrite Hlocks. apply list_remove_nodup, Hnd.
Qed.

(** A release that yields: at the yield the lock is free and still in the
    caller's list.  When a thread that the release has woken then takes the
    lock and the caller, scheduled again, finishes its release, the lock is
    held by that thread and in no list. *)
Lemma lock_release_yield_breaks PRIORITY_FAKE st curr l st' :
  lock_release PRIORITY_FAKE false st curr l = Some (st', true) ->
  locks_consistent st ->
  holder (lockmap st' l) = None
  /\ In l (locks (threads st' curr))
  /\ forall w,
       w <> curr ->
       lock_acquire_retry false st' w l
       = (fst (lock_acquire_retry false st' w l), Passed)
       /\ holder (lockmap (fst (lock_acquire_retry false st' w l)) l)
          = Some w
       /\ In l (locks (threads (fst (lock_acquire_retry false st' w l)) w))
       /\ holder
            (lockmap
               (lock_release_restore PRIORITY_FAKE false
                  (fst (lock_acquire_retry false st' w l)) curr l) l)
          = Some w
       /\ ~ In l
            (locks
               (threads
                  (lock_release_restore PRIORITY_FAKE false
                     (fst (lock_acquire_retry false st' w l)) curr l) w))
       /\ list_fault
            (lock_release_restore PRIORITY_FAKE false
               (fst (lock_acquire_retry false st' w l)) curr l)
          = true.
Proof.
  intros Hrun Hc.
  pose proof (lock_release_holder _ _ _ _ _ _ _ Hrun) as Hh.
  destruct (lock_release_steps PRIORITY_FAKE false st curr l Hh)
    as (st2 & y' & Hrun' & Hths & Hl2 & Hother & _ & _ & _ & _ & _).
  rewrite Hrun in Hrun'. injection Hrun' as Hst' <-. subst st2.
  assert (Hlocks2 : forall t, locks (threads st' t) = locks (threads st t)).
  { intros t. rewrite Hths. apply fold_unblock_same_but_status. }
  destruct Hc as (Hfree & Hheld & Hnd).
  assert (Hzero : value (l_semaphore (lockmap st l)) = 0).
  { destruct (Hfree l) as [[Hn _] | (h & _ & Hz)]; [congruence | exact Hz]. }
  rewrite Hzero in Hl2. change (wrap32 (0 + 1)) with 1 in Hl2.
  split; [now rewrite Hl2 |].
  split; [rewrite Hlocks2; now apply Hheld |].
  intros w Hne.
  destruct (lock_acquire_retry_cases false st' w l) as [_ Hpass].
  rewrite Hl2 in Hpass. cbn [l_semaphore value waiters] in Hpass.
  specialize (Hpass ltac:(discriminate)).
  set (sta := with_lock st' l
                (set_l_semaphore (mkSema (wrap32 (1 - 1)) [])
                   (mkLock None (mkSema 1 []) (priority_lock (lockmap st l)))))
    in *.
  destruct (lock_acquire_finish_effect sta w l)
    as (less & Hlm1 & Hw1 & Hoth1 & _).
  rewrite Hpass. cbn [fst].
  set (st1 := lock_acquire_finish false sta w l) in *. clearbody st1.
  change (threads sta) with (threads st') in Hw1, Hoth1.
  assert (Hh1 : holder (lockmap st1 l) = Some w).
  { rewrite Hlm1, update_eq. reflexivity. }
  assert (Hnotin : ~ In l (locks (threads st' w))).
  { rewrite Hlocks2. intros Hin. apply Hheld in Hin. congruence. }
  assert (Hlw : locks (threads st1 w)
                = list_insert_ordered less l (locks (threads st' w))).
  { rewrite Hw1. reflexivity. }
  assert (Hlinked : In l (locks (threads st1 curr))).
  { rewrite Hoth1 by congruence. rewrite Hlocks2. now apply Hheld. }
  split; [reflexivity |].
  split; [exact Hh1 |].
  split; [rewrite Hlw; apply list_insert_ordered_in; now left |].
  pose proof (lock_release_restore_effect PRIORITY_FAKE st1 curr l Hlinked)
    as Heff.
  cbv zeta in Heff. destruct Heff as (_ & _ & _ & Hlm & _).
  split; [rewrite Hlm, update_eq; exact Hh1 |].
  split.
  - rewrite lock_release_restore_locks by assumption.
    rewrite Hlw. apply list_remove_gone.
    apply list_insert_ordered_nodup; [exact Hnotin |].
    rewrite Hlocks2. apply Hnd.
  - destruct (lock_release_restore_fault PRIORITY_FAKE st1 curr l)
      as [Hfault _].
    rewrite (Hfault Hlinked). unfold lock_relinked. rewrite Hh1.
    replace (Nat.eqb w curr) with false
      by (symmetry; now apply Nat.eqb_neq).
    replace (existsb (Nat.eqb l) (locks (threads st1 w))) with true.
    + apply orb_true_r.
    + symmetry. apply existsb_eqb_in. rewrite Hlw.
      apply list_insert_ordered_in. now left.
Qed.

Lemma sema_down_pass_same_but_status ths cur sema t :
  same_but_status (fst (fst (sema_down_pass ths cur sema)) t) (ths t).
Proof.
  unfold sema_down_pass. destruct (value sema =? 0); cbn.
  - unfold thread_block, update.
    destruct (Nat.eqb_spec t cur) as [-> | _];
      [apply same_but_status_set | apply same_but_status_refl].
  - apply same_but_status_refl.
Qed.

(** In donation-enabled mode, starting from a state in which every lock is
    free with its semaphore at 1 or held with it at 0, every thread's list
    of locks holds exactly the locks it holds, and no list repeats a lock:
    [lock_init] of a lock that is not held, [lock_acquire], the resumption
    of a thread inside [lock_acquire], a [lock_release] that does not yield
    and the operations on free-standing semaphores all lead to such a state
    again.  In such a state [lock_acquire] passes exactly on a free lock,
    which the caller then holds, and on a held lock it blocks and leaves
    the holder in place.

    A [lock_release] that yields does not keep the locks well-formed.  At
    the yield the lock is free and still in the caller's list.  A thread
    that then resumes inside [lock_acquire] for this lock takes it and puts
    it into its own list; and when the releasing thread is scheduled again,
    the rest of its [lock_release] takes the lock out of that list: the
    lock is then held by a thread whose list does not have it, and the
    removal is marked as a list fault. *)
Theorem locks_consistent_unless_release_yields :
  forall LOCK_LEVEL PRIORITY_FAKE st,
    locks_consistent st ->
    (forall l, holder (lockmap st l) = None ->
               locks_consistent (lock_init PRIORITY_FAKE st l))
    /\ (forall cur l st' r,
          lock_acquire LOCK_LEVEL false st cur l = Some (st', r) ->
          locks_consistent st'
          /\ (forall h, holder (lockmap st l) = Some h ->
                        r = Blocked /\ holder (lockmap st' l) = Some h)
          /\ (holder (lockmap st l) = None ->
              r = Passed /\ holder (lockmap st' l) = Some cur))
    /\ (forall cur l,
          locks_consistent (fst (lock_acquire_retry false st cur l)))
    /\ (forall cur l st',
          lock_release PRIORITY_FAKE false st cur l = Some (st', false) ->
          locks_consistent st' /\ holder (lockmap st' l) = None
          /\ list_fault st' = list_fault st)
    /\ (forall cur l st',
          lock_release PRIORITY_FAKE false st cur l = Some (st', true) ->
          holder (lockmap st' l) = None
          /\ In l (locks (threads st' cur))
          /\ ~ locks_consistent st'
          /\ forall w,
               w <> cur ->
               let st1 := fst (lock_acquire_retry false st' w l) in
               let st2 := lock_release_restore PRIORITY_FAKE false st1 cur l in
               snd (lock_acquire_retry false st' w l) = Passed
               /\ holder (lockmap st1 l) = Some w
               /\ In l (locks (threads st1 w))
               /\ holder (lockmap st2 l) = Some w
               /\ ~ In l (locks (threads st2 w))
               /\ ~ locks_consistent st2
               /\ list_fault st2 = true)
    /\ (forall cur s,
          locks_consistent (fst (sema_down_at st cur s))
          /\ locks_consistent (fst (sema_up_at st cur s))).
Proof.
  intros LL PF st Hc.
  split; [intros l Hn; now apply lock_init_consistent |].
  split.
  { intros cur l st' r Hrun. unfold lock_acquire in Hrun.
    destruct (lock_held_by_current_thread st cur l); [discriminate |].
    destruct (lock_acquire_donate LL false st cur l) as [st1 |] eqn:Ed;
      [| discriminate].
    injection Hrun as Hrun.
    pose proof (lock_acquire_donate_consistent LL st cur l st1 Ed Hc) as Hc1.
    destruct (lock_acquire_donate_effect LL false st cur l)
      as (st1' & Ed' & _ & _ & _ & Hl & _).
    rewrite Ed in Ed'. injection Ed' as <-.
    destruct (Hl l) as (Hh & _).
    destruct (lock_acquire_retry_consistent st1 cur l Hc1)
      as (Hc' & Hheld & Hfree).
    rewrite Hrun in Hc', Hheld, Hfree. cbn [fst snd] in *.
    rewrite Hh in Hheld, Hfree. auto. }
  split; [intros cur l; now apply lock_acquire_retry_consistent |].
  split; [intros cur l st' Hrun; eapply lock_release_consistent; eauto |].
  split.
  { intros cur l st' Hrun.
    destruct (lock_release_yield_breaks PF st cur l st' Hrun Hc)
      as (Hnone & Hin & Hwoken).
    split; [exact Hnone |]. split; [exact Hin |].
    split.
    { intros (_ & Hheld & _). apply Hheld in Hin. congruence. }
    intros w Hne. cbv zeta.
    destruct (Hwoken w Hne) as (Hpass & Hh1 & Hin1 & Hh2 & Hout2 & Hf2).
    split; [now rewrite Hpass |].
    split; [exact Hh1 |]. split; [exact Hin1 |].
    split; [exact Hh2 |]. split; [exact Hout2 |].
    split; [| exact Hf2].
    intros (_ & Hheld & _). apply Hout2. now apply Hheld. }
  intros cur s. split.
  - unfold sema_down_at.
    pose proof (sema_down_pass_same_but_status (threads st) cur (semas st s))
      as Hsame.
    destruct (sema_down_pass (threads st) cur (semas st s))
      as [[ths' sema'] r]. cbn [fst] in *.
    apply locks_consistent_ext with (st := st); [| | exact Hc].
    + intros l. cbn. auto.
    + intros t. cbn. apply (Hsame t).
  - unfold sema_up_at. rewrite sema_up_unfold. cbn [fst].
    apply locks_consistent_ext with (st := st); [| | exact Hc].
    + intros l. cbn. auto.
    + intros t. cbn. apply fold_unblock_same_but_status.
Qed.

Lemma locks_consistent_unless_release_yields_witness :
  let st := state_after_init waiter_above_holder in
  locks_consistent st
  /\ exists st1,
       lock_release (-1) false st 0%nat 1%nat = Some (st1, true)
       /\ holder (lockmap st1 1%nat) = None
       /\ In 1%nat (locks (threads st1 0%nat))
       /\ holder
            (lockmap
               (lock_release_restore (-1) false
                  (fst (lock_acquire_retry false st1 3%nat 1%nat))
                  0%nat 1%nat) 1%nat)
          = Some 3%nat
       /\ ~ In 1%nat
            (locks
               (threads
                  (lock_release_restore (-1) false
                     (fst (lock_acquire_retry false st1 3%nat 1%nat))
                     0%nat 1%nat) 3%nat)).
Proof.
  cbv zeta.
  assert (H0 : locks_consistent six_threads_locks).
  { split; [| split].
    - intros l. left. split; reflexivity.
    - intros l t. cbn. split; [tauto | discriminate].
    - intros t. cbn. constructor. }
  assert (Hacq : forall st cur l st' r,
             locks_consistent st ->
             lock_acquire 8 false st cur l = Some (st', r) ->
             locks_consistent st').
  { intros st cur l st' r Hc Hrun.
    destruct (locks_consistent_unless_release_yields 8 (-1) st Hc) as (_ & H & _).
    now destruct (H cur l st' r Hrun). }
  assert (Hrel : forall st cur l st',
             locks_consistent st ->
             lock_release (-1) false st cur l = Some (st', false) ->
             locks_consistent st').
  { intros st cur l st' Hc Hrun.
    destruct (locks_consistent_unless_release_yields 8 (-1) st Hc) as (_ & _ & _ & H & _).
    now destruct (H cur l st' Hrun). }
  set (s1 := state_after_init (firstn 1 waiter_above_holder)).
  set (s2 := state_after_init (firstn 2 waiter_above_holder)).
  set (s3 := state_after_init (firstn 3 waiter_above_holder)).
  set (s4 := state_after_init (firstn 4 waiter_above_holder)).
  set (s5 := state_after_init waiter_above_holder).
  assert (H1 : locks_consistent s1).
  { apply (Hacq six_threads_locks 0%nat 1%nat s1 Passed H0).
    vm_compute. reflexivity. }
  assert (H2 : locks_consistent s2).
  { apply (Hacq s1 0%nat 2%nat s2 Passed H1). vm_compute. reflexivity. }
  assert (H3 : locks_consistent s3).
  { apply (Hacq s2 0%nat 3%nat s3 Passed H2). vm_compute. reflexivity. }
  assert (H4 : locks_consistent s4).
  { apply (Hacq s3 3%nat 1%nat s4 Blocked H3). vm_compute. reflexivity. }
  assert (H5 : locks_consistent s5).
  { apply (Hrel s4 0%nat 3%nat s5 H4). vm_compute. reflexivity. }
  split; [exact H5 |].
  destruct (locks_consistent_unless_release_yields 8 (-1) s5 H5) as (_ & _ & _ & _ & Hy & _).
  destruct (lock_release (-1) false s5 0%nat 1%nat) as [[st1 y] |] eqn:E.
  2:{ vm_compute in E. discriminate. }
  assert (Hyield : y = true).
  { change y with (snd (st1, y)).
    change (st1, y)
      with (match Some (st1, y) with Some p => p | None => (s5, false) end).
    rewrite <- E. vm_compute. reflexivity. }
  subst y.
  destruct (Hy 0%nat 1%nat st1 E) as (Hnone & Hin & _ & Hwoken).
  destruct (Hwoken 3%nat ltac:(discriminate))
    as (_ & _ & _ & Hh2 & Hout2 & _ & _).
  exists st1. auto.
Defined.

(** ** Taking and giving back an uncontended lock *)

Lemma lock_acquire_donate_free LOCK_LEVEL thread_mlfqs st cur l :
  holder (lockmap st l) = None ->
  lock_acquire_donate LOCK_LEVEL thread_mlfqs st cur l = Some st.
Proof.
  intros Hn. unfold lock_acquire_donate. rewrite Hn. rewrite Hn. reflexivity.
Qed.

Lemma set_locks_same th : set_locks (locks th) th = th.
Proof. now destruct th. Qed.

(** A thread that holds no lock and carries no donation takes a free lock
    that is in nobody's list without blocking, holds it, has it as its only
    lock, and gives it back without yielding; after the release every
    thread record, every lock and every other object is as before the
    acquire. *)
Theorem lock_acquire_release_round_trip :
  forall LOCK_LEVEL PRIORITY_FAKE st cur l,
    lockmap st l = mkLock None (mkSema 1 []) PRIORITY_FAKE ->
    (forall t, ~ In l (locks (threads st t))) ->
    locks (threads st cur) = [] ->
    priority (threads st cur) = priority_original (threads st cur) ->
    is_donated (threads st cur) = false ->
    waiting_for_lock (threads st cur) = None ->
    exists st1 st2,
      lock_acquire LOCK_LEVEL false st cur l = Some (st1, Passed)
      /\ lock_held_by_current_thread st1 cur l = true
      /\ locks (threads st1 cur) = [l]
      /\ lock_release PRIORITY_FAKE false st1 cur l = Some (st2, false)
      /\ (forall t, threads st2 t = threads st t)
      /\ (forall l', lockmap st2 l' = lockmap st l')
      /\ semas st2 = semas st
      /\ elems st2 = elems st
      /\ conds st2 = conds st.
Proof.
  intros LL PF st cur l Hl Habs Hlocks Hprio Hdon Hwait.
  assert (Hnone : holder (lockmap st l) = None) by (now rewrite Hl).
  set (sta := with_lock st l
                (set_l_semaphore
                   (mkSema (wrap32 (value (l_semaphore (lockmap st l)) - 1))
                           (waiters (l_semaphore (lockmap st l))))
                   (lockmap st l))).
  destruct (lock_acquire_finish_effect sta cur l)
    as (less & Hlm1 & Hcur1 & Hoth1 & Hs1 & He1 & Hc1).
  assert (Hacq : lock_acquire LL false st cur l
                 = Some (lock_acquire_finish false sta cur l, Passed)).
  { unfold lock_acquire.
    replace (lock_held_by_current_thread st cur l) with false
      by (symmetry; apply lock_held_by_current_thread_false; congruence).
    rewrite lock_acquire_donate_free by assumption.
    destruct (lock_acquire_retry_cases false st cur l) as [_ Hpass].
    rewrite Hpass by (rewrite Hl; cbn; lia).
    reflexivity. }
  set (st1 := lock_acquire_finish false sta cur l) in *. clearbody st1.
  assert (Hl1 : lockmap st1 l = mkLock (Some cur) (mkSema 0 []) PF).
  { rewrite Hlm1, update_eq. unfold sta. cbn. rewrite update_eq, Hl.
    reflexivity. }
  assert (Hl1' : forall l', l' <> l -> lockmap st1 l' = lockmap st l').
  { intros l' Hne. rewrite Hlm1, update_neq by assumption.
    unfold sta. cbn. now apply update_neq. }
  change (threads sta) with (threads st) in Hcur1, Hoth1.
  rewrite Hlocks in Hcur1. cbn [list_insert_ordered] in Hcur1.
  assert (Hh1 : holder (lockmap st1 l) = Some cur) by (now rewrite Hl1).
  destruct (lock_release_steps PF false st1 cur l Hh1)
    as (st2 & y & Hrel & Hths2 & Hl2 & Hoth2 & Hs2 & He2 & Hc2 & Hy & _).
  rewrite Hl1 in Hths2, Hl2, Hy. cbn [l_semaphore waiters value] in *.
  cbn [fold_right] in Hths2.
  rewrite sema_up_unfold in Hy. cbn [snd waiters] in Hy. subst y.
  assert (Hlinked : In l (locks (threads st2 cur))).
  { rewrite Hths2, Hcur1. cbn. now left. }
  pose proof (lock_release_restore_effect PF st2 cur l Hlinked) as Heff.
  cbv zeta in Heff.
  set (st3 := lock_release_restore PF false st2 cur l) in *. clearbody st3.
  destruct Heff as (Hs3 & He3 & Hc3 & Hlm3 & Hth3 & Hcur3).
  rewrite Hths2 in Hth3, Hcur3.
  exists st1, st3.
  split; [exact Hacq |].
  split; [now apply lock_held_by_current_thread_true |].
  split; [rewrite Hcur1; reflexivity |].
  split; [exact Hrel |].
  split.
  { intros t. destruct (Nat.eq_dec t cur) as [-> | Hne].
    - rewrite Hcur3, Hcur1. cbn [locks set_locks list_remove].
      rewrite Nat.eqb_refl.
      destruct (threads st cur) as [s p po d w ls]. cbn in *. now subst.
    - rewrite (Hth3 t Hne), (Hoth1 t Hne).
      rewrite list_remove_absent by apply Habs. apply set_locks_same. }
  split.
  { intros l'. rewrite Hlm3. destruct (Nat.eq_dec l' l) as [-> | Hne].
    - rewrite update_eq, Hl2, Hl. reflexivity.
    - rewrite update_neq, Hoth2, Hl1' by assumption. reflexivity. }
  unfold sta in *. cbn in Hs1, He1, Hc1.
  repeat split; congruence.
Qed.

Lemma lock_acquire_release_round_trip_witness :
  exists st1 st2,
    lock_acquire 8 false six_threads_locks 2%nat 0%nat = Some (st1, Passed)
    /\ lock_held_by_current_thread st1 2%nat 0%nat = true
    /\ locks (threads st1 2%nat) = [0%nat]
    /\ lock_release (-1) false st1 2%nat 0%nat = Some (st2, false)
    /\ (forall t, threads st2 t = threads six_threads_locks t)
    /\ (forall l', lockmap st2 l' = lockmap six_threads_locks l')
    /\ semas st2 = semas six_threads_locks
    /\ elems st2 = elems six_threads_locks
    /\ conds st2 = conds six_threads_locks.
Proof.
  apply (lock_acquire_release_round_trip 8 (-1) six_threads_locks
           2%nat 0%nat); try reflexivity.
  intros t. cbn. tauto.
Defined.

(** ** A condition variable with two waiters *)

Lemma lock_acquire_conds_elems LOCK_LEVEL thread_mlfqs st t l st' r :
  lock_acquire LOCK_LEVEL thread_mlfqs st t l = Some (st', r) ->
  conds st' = conds st /\ elems st' = elems st.
Proof.
  unfold lock_acquire.
  destruct (lock_held_by_current_thread st t l); [discriminate |].
  destruct (lock_acquire_donate_effect LOCK_LEVEL thread_mlfqs st t l)
    as (st1 & Hd & _ & He & Hc & _).
  rewrite Hd. intros [= Hret].
  unfold lock_acquire_retry, lock_sema_down_pass in Hret.
  destruct (sema_down_pass (threads st1) t (l_semaphore (lockmap st1 l)))
    as [[ths' sema'] r0].
  destruct r0; injection Hret as <- <-.
  - unfold lock_acquire_finish. destruct thread_mlfqs; cbn; auto.
  - cbn. auto.
Qed.

Lemma lock_acquire_reach c LOCK_LEVEL thread_mlfqs st t l st' r :
  cond_reach c st ->
  lock_acquire LOCK_LEVEL thread_mlfqs st t l = Some (st', r) ->
  cond_reach c st'.
Proof.
  intros Hreach Hrun. apply lock_acquire_conds_elems in Hrun.
  destruct Hrun as [Hc He]. eapply reach_lock_op; eauto.
Qed.

(** A wait during which no other thread runs takes a reachable condition
    variable to a reachable one. *)
Lemma cond_wait_alone_reach c PRIORITY_FAKE thread_mlfqs st cur c' l w st' r :
  cond_reach c st ->
  ~ In w (c_waiters (conds st c)) ->
  cond_wait PRIORITY_FAKE thread_mlfqs (fun s => s) (fun s => s) st cur c' l w
  = Some (st', r) ->
  cond_reach c st'.
Proof.
  intros Hreach Hfresh. unfold cond_wait, cond_wait_release.
  destruct (cond_wait_enqueue st cur c' l w) as [st1 |] eqn:Ew;
    [| discriminate].
  assert (R1 : cond_reach c st1) by (eapply reach_cond_wait; eauto).
  assert (Hheld1 : lock_held_by_current_thread st1 cur l = true).
  { apply cond_wait_enqueue_cases in Ew.
    destruct Ew as (Hh & _ & _ & _ & Hl & _).
    unfold lock_held_by_current_thread in *. now rewrite Hl. }
  destruct (lock_release_frame PRIORITY_FAKE thread_mlfqs st1 cur l Hheld1)
    as (st2 & y & Hrel & Hc2 & He2 & _).
  rewrite Hrel.
  assert (R2 : cond_reach c st2) by (eapply reach_lock_op; eauto).
  intros [= Hret].
  replace st'
    with (fst (elem_sema_down_pass
                 (if y
                  then lock_release_restore PRIORITY_FAKE thread_mlfqs
                         st2 cur l
                  else st2) cur w))
    by (now rewrite Hret).
  apply reach_waiter_down.
  destruct y; [| exact R2].
  destruct (lock_release_restore_frame PRIORITY_FAKE thread_mlfqs st2 cur l)
    as (Hc3 & He3 & _).
  eapply reach_lock_op; eauto.
Qed.

Lemma two_records_waiting_reach : cond_reach 0%nat two_records_waiting.
Proof.
  assert (R0 : cond_reach 0%nat monitor_entered) by apply reach_cond_init.
  assert (R1 : cond_reach 0%nat waiter_blocked).
  { unfold waiter_blocked.
    destruct (cond_wait (-1) false (fun st => st) (fun st => st)
                monitor_entered 3%nat 0%nat 0%nat 7%nat)
      as [[s r] |] eqn:E; [| exact R0].
    assert (Rs : cond_reach 0%nat s).
    { eapply cond_wait_alone_reach; [exact R0 | | exact E].
      vm_compute. intros []. }
    destruct (lock_acquire 8 false s 2%nat 0%nat) as [[s' r'] |] eqn:E';
      [| exact Rs].
    eapply lock_acquire_reach; eauto. }
  unfold two_records_waiting.
  destruct (cond_wait (-1) false (fun st => st) (fun st => st)
              waiter_blocked 2%nat 0%nat 0%nat 8%nat)
    as [[s r] |] eqn:E; [| exact R1].
  assert (Rs : cond_reach 0%nat s).
  { eapply cond_wait_alone_reach; [exact R1 | | exact E].
    vm_compute. intros [H | []]. discriminate. }
  destruct (lock_acquire 8 false s 1%nat 0%nat) as [[s' r'] |] eqn:E';
    [| exact Rs].
  eapply lock_acquire_reach; eauto.
Qed.

Lemma cond_signal_wakes_highest_witness :
  exists st' y,
    cond_signal two_records_waiting 1%nat 0%nat 0%nat = Some (st', y)
    /\ c_waiters (conds two_records_waiting 0%nat) = [7%nat; 8%nat]
    /\ map (fun e => highest_priority (elems two_records_waiting e))
         [7%nat; 8%nat] = [30; 20]
    /\ c_waiters (conds st' 0%nat) = [8%nat]
    /\ value (e_semaphore (elems st' 7%nat)) = 1
    /\ status (threads two_records_waiting 3%nat) = THREAD_BLOCKED
    /\ status (threads st' 3%nat) = THREAD_READY
    /\ elems st' 8%nat = elems two_records_waiting 8%nat
    /\ threads st' 2%nat = threads two_records_waiting 2%nat
    /\ status (threads st' 2%nat) = THREAD_BLOCKED
    /\ y = true.
Proof.
  assert (Hheld : lock_held_by_current_thread two_records_waiting 1%nat 0%nat
                  = true) by (vm_compute; reflexivity).
  assert (Hq : c_waiters (conds two_records_waiting 0%nat)
               = [7%nat; 8%nat]) by (vm_compute; reflexivity).
  assert (Hw : waiters (e_semaphore (elems two_records_waiting 7%nat))
               = [3%nat]) by (vm_compute; reflexivity).
  destruct (cond_signal_wakes_highest 0%nat two_records_waiting 1%nat 0%nat
              two_records_waiting_reach Hheld) as [_ Hpop].
  destruct (Hpop 7%nat [8%nat] Hq)
    as (st' & y & Hs & Hq' & _ & _ & _ & Hv & _ & He & _ & _ & _ & _
        & Hin & Hout & Hy).
  rewrite Hw in Hin, Hout, Hy.
  exists st', y.
  split; [exact Hs |]. split; [exact Hq |].
  split; [vm_compute; reflexivity |].
  split; [exact Hq' |].
  split; [rewrite Hv; vm_compute; reflexivity |].
  split; [vm_compute; reflexivity |].
  split; [rewrite (Hin 3%nat) by (now left); reflexivity |].
  split; [apply He; discriminate |].
  assert (H2 : threads st' 2%nat = threads two_records_waiting 2%nat).
  { apply Hout. intros [H | []]. discriminate. }
  split; [exact H2 |].
  split; [rewrite H2; vm_compute; reflexivity |].
  rewrite Hy. vm_compute. reflexivity.
Defined.

(** ** Broadcast *)

(** The loop of [cond_broadcast] on a queue [q], the lock being held and
    the other threads keeping to the monitor between the signals. *)
Lemma cond_broadcast_loop_drains cur c l : forall q fuel others st,
  c_waiters (conds st c) = q ->
  (length q <= fuel)%nat ->
  lock_held_by_current_thread st cur l = true ->
  (forall n, keeps_monitor cur c l (others n)) ->
  exists st',
    cond_broadcast_loop fuel others st cur c l = Some (st', q)
    /\ c_waiters (conds st' c) = []
    /\ lock_held_by_current_thread st' cur l = true.
Proof.
  induction q as [| w rest IH]; intros fuel others st Hq Hf Hheld Hkeep.
  - exists st. split; [| split; assumption].
    destruct fuel; cbn; now rewrite Hq.
  - destruct fuel as [| fuel]; [cbn in Hf; lia |].
    cbn [cond_broadcast_loop]. rewrite Hq. cbn [list_empty firstn].
    destruct (cond_signal st cur c l) as [[st1 y] |] eqn:Es.
    2:{ unfold cond_signal in Es. rewrite Hheld, Hq in Es.
        cbn [list_pop_front] in Es.
        destruct (sema_up (threads (with_cond st c (mkCond rest))) cur
                    (e_semaphore (elems (with_cond st c (mkCond rest)) w)))
          as [[? ?] ?]. discriminate. }
    apply cond_signal_cases in Es.
    destruct Es as [(Hnil & _) | (w0 & rest0 & Hq0 & Hconds & _ & _ & _
                                  & Hlocks & _)];
      [congruence |].
    rewrite Hq in Hq0. injection Hq0 as <- <-.
    assert (Hheld1 : lock_held_by_current_thread st1 cur l = true).
    { unfold lock_held_by_current_thread in *. now rewrite Hlocks. }
    destruct (Hkeep O st1 Hheld1) as [Hq2 Hheld2].
    destruct (IH fuel (fun n => others (S n)) (others O st1))
      as (st' & Hrun & Hempty & Hheld').
    { rewrite Hq2, Hconds, update_eq. reflexivity. }
    { cbn in Hf. lia. }
    { exact Hheld2. }
    { intros n. apply Hkeep. }
    exists st'. rewrite Hrun. cbn [app]. auto.
Qed.

(** [cond_broadcast] on an empty queue returns at once with the state as
    it is, whoever calls it; on a non-empty queue called by a thread that
    does not hold the lock it fails the assertion of its first
    [cond_signal].  Called by the holder, and whatever the other threads do
    between the signals as long as they leave the queue and the holder of
    the lock alone, it returns after one signal for each record that was
    queued, made in the order of the queue, with the queue empty and the
    lock still held by the caller. *)
Theorem cond_broadcast_wakes_all :
  forall others st cur c l,
    (c_waiters (conds st c) = [] ->
     cond_broadcast others st cur c l = Some (st, []))
    /\ (lock_held_by_current_thread st cur l = false ->
        c_waiters (conds st c) <> [] ->
        cond_broadcast others st cur c l = None)
    /\ (lock_held_by_current_thread st cur l = true ->
        (forall n, keeps_monitor cur c l (others n)) ->
        exists st',
          cond_broadcast others st cur c l
          = Some (st', c_waiters (conds st c))
          /\ c_waiters (conds st' c) = []
          /\ lock_held_by_current_thread st' cur l = true).
Proof.
  intros others st cur c l.
  split; [| split].
  - intros Hq. unfold cond_broadcast. rewrite Hq. cbn. now rewrite Hq.
  - intros Hh Hne. unfold cond_broadcast.
    destruct (c_waiters (conds st c)) as [| w rest] eqn:Hq; [congruence |].
    cbn [length cond_broadcast_loop]. rewrite Hq. cbn [list_empty].
    unfold cond_signal. now rewrite Hh.
  - intros Hh Hkeep.
    apply (cond_broadcast_loop_drains cur c l (c_waiters (conds st c))
             (length (c_waiters (conds st c))) others st eq_refl (le_n _)
             Hh Hkeep).
Qed.

Lemma lock_acquire_blocked_holder LOCK_LEVEL thread_mlfqs st t l st' :
  lock_acquire LOCK_LEVEL thread_mlfqs st t l = Some (st', Blocked) ->
  forall l', holder (lockmap st' l') = holder (lockmap st l').
Proof.
  unfold lock_acquire.
  destruct (lock_held_by_current_thread st t l); [discriminate |].
  destruct (lock_acquire_donate_effect LOCK_LEVEL thread_mlfqs st t l)
    as (st1 & Hd & _ & _ & _ & Hl & _).
  rewrite Hd. intros [= Hret] l'.
  unfold lock_acquire_retry, lock_sema_down_pass in Hret.
  destruct (sema_down_pass (threads st1) t (l_semaphore (lockmap st1 l)))
    as [[ths' sema'] r0].
  destruct r0; [discriminate |]. injection Hret as <-.
  destruct (Hl l') as (<- & _). cbn. unfold update.
  destruct (Nat.eqb_spec l' l) as [-> | _]; reflexivity.
Qed.

(** A woken waiter that runs until it blocks again keeps to the monitor. *)
Lemma waiter_runs_keeps_monitor cur c l t w :
  keeps_monitor cur c l (waiter_runs t w).
Proof.
  intros st Hheld. unfold waiter_runs, cond_wait_resume.
  destruct (elem_sema_down_pass_frame st t w) as [Hc _].
  assert (Hlm : lockmap (fst (elem_sema_down_pass st t w)) = lockmap st).
  { unfold elem_sema_down_pass.
    destruct (sema_down_pass (threads st) t (e_semaphore (elems st w)))
      as [[ths' sema'] r]. reflexivity. }
  destruct (elem_sema_down_pass st t w) as [st1 r] eqn:E. cbn [fst] in *.
  destruct r.
  - destruct (lock_acquire 8 false st1 t 0%nat) as [[st' r'] |] eqn:Ea;
      [| auto].
    destruct r'; [auto |].
    pose proof (lock_acquire_conds_elems _ _ _ _ _ _ _ Ea) as [Hc' _].
    pose proof (lock_acquire_blocked_holder _ _ _ _ _ _ Ea l) as Hh'.
    split; [now rewrite Hc', Hc |].
    unfold lock_held_by_current_thread in *. now rewrite Hh', Hlm.
  - split; [now rewrite Hc |].
    unfold lock_held_by_current_thread in *. now rewrite Hlm.
Qed.

Lemma cond_broadcast_wakes_all_witness :
  exists st',
    cond_broadcast woken_waiters_run two_records_waiting 1%nat 0%nat 0%nat
    = Some (st', [7%nat; 8%nat])
    /\ c_waiters (conds st' 0%nat) = []
    /\ holder (lockmap st' 0%nat) = Some 1%nat
    /\ map (fun t => status (threads st' t)) [3%nat; 2%nat]
       = [THREAD_BLOCKED; THREAD_BLOCKED]
    /\ priority (threads two_records_waiting 1%nat) = 10
    /\ priority (threads st' 1%nat) = 30.
Proof.
  destruct (cond_broadcast_wakes_all woken_waiters_run two_records_waiting
              1%nat 0%nat 0%nat) as (_ & _ & Hheld).
  destruct Hheld as (st' & Hrun & Hq & Hh).
  { vm_compute. reflexivity. }
  { intros [| n]; apply waiter_runs_keeps_monitor. }
  change (c_waiters (conds two_records_waiting 0%nat))
    with [7%nat; 8%nat] in Hrun.
  assert (Hend : option_map
                   (fun p => (map (fun t => status (threads (fst p) t))
                                [3%nat; 2%nat],
                              priority (threads (fst p) 1%nat)))
                   (cond_broadcast woken_waiters_run two_records_waiting
                      1%nat 0%nat 0%nat)
                 = Some ([THREAD_BLOCKED; THREAD_BLOCKED], 30))
    by (vm_compute; reflexivity).
  rewrite Hrun in Hend. cbn [option_map fst] in Hend.
  injection Hend as Hst3 Hst2 Hprio.
  exists st'. split; [exact Hrun |]. split; [exact Hq |].
  split; [now apply lock_held_by_current_thread_true |].
  split; [cbn [map]; now rewrite Hst3, Hst2 |].
  split; [vm_compute; reflexivity | exact Hprio].
Defined.

(** ** Waiting and being signalled *)






Lemma lock_acquire_blocks LOCK_LEVEL st cur l h :
  holder (lockmap st l) = Some h ->
  h <> cur ->
  value (l_semaphore (lockmap st l)) = 0 ->
  exists st',
    lock_acquire LOCK_LEVEL false st cur l = Some (st', Blocked)
    /\ holder (lockmap st' l) = Some h
    /\ In cur (waiters (l_semaphore (lockmap st' l)))
    /\ status (threads st' cur) = THREAD_BLOCKED
    /\ elems st' = elems st
    /\ conds st' = conds st.
Proof.
  intros Hh Hne Hv.
  destruct (lock_acquire_donate_effect LOCK_LEVEL false st cur l)
    as (st1 & Hrun & _ & He1 & Hc1 & Hl1 & _).
  destruct (Hl1 l) as (Hh1 & Hs1 & _).
  exists (fst (lock_acquire_retry false st1 cur l)).
  unfold lock_acquire.
  replace (lock_held_by_current_thread st cur l) with false
    by (symmetry; apply lock_held_by_current_thread_false; congruence).
  rewrite Hrun.
  unfold lock_acquire_retry, lock_sema_down_pass, sema_down_pass.
  rewrite Hs1, Hv. cbn.
  rewrite update_eq. cbn.
  split; [reflexivity |]. split; [congruence |].
  split; [apply list_insert_ordered_in; now left |].
  split; [unfold thread_block; now rewrite update_eq |].
  split; assumption.
Qed.

(** A signal by the lock's holder, when the record at the front of the
    queue has its waiter blocked on it: the record leaves the queue with its
    semaphore at 1 and no waiters, the waiter is ready, and the signal
    yields exactly when the waiter's priority is above the signaller's.
    When the waiter then resumes inside [cond_wait], it passes its own
    semaphore, taking it back to 0, and blocks on the lock, which is still
    held by the signaller. *)
Theorem cond_signal_hands_over :
  forall LOCK_LEVEL st sig c l w rest t,
    lock_held_by_current_thread st sig l = true ->
    value (l_semaphore (lockmap st l)) = 0 ->
    c_waiters (conds st c) = w :: rest ->
    e_semaphore (elems st w) = mkSema 0 [t] ->
    t <> sig ->
    exists st1 y st2,
      cond_signal st sig c l = Some (st1, y)
      /\ y = (priority (threads st t) >? priority (threads st sig))
      /\ status (threads st1 t) = THREAD_READY
      /\ e_semaphore (elems st1 w) = mkSema 1 []
      /\ c_waiters (conds st1 c) = rest
      /\ cond_wait_resume LOCK_LEVEL false st1 t l w = Some (st2, Blocked)
      /\ e_semaphore (elems st2 w) = mkSema 0 []
      /\ holder (lockmap st2 l) = Some sig
      /\ In t (waiters (l_semaphore (lockmap st2 l)))
      /\ status (threads st2 t) = THREAD_BLOCKED.
Proof.
  intros LL st sig c l w rest t Hheld Hv Hq Hsem Hne.
  assert (Hret : exists st1 y, cond_signal st sig c l = Some (st1, y)).
  { unfold cond_signal. rewrite Hheld, Hq. cbn [list_pop_front].
    destruct (sema_up (threads (with_cond st c (mkCond rest))) sig
                (e_semaphore (elems (with_cond st c (mkCond rest)) w)))
      as [[ths' sema'] yield]. eauto. }
  destruct Hret as (st1 & y & Hsig).
  pose proof Hsig as Hcases. apply cond_signal_cases in Hcases.
  destruct Hcases as [(Hnil & _) | (w0 & rest0 & Hq0 & Hconds & Helems & Hths
                                    & Hy & Hlocks & _)];
    [congruence |].
  rewrite Hq in Hq0. injection Hq0 as <- <-.
  rewrite Hsem in Helems, Hths, Hy.
  rewrite sema_up_yield_front in Hy.
  rewrite sema_up_unfold in Helems, Hths. cbn [fst snd value waiters] in *.
  cbn [fold_right] in Hths. change (wrap32 (0 + 1)) with 1 in Helems.
  assert (Hready : status (threads st1 t) = THREAD_READY)
    by (rewrite Hths; unfold thread_unblock; now rewrite update_eq).
  assert (Hw1 : e_semaphore (elems st1 w) = mkSema 1 [])
    by (rewrite Helems, update_eq; reflexivity).
  set (st1' := fst (elem_sema_down_pass st1 t w)).
  assert (Hpass : elem_sema_down_pass st1 t w = (st1', Passed)
                  /\ e_semaphore (elems st1' w) = mkSema 0 []
                  /\ lockmap st1' = lockmap st1).
  { unfold st1', elem_sema_down_pass, sema_down_pass. rewrite Hw1.
    cbn. rewrite update_eq. repeat split; reflexivity. }
  destruct Hpass as (Hpass & Hw1' & Hl1').
  clearbody st1'.
  assert (Hh : holder (lockmap st1' l) = Some sig).
  { rewrite Hl1', Hlocks. now apply lock_held_by_current_thread_true. }
  destruct (lock_acquire_blocks LL st1' t l sig Hh)
    as (st2 & Hacq & Hh2 & Hin2 & Hst2 & He2 & _).
  { congruence. }
  { now rewrite Hl1', Hlocks. }
  exists st1, y, st2.
  split; [exact Hsig |]. split; [exact Hy |]. split; [exact Hready |].
  split; [exact Hw1 |].
  split; [rewrite Hconds, update_eq; reflexivity |].
  split; [unfold cond_wait_resume; rewrite Hpass; exact Hacq |].
  split; [rewrite He2; exact Hw1' |].
  auto.
Qed.

Lemma cond_signal_hands_over_witness :
  exists st1 y st2,
    cond_signal waiter_blocked 2%nat 0%nat 0%nat = Some (st1, y)
    /\ y = (priority (threads waiter_blocked 3%nat)
            >? priority (threads waiter_blocked 2%nat))
    /\ status (threads st1 3%nat) = THREAD_READY
    /\ e_semaphore (elems st1 7%nat) = mkSema 1 []
    /\ c_waiters (conds st1 0%nat) = []
    /\ cond_wait_resume 8 false st1 3%nat 0%nat 7%nat = Some (st2, Blocked)
    /\ e_semaphore (elems st2 7%nat) = mkSema 0 []
    /\ holder (lockmap st2 0%nat) = Some 2%nat
    /\ In 3%nat (waiters (l_semaphore (lockmap st2 0%nat)))
    /\ status (threads st2 3%nat) = THREAD_BLOCKED.
Proof.
  apply (cond_signal_hands_over 8 waiter_blocked 2%nat 0%nat 0%nat 7%nat
           [] 3%nat); try (vm_compute; reflexivity).
  discriminate.
Defined.

(** ** Nested donation along a complete chain *)

Lemma donate_walk_complete LOCK_LEVEL cur : forall hs fuel st l iter,
  ownership_chain st l hs ->
  hs <> [] ->
  waiting_for_lock (threads st (last hs 0%nat)) = None ->
  NoDup hs ->
  ~ In cur hs ->
  (length hs <= fuel)%nat ->
  (length hs <= S (Z.to_nat (LOCK_LEVEL - iter)))%nat ->
  (forall h, In h hs -> priority (threads st h) < priority (threads st cur)) ->
  exists st',
    donate_walk LOCK_LEVEL false fuel st cur (holder (lockmap st l)) l iter
    = Some st'
    /\ (forall h, In h hs ->
          threads st' h
          = donated_to (priority (threads st cur)) (threads st h))
    /\ (forall t, ~ In t hs -> threads st' t = threads st t).
Proof.
  induction hs as [| h rest IH];
    intros fuel st l iter Hc Hne Hlast Hnd Hcur Hf Hlen Hlow; [congruence |].
  cbn [ownership_chain] in Hc. destruct Hc as [Hh Hrest].
  inversion Hnd as [| ? ? Hh_rest Hnd_rest]; subst.
  assert (Hcur_h : cur <> h) by (intros ->; apply Hcur; now left).
  rewrite Hh. destruct fuel as [| fuel]; [cbn in Hf; lia |].
  cbn [donate_walk negb andb].
  assert (Hlt : priority (threads st h) < priority (threads st cur))
    by (apply Hlow; now left).
  apply Z.ltb_lt in Hlt. rewrite Hlt.
  set (st2 := donate_once st cur h l).
  assert (Hst2_other : forall t, t <> h -> threads st2 t = threads st t)
    by (intros t Ht; now apply donate_once_other).
  assert (Hst2_h : threads st2 h
                   = donated_to (priority (threads st cur)) (threads st h)).
  { unfold st2. rewrite donate_once_threads.
    unfold thread_given_set_priority. now rewrite update_eq. }
  assert (Hwait : forall t, waiting_for_lock (threads st2 t)
                            = waiting_for_lock (threads st t))
    by (intros t; apply donate_once_waiting).
  rewrite Hwait.
  destruct rest as [| h2 rest'].
  - cbn [last] in Hlast. rewrite Hlast.
    exists st2. split; [reflexivity |]. split.
    + intros h' [<- | []]. exact Hst2_h.
    + intros t Ht. apply Hst2_other. intros ->. apply Ht. now left.
  - destruct Hrest as (l' & Hwl & Hc'). rewrite Hwl.
    assert (Hgo : (iter <? LOCK_LEVEL) = true).
    { apply Z.ltb_lt. cbn [length] in Hlen. lia. }
    rewrite Hgo.
    destruct (IH fuel st2 l' (iter + 1)) as (st' & Hrun & Hin & Hout).
    + apply ownership_chain_ext with (st := st); auto.
      intros l0. apply donate_once_holder.
    + discriminate.
    + rewrite Hwait. exact Hlast.
    + assumption.
    + intros Hi. apply Hcur. now right.
    + cbn [length] in *. lia.
    + cbn [length] in *. lia.
    + intros h' Hh'.
      rewrite !Hst2_other by (try assumption; intros ->; contradiction).
      apply Hlow. now right.
    + exists st'. split; [exact Hrun |].
      rewrite (Hst2_other cur Hcur_h) in Hin. split.
      * intros h' [<- | Hh'].
        -- rewrite Hout by assumption. exact Hst2_h.
        -- rewrite Hin by assumption.
           rewrite Hst2_other by (intros ->; contradiction). reflexivity.
      * intros t Ht. rewrite Hout by (intros Hi; apply Ht; now right).
        apply Hst2_other. intros ->. apply Ht. now left.
Qed.

(** In donation-enabled mode, when the chain of holders that starts at the
    lock being acquired ends in a holder that waits for no lock, has at most
    LOCK_LEVEL + 1 distinct holders, none of them the caller, and all of
    them are below the caller's priority, [lock_acquire] raises every holder
    of the chain to the caller's priority and marks it donated, and leaves
    the priority and the donated flag of every other thread alone. *)
Theorem nested_donation_reaches_whole_chain :
  forall LOCK_LEVEL st cur l hs,
    ownership_chain st l hs ->
    hs <> [] ->
    waiting_for_lock (threads st (last hs 0%nat)) = None ->
    NoDup hs ->
    ~ In cur hs ->
    (length hs <= S (Z.to_nat LOCK_LEVEL))%nat ->
    (forall h, In h hs -> priority (threads st h) < priority (threads st cur)) ->
    exists st' r,
      lock_acquire LOCK_LEVEL false st cur l = Some (st', r)
      /\ (forall h, In h hs ->
            priority (threads st' h) = priority (threads st cur)
            /\ is_donated (threads st' h) = true
            /\ priority_original (threads st' h)
               = priority_original (threads st h))
      /\ (forall t, ~ In t hs ->
            priority (threads st' t) = priority (threads st t)
            /\ is_donated (threads st' t) = is_donated (threads st t)).
Proof.
  intros LL st cur l hs Hc Hne Hlast Hnd Hcur Hlen Hlow.
  destruct hs as [| h0 rest]; [congruence |].
  assert (Hh0 : holder (lockmap st l) = Some h0) by (destruct Hc; assumption).
  set (st0 := with_threads st
                (update (threads st) cur
                   (set_waiting_for_lock (Some l) (threads st cur)))).
  assert (Hst0 : forall t, t <> cur -> threads st0 t = threads st t)
    by (intros t Ht; cbn; now apply update_neq).
  assert (Hst0_cur : priority (threads st0 cur) = priority (threads st cur)
                     /\ is_donated (threads st0 cur)
                        = is_donated (threads st cur))
    by (cbn; rewrite update_eq; split; reflexivity).
  assert (Hin_ne : forall t, In t (h0 :: rest) -> t <> cur)
    by (intros t Hin ->; contradiction).
  destruct (donate_walk_complete LL cur (h0 :: rest) (S (Z.to_nat LL)) st0 l 0)
    as (st1 & Hrun & Hin & Hout).
  { apply ownership_chain_ext with (st := st); auto.
    intros t Ht. now rewrite Hst0 by auto. }
  { discriminate. }
  { rewrite Hst0; [exact Hlast |]. apply Hin_ne.
    destruct rest; [now left |]. apply (@exists_last _ (h0 :: t :: rest))
      in Hne. destruct Hne as (pre & x & Heq). rewrite Heq.
    rewrite last_last. apply in_or_app. right. now left. }
  { assumption. }
  { assumption. }
  { exact Hlen. }
  { rewrite Z.sub_0_r. exact Hlen. }
  { intros h Hh. destruct Hst0_cur as [-> _]. rewrite Hst0 by auto.
    now apply Hlow. }
  destruct Hst0_cur as [Hp0 Hd0]. rewrite Hp0 in Hin.
  destruct (lock_acquire_retry_keeps false st1 cur l) as [Hkt _].
  exists (fst (lock_acquire_retry false st1 cur l)),
         (snd (lock_acquire_retry false st1 cur l)).
  split.
  - unfold lock_acquire, lock_acquire_donate.
    replace (lock_held_by_current_thread st cur l) with false
      by (symmetry; apply lock_held_by_current_thread_false;
          rewrite Hh0; intros [= ->]; apply Hcur; now left).
    rewrite Hh0. cbn [negb]. fold st0.
    change (holder (lockmap st l)) with (holder (lockmap st0 l)) in Hh0.
    rewrite Hrun. now destruct (lock_acquire_retry false st1 cur l).
  - split.
    + intros h Hh. destruct (Hkt h) as (-> & -> & ->).
      rewrite (Hin h Hh), Hst0 by auto. cbn. auto.
    + intros t Ht. destruct (Hkt t) as (-> & _ & ->).
      rewrite (Hout t Ht).
      destruct (Nat.eq_dec t cur) as [-> | Hne'].
      * auto.
      * rewrite Hst0 by assumption. auto.
Qed.

Lemma nested_donation_reaches_whole_chain_witness :
  exists st' r,
    lock_acquire 8 false three_deep_chain 3%nat 0%nat = Some (st', r)
    /\ (forall h, In h [2%nat; 1%nat; 0%nat] ->
          priority (threads st' h) = priority (threads three_deep_chain 3%nat)
          /\ is_donated (threads st' h) = true
          /\ priority_original (threads st' h)
             = priority_original (threads three_deep_chain h))
    /\ (forall t, ~ In t [2%nat; 1%nat; 0%nat] ->
          priority (threads st' t) = priority (threads three_deep_chain t)
          /\ is_donated (threads st' t)
             = is_donated (threads three_deep_chain t)).
Proof.
  apply (nested_donation_reaches_whole_chain 8 three_deep_chain 3%nat 0%nat
           [2%nat; 1%nat; 0%nat]).
  - cbn [ownership_chain].
    split; [vm_compute; reflexivity |].
    exists 1%nat. split; [vm_compute; reflexivity |].
    split; [vm_compute; reflexivity |].
    exists 2%nat. split; [vm_compute; reflexivity |].
    split; [vm_compute; reflexivity | exact I].
  - discriminate.
  - vm_compute. reflexivity.
  - repeat constructor; cbn; intuition discriminate.
  - cbn. intuition discriminate.
  - cbn. lia.
  - intros h [<- | [<- | [<- | []]]]; vm_compute; reflexivity.
Defined.
